(** * meteodetect: the chirp detector of [src/main.c]

    A shallow embedding of [meteo_detect_new], [meteo_detect_destroy] and
    [meteo_detect_feed], followed by the properties of the detector.

    The numeric types follow the C program: [SUFLOAT] is IEEE binary32
    ([main] asserts that a [SUCOMPLEX] has the size of a [complex float]),
    constants written with a decimal point are binary64, [SUSCOUNT] is a
    64-bit unsigned counter.  The [SU_] macros are read as the functions
    of the C library in single precision: [SU_CEIL] is [ceilf], [SU_FLOOR]
    is [floorf], [SU_EXP] is [expf], [SU_C_ARG] is [cargf].  The filters,
    the oscillator, [expf] and [cargf] belong to other libraries and are
    parameters of the model. *)

From Stdlib Require Import ZArith Lia Bool String.
From Stdlib Require Floats.SpecFloat.
From stdpp Require Import base option list gmap.

Local Open Scope Z_scope.

(** ** IEEE 754 binary formats *)

Abbreviation float := SpecFloat.spec_float.

Module Ieee.
Import SpecFloat.

Definition is_nan (x : float) : bool :=
  match x with S754_nan => true | _ => false end.

Definition is_zero (x : float) : bool :=
  match x with S754_zero _ => true | _ => false end.

Definition is_finite (x : float) : bool :=
  match x with S754_zero _ | S754_finite _ _ _ => true | _ => false end.

Definition is_infinity (x : float) : bool :=
  match x with S754_infinity _ => true | _ => false end.

(** The integer [m] of a finite float [(-1)^s * m * 2^e], with its sign. *)
Definition signed (s : bool) (m : positive) : Z := cond_Zopp s (Zpos m).

(** Largest integer below, smallest integer above, and the integer part
    of [(-1)^s * m * 2^e]. *)
Definition Zfloor (s : bool) (m : positive) (e : Z) : Z :=
  if 0 <=? e then Z.shiftl (signed s m) e else Z.shiftr (signed s m) (- e).

Definition Zceil (s : bool) (m : positive) (e : Z) : Z :=
  - Zfloor (negb s) m e.

Definition Ztrunc (s : bool) (m : positive) (e : Z) : Z :=
  if s then Zceil s m e else Zfloor s m e.

Section Format.
Variables prec emax : Z.

(** Conversion of an integer, round to nearest even. *)
Definition of_Z (z : Z) : float := binary_normalize prec emax z 0 false.

(** Conversion from another binary format, round to nearest even. *)
Definition of_float (x : float) : float :=
  match x with
  | S754_finite s m e => binary_round prec emax s m e
  | _ => x
  end.

(** [floor] and [ceil] of the C library: integral values, infinities,
    NaN and zeros are returned as they are; a zero result keeps the
    sign of the argument. *)
Definition floor (x : float) : float :=
  match x with
  | S754_finite s m e =>
      if 0 <=? e then x else binary_normalize prec emax (Zfloor s m e) 0 s
  | _ => x
  end.

Definition ceil (x : float) : float :=
  match x with
  | S754_finite s m e =>
      if 0 <=? e then x else binary_normalize prec emax (Zceil s m e) 0 s
  | _ => x
  end.

Definition add := SFadd prec emax.
Definition sub := SFsub prec emax.
Definition mul := SFmul prec emax.
Definition div := SFdiv prec emax.
End Format.

(** The C comparisons: all of them are false on a NaN. *)
Definition ltb (x y : float) : bool := SFltb x y.
Definition geb (x y : float) : bool := SFleb y x.
Definition eqb (x y : float) : bool := SFeqb x y.

(** Conversion to an unsigned integer of [bits] bits: the fraction is
    discarded.  C defines the conversion only when the integer part fits
    the type ([representable]); elsewhere the model wraps it, and gives 0
    for an infinity or a NaN. *)
Definition to_unsigned (bits : Z) (x : float) : Z :=
  match x with
  | S754_finite s m e => Ztrunc s m e mod 2 ^ bits
  | _ => 0
  end.

Definition representable (bits : Z) (x : float) : bool :=
  match x with
  | S754_zero _ => true
  | S754_finite s m e => (0 <=? Ztrunc s m e) && (Ztrunc s m e <? 2 ^ bits)
  | _ => false
  end.
End Ieee.

(** ** The types of sigutils *)

(** [SUFLOAT]: binary32. *)
Module F.
Definition prec : Z := 24.
Definition emax : Z := 128.
Definition of_Z := Ieee.of_Z prec emax.
Definition of_double := Ieee.of_float prec emax.
Definition add := Ieee.add prec emax.
Definition sub := Ieee.sub prec emax.
Definition mul := Ieee.mul prec emax.
Definition div := Ieee.div prec emax.
Definition floor := Ieee.floor prec emax.
Definition ceil := Ieee.ceil prec emax.
Definition zero : float := SpecFloat.S754_zero false.
Definition one : float := Eval vm_compute in of_Z 1.
Definition nan : float := SpecFloat.S754_nan.
Definition infinity : float := SpecFloat.S754_infinity false.
End F.

(** [double]: binary64, the type of the constants [300.], [0.07], [-1.]. *)
Module D.
Definition prec : Z := 53.
Definition emax : Z := 1024.
Definition of_Z := Ieee.of_Z prec emax.
Definition of_single := Ieee.of_float prec emax.
Definition mul := Ieee.mul prec emax.
Definition div := Ieee.div prec emax.
(** A decimal constant [n / 10^k], rounded to the nearest double. *)
Definition decimal (n : Z) (k : Z) : float := div (of_Z n) (of_Z (10 ^ k)).
End D.

Abbreviation SUFLOAT := float.

(** [SUSCOUNT]: an unsigned counter of 64 bits; arithmetic wraps. *)
Abbreviation SUSCOUNT := Z (only parsing).
Definition SUSCOUNT_bits : Z := 64.
Definition wrap (z : Z) : SUSCOUNT := z mod 2 ^ SUSCOUNT_bits.
Definition SUSCOUNT_of_float (x : float) : SUSCOUNT :=
  Ieee.to_unsigned SUSCOUNT_bits x.

(** [unsigned int]: 32 bits. *)
Definition UINT_bits : Z := 32.

(** [SUCOMPLEX]: a pair of [SUFLOAT]. *)
Record SUCOMPLEX := Complex { re : SUFLOAT; im : SUFLOAT }.

Definition Czero : SUCOMPLEX := Complex F.zero F.zero.

(** [SU_C_CONJ] and [SU_C_REAL]. *)
Definition SU_C_CONJ (z : SUCOMPLEX) : SUCOMPLEX :=
  Complex (re z) (SpecFloat.SFopp (im z)).
Definition SU_C_REAL (z : SUCOMPLEX) : SUFLOAT := re z.

(** The product of two complex numbers, as annex G of the C standard
    gives it and as the compilers compute it (inline, with [__mulsc3] of
    the runtime for the recovery): [(ac - bd) + (ad + bc) i], and when both
    parts come out as NaN, the infinities of the operands are recovered.

    [box x] is [COPYSIGN(isinf(x) ? 1 : 0, x)] and [unnan x] is
    [if (isnan(x)) x = COPYSIGN(0, x)].  A NaN has no sign here: the zero
    that replaces it is [+0].  The sign of such a zero only shows in a sum
    that is itself a zero, which the product with the infinity turns into
    a NaN. *)
Definition box (x : SUFLOAT) : SUFLOAT :=
  match x with
  | SpecFloat.S754_infinity s => if s then SpecFloat.SFopp F.one else F.one
  | SpecFloat.S754_zero s | SpecFloat.S754_finite s _ _ => SpecFloat.S754_zero s
  | SpecFloat.S754_nan => F.zero
  end.

Definition unnan (x : SUFLOAT) : SUFLOAT :=
  if Ieee.is_nan x then F.zero else x.

Definition Cmul (z w : SUCOMPLEX) : SUCOMPLEX :=
  let '(a, b, c, d) := (re z, im z, re w, im w) in
  let '(ac, bd, ad, bc) := (F.mul a c, F.mul b d, F.mul a d, F.mul b c) in
  let x := F.sub ac bd in
  let y := F.add ad bc in
  if Ieee.is_nan x && Ieee.is_nan y then
    let '(a, b, c, d, recalc) :=
      if Ieee.is_infinity a || Ieee.is_infinity b
      then (box a, box b, unnan c, unnan d, true)
      else (a, b, c, d, false) in
    let '(a, b, c, d, recalc) :=
      if Ieee.is_infinity c || Ieee.is_infinity d
      then (unnan a, unnan b, box c, box d, true)
      else (a, b, c, d, recalc) in
    let '(a, b, c, d, recalc) :=
      if negb recalc
         && (Ieee.is_infinity ac || Ieee.is_infinity bd
             || Ieee.is_infinity ad || Ieee.is_infinity bc)
      then (unnan a, unnan b, unnan c, unnan d, true)
      else (a, b, c, d, recalc) in
    if recalc
    then Complex (F.mul F.infinity (F.sub (F.mul a c) (F.mul b d)))
                 (F.mul F.infinity (F.add (F.mul a d) (F.mul b c)))
    else Complex x y
  else Complex x y.

(** [I * r], for a real [r].  The macro [I] of <complex.h> is [_Complex_I],
    the complex constant [0 + 1i]; the product of a complex number and a
    real number multiplies both parts by it: the real part is [0 * r], a
    NaN when [r] is a NaN or an infinity, and the imaginary part is
    [1 * r], which is [r]. *)
Definition I_times (r : SUFLOAT) : SUCOMPLEX := Complex (F.mul F.zero r) r.

(** An integer added to a complex number: the integer is converted to
    [SUFLOAT] and added to the real part. *)
Definition Cadd_int (k : Z) (z : SUCOMPLEX) : SUCOMPLEX :=
  Complex (F.add (F.of_Z k) (re z)) (im z).

(** A sample whose two parts are zeros, of either sign. *)
Definition Cis_zero (z : SUCOMPLEX) : bool :=
  Ieee.is_zero (re z) && Ieee.is_zero (im z).

Definition Cis_finite (z : SUCOMPLEX) : bool :=
  Ieee.is_finite (re z) && Ieee.is_finite (im z).

(** ** The constants of [main.c] *)

Definition LPF1_CUTOFF : float := D.of_Z 300.
Definition LPF2_CUTOFF : float := D.of_Z 50.
Definition POWER_RATIO : float := D.div LPF2_CUTOFF LPF1_CUTOFF.
Definition POWER_THRESHOLD : float := D.mul (D.of_Z 2) POWER_RATIO.
Definition MIN_CHIRP_DURATION : float := D.decimal 7 2.

(** ** The collaborators

    The low-pass filter and the oscillator of sigutils, [expf] and [cargf]:
    stateful operators and functions the detector calls and does not
    define. *)

Class Sigutils := {
  su_iir_filt_t : Type;
  su_ncqo_t : Type;
  (** [su_iir_bwlpf_init order fnor]: the state of a Butterworth low pass
      once initialised. *)
  su_iir_bwlpf_init : Z -> SUFLOAT -> su_iir_filt_t;
  (** One sample in, one sample out. *)
  su_iir_filt_feed : su_iir_filt_t -> SUCOMPLEX -> SUCOMPLEX * su_iir_filt_t;
  su_ncqo_init : SUFLOAT -> su_ncqo_t;
  (** The next sample of the oscillator. *)
  su_ncqo_read : su_ncqo_t -> SUCOMPLEX * su_ncqo_t;
  SU_ABS2NORM_FREQ : SUFLOAT -> float -> SUFLOAT;
  SU_EXP : SUFLOAT -> SUFLOAT;
  SU_C_ARG : SUCOMPLEX -> SUFLOAT
}.

(** ** The detector *)

(** A block obtained from [calloc]: its address and its cells. *)
Record array (A : Type) := Array { base : nat; cells : list A }.
Arguments Array {A} _ _.
Arguments base {A} _.
Arguments cells {A} _.

(** [a[i] = v] and [a[i]]; [None] outside the block. *)
Definition aset {A} (a : array A) (i : SUSCOUNT) (v : A) : option (array A) :=
  if decide (Z.to_nat i < length (cells a))%nat
  then Some (Array (base a) (<[Z.to_nat i := v]> (cells a)))
  else None.

Definition aget {A} (a : array A) (i : SUSCOUNT) : option A :=
  cells a !! Z.to_nat i.

Abbreviation FILE := nat (only parsing).

(** What a call writes: a line on the console (the four arguments that
    [printf] formats as "Chirp of length %5d detected (at %02d:%02d:%02d)")
    or one sample on a file. *)
Inductive event :=
| Printf (chirp_len hours minutes seconds : SUSCOUNT)
| Fwrite (fp : FILE) (out : SUCOMPLEX).

(** The samples written to files, and the console lines, of a list of
    events. *)
Definition written (evs : list event) : list (FILE * SUCOMPLEX) :=
  omap (fun e => match e with Fwrite fp out => Some (fp, out) | _ => None end) evs.

Definition printed (evs : list event) : list (SUSCOUNT * SUSCOUNT * SUSCOUNT * SUSCOUNT) :=
  omap (fun e => match e with
                 | Printf len h m s => Some (len, h, m, s)
                 | _ => None
                 end) evs.

Section Detector.
Context `{Sigutils}.

(** [struct meteo_detect].  A pointer field is [None] when it is NULL; a
    filter or oscillator field is [None] while it is the zeroed memory
    that [calloc] returned. *)
Record meteo_detect := {
  fs : SUFLOAT;
  n : SUSCOUNT;
  lpf1 : option su_iir_filt_t;
  lpf2 : option su_iir_filt_t;
  lo : option su_ncqo_t;
  alpha : SUFLOAT;
  n0 : SUFLOAT;
  s0 : SUFLOAT;
  powerbuf_len : SUSCOUNT;
  p : SUSCOUNT;
  powerbuf : option (array SUFLOAT);
  delay_line : option (array SUCOMPLEX);
  energy_thres : SUFLOAT;
  in_chirp : bool;
  chirp_len : SUSCOUNT;
  chirp_remaining : SUSCOUNT;
  prev : SUCOMPLEX;
  ofp : option FILE
}.

(** *** [meteo_detect_feed] *)

(** [integral = 0; for (i = 0; i < len; ++i) integral += powerbuf[i];]
    The counter [i] is an [unsigned int]: it reaches [len], and the loop
    ends, only when [len] fits that type. *)
Definition integrate (buf : array SUFLOAT) (len : SUSCOUNT) : option SUFLOAT :=
  if len <? 2 ^ UINT_bits
  then foldl (fun acc i => a ← acc; v ← aget buf (Z.of_nat i);
                           Some (F.add a v))
             (Some F.zero) (seq 0 (Z.to_nat len))
  else None.

(** [seconds = SU_FLOOR((md->n - md->chirp_len) / md->fs)] *)
Definition seconds_of (md : meteo_detect) : SUSCOUNT :=
  SUSCOUNT_of_float
    (F.floor (F.div (F.of_Z (wrap (n md - chirp_len md))) (fs md))).

(** The [printf] of a chirp that ended. *)
Definition notice (md : meteo_detect) : event :=
  let seconds := seconds_of md in
  Printf (chirp_len md) (seconds / 3600) ((seconds / 60) mod 60) (seconds mod 60).

(** The two [if]s that follow the integral: the new [in_chirp],
    [chirp_len] and [chirp_remaining], and what is printed. *)
Definition chirp_update (md : meteo_detect) (integral : SUFLOAT)
  : bool * SUSCOUNT * SUSCOUNT * list event :=
  let '(chirp, len, remaining, printed) :=
    if in_chirp md then
      if Ieee.ltb integral (energy_thres md)
      then (false, chirp_len md, chirp_remaining md, [notice md])
      else (true, wrap (chirp_len md + 1), chirp_remaining md, [])
    else
      if Ieee.geb integral (energy_thres md)
      then (true, powerbuf_len md, powerbuf_len md, [])
      else (false, chirp_len md, chirp_remaining md, [])
  in
  let remaining :=
    if negb chirp && (0 <? remaining) then remaining - 1 else remaining in
  (chirp, len, remaining, printed).

(** [out = valid_data + (valid_data ? I * SU_C_ARG(delay_line[p]) : 0)] *)
Definition encode (valid_data : bool) (line : array SUCOMPLEX) (p : SUSCOUNT)
  : option SUCOMPLEX :=
  if valid_data
  then oldest ← aget line p; Some (Cadd_int 1 (I_times (SU_C_ARG oldest)))
  else Some (Cadd_int 0 Czero).

(** [|y|^2], written [SU_C_REAL(y * SU_C_CONJ(y))]. *)
Definition power (y : SUCOMPLEX) : SUFLOAT := SU_C_REAL (Cmul y (SU_C_CONJ y)).

(** [x += alpha * (v - x)] *)
Definition smooth (alpha x v : SUFLOAT) : SUFLOAT :=
  F.add x (F.mul alpha (F.sub v x)).

(** The first half of the function, up to the integral: the filtered
    sample, the collaborators and the power estimates after the call, the
    two buffers with their new entry, the index moved to the oldest entry,
    and the integral.  [None] is a read or write through a pointer that
    is NULL or outside its block, a filter that was never initialised, or
    a loop that does not end. *)
Record measured := {
  m_y : SUCOMPLEX;
  m_lo : su_ncqo_t;
  m_lpf1 : su_iir_filt_t;
  m_lpf2 : su_iir_filt_t;
  m_n0 : SUFLOAT;
  m_s0 : SUFLOAT;
  m_ratio : SUFLOAT;
  m_powerbuf : array SUFLOAT;
  m_delay_line : array SUCOMPLEX;
  m_p : SUSCOUNT;
  m_integral : SUFLOAT
}.

Definition measure (md : meteo_detect) (x : SUCOMPLEX) : option measured :=
  osc ← lo md;
  f1 ← lpf1 md;
  f2 ← lpf2 md;
  buf ← powerbuf md;
  line ← delay_line md;
  let '(carrier, osc) := su_ncqo_read osc in
  let '(y, f1) := su_iir_filt_feed f1 (Cmul x (SU_C_CONJ carrier)) in
  let n0' := smooth (alpha md) (n0 md) (power y) in
  let '(y, f2) := su_iir_filt_feed f2 y in
  let s0' := smooth (alpha md) (s0 md) (power y) in
  let ratio := F.div s0' n0' in
  buf ← aset buf (p md) ratio;
  line ← aset line (p md) (Cmul y (SU_C_CONJ (prev md)));
  let p' := if wrap (p md + 1) =? powerbuf_len md then 0 else wrap (p md + 1) in
  integral ← integrate buf (powerbuf_len md);
  Some {| m_y := y; m_lo := osc; m_lpf1 := f1; m_lpf2 := f2;
          m_n0 := n0'; m_s0 := s0'; m_ratio := ratio;
          m_powerbuf := buf; m_delay_line := line; m_p := p';
          m_integral := integral |}.

(** One sample through the detector: the new state and what was written,
    the console line of a chirp that ended before the output sample. *)
Definition meteo_detect_feed (md : meteo_detect) (x : SUCOMPLEX)
  : option (meteo_detect * list event) :=
  m ← measure md x;
  fp ← ofp md;
  let '(chirp, len, remaining, printed) := chirp_update md (m_integral m) in
  let valid_data := negb (remaining =? 0) in
  out ← encode valid_data (m_delay_line m) (m_p m);
  Some ({| fs := fs md;
           n := wrap (n md + 1);
           lpf1 := Some (m_lpf1 m);
           lpf2 := Some (m_lpf2 m);
           lo := Some (m_lo m);
           alpha := alpha md;
           n0 := m_n0 m;
           s0 := m_s0 m;
           powerbuf_len := powerbuf_len md;
           p := m_p m;
           powerbuf := Some (m_powerbuf m);
           delay_line := Some (m_delay_line m);
           energy_thres := energy_thres md;
           in_chirp := chirp;
           chirp_len := len;
           chirp_remaining := remaining;
           prev := m_y m;
           ofp := Some fp |},
        printed ++ [Fwrite fp out]).

(** The loop of [main]: one call for each sample read.  The result lists,
    call by call, the state after the call and what the call wrote. *)
Fixpoint run (md : meteo_detect) (xs : list SUCOMPLEX)
  : option (list (meteo_detect * list event)) :=
  match xs with
  | [] => Some []
  | x :: xs =>
      step ← meteo_detect_feed md x;
      rest ← run (fst step) xs;
      Some (step :: rest)
  end.

(** The state after the last call of a run. *)
Definition final (md : meteo_detect) (calls : list (meteo_detect * list event))
  : meteo_detect :=
  default md (last (map fst calls)).

(** The state a call of a run starts from. *)
Definition before (md : meteo_detect) (calls : list (meteo_detect * list event))
  (k : nat) : meteo_detect :=
  match k with
  | O => md
  | S j => default md (fst <$> calls !! j)
  end.

(** A detector whose struct is complete: collaborators initialised, file
    open, both buffers of [powerbuf_len] cells, the index inside them, and
    a window that the loop of the integral can count. *)
Definition ready (md : meteo_detect) : bool :=
  bool_decide (is_Some (lo md)) && bool_decide (is_Some (lpf1 md))
  && bool_decide (is_Some (lpf2 md)) && bool_decide (is_Some (ofp md))
  && from_option (fun a => Z.of_nat (length (cells a)) =? powerbuf_len md)
                 false (powerbuf md)
  && from_option (fun a => Z.of_nat (length (cells a)) =? powerbuf_len md)
                 false (delay_line md)
  && (0 <=? p md) && (p md <? powerbuf_len md)
  && (powerbuf_len md <? 2 ^ UINT_bits).

(** *** The heap, the files and the failures of the C library *)

(** [oracle] lists the outcomes of the calls that can fail ([calloc],
    [su_iir_bwlpf_init], [fopen]), in the order they are made; a call
    made after the list is exhausted succeeds.  [heap] holds the detectors
    that are allocated, [blocks] the addresses of the other live blocks,
    [files] the open files with their path, [filters] the number of
    filters that hold storage. *)
Record world := World {
  next : nat;
  oracle : list bool;
  heap : gmap nat meteo_detect;
  blocks : gset nat;
  files : gmap FILE string;
  filters : nat
}.

Definition draw (w : world) : bool * world :=
  match oracle w with
  | [] => (true, w)
  | ok :: rest =>
      (ok, World (next w) rest (heap w) (blocks w) (files w) (filters w))
  end.

(** The memory [calloc] returns is zeroed. *)
Definition zeroed : meteo_detect :=
  {| fs := F.zero; n := 0; lpf1 := None; lpf2 := None; lo := None;
     alpha := F.zero; n0 := F.zero; s0 := F.zero;
     powerbuf_len := 0; p := 0; powerbuf := None; delay_line := None;
     energy_thres := F.zero; in_chirp := false;
     chirp_len := 0; chirp_remaining := 0; prev := Czero; ofp := None |}.

(** [calloc(1, sizeof (meteo_detect_t))] *)
Definition calloc_detect (w : world) : option nat * world :=
  let '(ok, w) := draw w in
  if ok
  then (Some (next w),
        World (S (next w)) (oracle w) (<[next w := zeroed]> (heap w))
              (blocks w) (files w) (filters w))
  else (None, w).

(** [calloc(sizeof (A), len)] *)
Definition calloc {A} (zero : A) (len : SUSCOUNT) (w : world)
  : option (array A) * world :=
  let '(ok, w) := draw w in
  if ok
  then (Some (Array (next w) (replicate (Z.to_nat len) zero)),
        World (S (next w)) (oracle w) (heap w)
              ({[next w]} ∪ blocks w) (files w) (filters w))
  else (None, w).

Definition free {A} (a : array A) (w : world) : world :=
  World (next w) (oracle w) (heap w) (blocks w ∖ {[base a]}) (files w)
        (filters w).

Definition free_detect (detect : nat) (w : world) : world :=
  World (next w) (oracle w) (delete detect (heap w)) (blocks w) (files w)
        (filters w).

(** [fopen(ofile, "wb")] *)
Definition fopen (ofile : string) (w : world) : option FILE * world :=
  let '(ok, w) := draw w in
  if ok
  then (Some (next w),
        World (S (next w)) (oracle w) (heap w) (blocks w)
              (<[next w := ofile]> (files w)) (filters w))
  else (None, w).

Definition fclose (fp : FILE) (w : world) : world :=
  World (next w) (oracle w) (heap w) (blocks w) (delete fp (files w))
        (filters w).

(** [su_iir_bwlpf_init(&filt, order, fnor)]: the filter takes storage
    when it succeeds, and none when it fails. *)
Definition bwlpf_init (order : Z) (fnor : SUFLOAT) (w : world)
  : option su_iir_filt_t * world :=
  let '(ok, w) := draw w in
  if ok
  then (Some (su_iir_bwlpf_init order fnor),
        World (next w) (oracle w) (heap w) (blocks w) (files w)
              (S (filters w)))
  else (None, w).

(** [su_iir_filt_finalize(&filt)]: gives the storage back; nothing to do
    on a filter that is still zeroed. *)
Definition su_iir_filt_finalize (filt : option su_iir_filt_t) (w : world)
  : world :=
  match filt with
  | Some _ =>
      World (next w) (oracle w) (heap w) (blocks w) (files w)
            (Nat.pred (filters w))
  | None => w
  end.

(** [new->field = ...] *)
Definition assign (new : nat) (f : meteo_detect -> meteo_detect) (w : world)
  : world :=
  World (next w) (oracle w) (alter f new (heap w)) (blocks w) (files w)
        (filters w).

(** *** [meteo_detect_destroy] *)

Definition meteo_detect_destroy (detect : nat) (w : world) : world :=
  match heap w !! detect with
  | None => w
  | Some md =>
      let w := match ofp md with Some fp => fclose fp w | None => w end in
      let w := match powerbuf md with Some a => free a w | None => w end in
      let w := match delay_line md with Some a => free a w | None => w end in
      let w := su_iir_filt_finalize (lpf1 md) w in
      let w := su_iir_filt_finalize (lpf2 md) w in
      free_detect detect w
  end.

(** *** [meteo_detect_new] *)

(** [fs * MIN_CHIRP_DURATION], a product of doubles. *)
Definition chirp_samples (fs : SUFLOAT) : float :=
  D.mul (D.of_single fs) MIN_CHIRP_DURATION.

(** [new->fs = fs; new->alpha = 1 - SU_EXP(-1. / (fs * MIN_CHIRP_DURATION));
    su_ncqo_init(&new->lo, SU_ABS2NORM_FREQ(fs, fc));] *)
Definition set_rate (fs' fc : SUFLOAT) (md : meteo_detect) : meteo_detect :=
  {| fs := fs'; n := n md; lpf1 := lpf1 md; lpf2 := lpf2 md;
     lo := Some (su_ncqo_init (SU_ABS2NORM_FREQ fs' fc));
     alpha :=
       F.sub (F.of_Z 1)
             (SU_EXP (F.of_double (D.div (D.of_Z (-1)) (chirp_samples fs'))));
     n0 := n0 md; s0 := s0 md;
     powerbuf_len := powerbuf_len md; p := p md; powerbuf := powerbuf md;
     delay_line := delay_line md; energy_thres := energy_thres md;
     in_chirp := in_chirp md; chirp_len := chirp_len md;
     chirp_remaining := chirp_remaining md; prev := prev md; ofp := ofp md |}.

Definition set_lpf1 (filt : su_iir_filt_t) (md : meteo_detect) : meteo_detect :=
  {| fs := fs md; n := n md; lpf1 := Some filt; lpf2 := lpf2 md; lo := lo md;
     alpha := alpha md; n0 := n0 md; s0 := s0 md;
     powerbuf_len := powerbuf_len md; p := p md; powerbuf := powerbuf md;
     delay_line := delay_line md; energy_thres := energy_thres md;
     in_chirp := in_chirp md; chirp_len := chirp_len md;
     chirp_remaining := chirp_remaining md; prev := prev md; ofp := ofp md |}.

Definition set_lpf2 (filt : su_iir_filt_t) (md : meteo_detect) : meteo_detect :=
  {| fs := fs md; n := n md; lpf1 := lpf1 md; lpf2 := Some filt; lo := lo md;
     alpha := alpha md; n0 := n0 md; s0 := s0 md;
     powerbuf_len := powerbuf_len md; p := p md; powerbuf := powerbuf md;
     delay_line := delay_line md; energy_thres := energy_thres md;
     in_chirp := in_chirp md; chirp_len := chirp_len md;
     chirp_remaining := chirp_remaining md; prev := prev md; ofp := ofp md |}.

(** [SU_CEIL(fs * MIN_CHIRP_DURATION)] stored in a [SUSCOUNT]: the product
    goes to [ceilf] as a [SUFLOAT]. *)
Definition window_len (fs : SUFLOAT) : SUSCOUNT :=
  SUSCOUNT_of_float (F.ceil (F.of_double (chirp_samples fs))).

(** [POWER_THRESHOLD * len], a product of doubles stored in a [SUFLOAT]. *)
Definition threshold_of (len : SUSCOUNT) : SUFLOAT :=
  F.of_double (D.mul POWER_THRESHOLD (D.of_Z len)).

(** [new->powerbuf_len = SU_CEIL(fs * MIN_CHIRP_DURATION);
    new->energy_thres = POWER_THRESHOLD * new->powerbuf_len;] *)
Definition set_window (md : meteo_detect) : meteo_detect :=
  let len := window_len (fs md) in
  {| fs := fs md; n := n md; lpf1 := lpf1 md; lpf2 := lpf2 md; lo := lo md;
     alpha := alpha md; n0 := n0 md; s0 := s0 md;
     powerbuf_len := len; p := p md; powerbuf := powerbuf md;
     delay_line := delay_line md;
     energy_thres := threshold_of len;
     in_chirp := in_chirp md; chirp_len := chirp_len md;
     chirp_remaining := chirp_remaining md; prev := prev md; ofp := ofp md |}.

Definition set_powerbuf (a : array SUFLOAT) (md : meteo_detect) : meteo_detect :=
  {| fs := fs md; n := n md; lpf1 := lpf1 md; lpf2 := lpf2 md; lo := lo md;
     alpha := alpha md; n0 := n0 md; s0 := s0 md;
     powerbuf_len := powerbuf_len md; p := p md; powerbuf := Some a;
     delay_line := delay_line md; energy_thres := energy_thres md;
     in_chirp := in_chirp md; chirp_len := chirp_len md;
     chirp_remaining := chirp_remaining md; prev := prev md; ofp := ofp md |}.

Definition set_delay_line (a : array SUCOMPLEX) (md : meteo_detect)
  : meteo_detect :=
  {| fs := fs md; n := n md; lpf1 := lpf1 md; lpf2 := lpf2 md; lo := lo md;
     alpha := alpha md; n0 := n0 md; s0 := s0 md;
     powerbuf_len := powerbuf_len md; p := p md; powerbuf := powerbuf md;
     delay_line := Some a; energy_thres := energy_thres md;
     in_chirp := in_chirp md; chirp_len := chirp_len md;
     chirp_remaining := chirp_remaining md; prev := prev md; ofp := ofp md |}.

Definition set_ofp (fp : FILE) (md : meteo_detect) : meteo_detect :=
  {| fs := fs md; n := n md; lpf1 := lpf1 md; lpf2 := lpf2 md; lo := lo md;
     alpha := alpha md; n0 := n0 md; s0 := s0 md;
     powerbuf_len := powerbuf_len md; p := p md; powerbuf := powerbuf md;
     delay_line := delay_line md; energy_thres := energy_thres md;
     in_chirp := in_chirp md; chirp_len := chirp_len md;
     chirp_remaining := chirp_remaining md; prev := prev md; ofp := Some fp |}.

(** The length the buffers are allocated with, read back from the struct. *)
Definition window_of (new : nat) (w : world) : SUSCOUNT :=
  from_option powerbuf_len 0 (heap w !! new).

(** The label [fail]: [if (new != NULL) meteo_detect_destroy(new);
    return new;] *)
Definition fail (new : option nat) (w : world) : option nat * world :=
  match new with
  | Some detect => (new, meteo_detect_destroy detect w)
  | None => (new, w)
  end.

(** The pointer returned, [None] for NULL, and the world after the call. *)
Definition meteo_detect_new (fs fc : SUFLOAT) (ofile : string) (w : world)
  : option nat * world :=
  match calloc_detect w with
  | (None, w) => fail None w
  | (Some new, w) =>
    let w := assign new (set_rate fs fc) w in
    match bwlpf_init 5 (SU_ABS2NORM_FREQ fs LPF1_CUTOFF) w with
    | (None, w) => fail (Some new) w
    | (Some filt, w) =>
      let w := assign new (set_lpf1 filt) w in
      match bwlpf_init 4 (SU_ABS2NORM_FREQ fs LPF2_CUTOFF) w with
      | (None, w) => fail (Some new) w
      | (Some filt, w) =>
        let w := assign new (set_lpf2 filt) w in
        let w := assign new set_window w in
        match calloc F.zero (window_of new w) w with
        | (None, w) => fail (Some new) w
        | (Some a, w) =>
          let w := assign new (set_powerbuf a) w in
          match calloc Czero (window_of new w) w with
          | (None, w) => fail (Some new) w
          | (Some a, w) =>
            let w := assign new (set_delay_line a) w in
            match fopen ofile w with
            | (None, w) => fail (Some new) w
            | (Some fp, w) =>
              let w := assign new (set_ofp fp) w in
              (Some new, w)
            end
          end
        end
      end
    end
  end.
(** The struct as [meteo_detect_new] leaves it when every acquisition
    succeeded. *)
Definition initial (fs fc : SUFLOAT) (buf : array SUFLOAT)
  (line : array SUCOMPLEX) (fp : FILE) : meteo_detect :=
  set_ofp fp (set_delay_line line (set_powerbuf buf (set_window
    (set_lpf2 (su_iir_bwlpf_init 4 (SU_ABS2NORM_FREQ fs LPF2_CUTOFF))
      (set_lpf1 (su_iir_bwlpf_init 5 (SU_ABS2NORM_FREQ fs LPF1_CUTOFF))
        (set_rate fs fc zeroed)))))).

(** The invariant of the detector: the struct is complete, the tail is at
    most one window, and it is a full window during a chirp. *)
Definition steady (md : meteo_detect) : Prop :=
  ready md = true
  /\ 0 <= chirp_remaining md <= powerbuf_len md
  /\ (in_chirp md = true -> chirp_remaining md = powerbuf_len md).

(** The state of a detector that has heard nothing yet: both power
    estimates at [+0], idle, filters at rest ([quiet]), and an oscillator
    in one of the states it goes through ([lively]). *)
Definition silent (quiet : su_iir_filt_t -> Prop) (lively : su_ncqo_t -> Prop)
  (md : meteo_detect) : Prop :=
  steady md
  /\ n0 md = F.zero /\ s0 md = F.zero /\ in_chirp md = false
  /\ Ieee.is_finite (alpha md) = true
  /\ (exists f1 f2, lpf1 md = Some f1 /\ lpf2 md = Some f2
                    /\ quiet f1 /\ quiet f2)
  /\ exists osc, lo md = Some osc /\ lively osc.

(** Whether the sample a call wrote carries the flag 1.0. *)
Definition valid_data (call : meteo_detect * list event) : bool :=
  match written (snd call) with
  | [(_, out)] => Ieee.eqb (re out) F.one
  | _ => false
  end.

(** The phase that a call reads for its sample: the argument of the oldest
    entry of the delay line, at the index as the call leaves it. *)
Definition phase (md' : meteo_detect) : option SUFLOAT :=
  SU_C_ARG <$> (delay_line md' ≫= fun line => aget line (p md')).

(** Whether that phase is a number: neither a NaN nor an infinity. *)
Definition phase_finite (call : meteo_detect * list event) : bool :=
  from_option Ieee.is_finite false (phase (fst call)).

(** The time of a chirp in the words of the specification: the floor of
    [(n - chirp_len) / fs], over the integers and the exact value
    [m * 2^e] of the sample rate. *)
Definition seconds_as_specified (md : meteo_detect) : Z :=
  match fs md with
  | SpecFloat.S754_finite false m e =>
      if 0 <=? e
      then (n md - chirp_len md) / (Z.pos m * 2 ^ e)
      else ((n md - chirp_len md) * 2 ^ (- e)) / Z.pos m
  | _ => 0
  end.

(** The end of a chirp in the words of the specification: the call prints
    one line, with [chirp_len] and that time in hours, minutes and
    seconds. *)
Definition chirp_end_as_specified (md : meteo_detect) (x : SUCOMPLEX) : Prop :=
  forall md' evs,
    meteo_detect_feed md x = Some (md', evs) ->
    in_chirp md = true -> in_chirp md' = false ->
    let seconds := seconds_as_specified md in
    printed evs
    = [(chirp_len md, seconds / 3600, (seconds / 60) mod 60, seconds mod 60)].

(** The output sample in the words of the specification: the real part is
    1.0 when [chirp_remaining], as the call leaves it, is not 0 and 0.0
    when it is 0; the imaginary part is the phase in the first case and
    0.0 in the second. *)
Definition output_as_specified (md : meteo_detect) (x : SUCOMPLEX) : Prop :=
  forall md' evs,
    meteo_detect_feed md x = Some (md', evs) ->
    exists fp out,
      written evs = [(fp, out)]
      /\ re out = (if chirp_remaining md' =? 0 then F.zero else F.one)
      /\ Some (im out)
         = (if chirp_remaining md' =? 0 then Some F.zero else phase md').

(** The flag during a chirp in the words of the specification: on every
    call of the run that leaves the detector in a chirp, the tail is the
    window and the sample written has real part 1.0. *)
Definition flag_as_specified (md : meteo_detect) (xs : list SUCOMPLEX) : Prop :=
  forall calls k call,
    run md xs = Some calls -> calls !! k = Some call ->
    in_chirp (fst call) = true ->
    chirp_remaining (fst call) = powerbuf_len md
    /\ exists fp out, written (snd call) = [(fp, out)] /\ re out = F.one.

(** The tail in the words of the specification: after a chirp ends, and
    if no chirp starts again, [chirp_remaining] goes from [powerbuf_len] to
    0 over exactly the next [powerbuf_len] calls, and the flag is 1.0 on
    exactly that many calls.  [md] is a detector in a chirp and [xs] the
    samples of the calls that follow, the first of which ends the chirp. *)
Definition tail_as_specified (md : meteo_detect) (xs : list SUCOMPLEX) : Prop :=
  steady md -> in_chirp md = true ->
  Z.of_nat (length xs) = powerbuf_len md ->
  forall calls,
    run md xs = Some calls ->
    forallb (fun call => negb (in_chirp (fst call))) calls = true ->
    chirp_remaining (final md calls) = 0
    /\ Z.of_nat (length (filter (fun call => valid_data call = true) calls))
       = powerbuf_len md.

(** A detector that [meteo_detect_new] returned and that is allocated: the
    pointer is not NULL and the struct it points to is [md]. *)
Definition constructed (fs fc : SUFLOAT) (ofile : string) (w : world)
  (md : meteo_detect) : Prop :=
  exists new w',
    meteo_detect_new fs fc ofile w = (Some new, w') /\ heap w' !! new = Some md.

(** Addresses and handles not yet given out are not in use. *)
Definition fresh (w : world) : Prop :=
  forall a, (next w <= a)%nat ->
    heap w !! a = None /\ (a ∉ blocks w) /\ files w !! a = None.

(** One of the six acquisitions of [meteo_detect_new] fails: the struct,
    the two filters, the two buffers, the output file, in this order. *)
Definition acquisition_fails (w : world) : Prop :=
  exists k, (k < 6)%nat /\ oracle w !! k = Some false.
End Detector.


(** ** The program

    [main] of [src/main.c]: the detector at 8000 samples per second, with
    the carrier at 1000 Hz, over the samples of one input file. *)

(** Modelled from the spec: the macro [EXIT_FAILURE] of <stdlib.h> is not
    under src/; the exit code of a failure is 1. *)
Definition EXIT_FAILURE : Z := 1.

(** What [main] itself writes on the error stream with [fprintf]: the
    usage line, or the line of an input file that cannot be opened (the
    program and the file it names). *)
Inductive complaint :=
| Usage (prog : string)
| CannotOpen (prog file : string).

(** How the process ends: [main] returns, [exit] is called, or the
    program has used a struct that is not allocated. *)
Inductive ending :=
| Returned (status : Z)
| Exited (status : Z)
| Undefined.

Section Program.
Context `{Sigutils}.

(** What [meteo_detect_destroy] releases: the file, the addresses of the
    two buffers, and whether each filter holds storage. *)
Definition footprint (md : meteo_detect)
  : option FILE * option nat * option nat * bool * bool :=
  (ofp md, base <$> powerbuf md, base <$> delay_line md,
   bool_decide (is_Some (lpf1 md)), bool_decide (is_Some (lpf2 md))).

(** [*md = detect]: the struct behind the pointer after a call. *)
Definition store (md : nat) (detect : meteo_detect) (w : world) : world :=
  World (next w) (oracle w) (<[md := detect]> (heap w)) (blocks w) (files w)
        (filters w).

(** [while (fread(&sample, sizeof(sample), 1, fp) == 1)
      meteo_detect_feed(md, sample);]
    over the complete samples of the file.  [None] when the struct behind
    [md] is not allocated, or when a call has no result. *)
Fixpoint feed_loop (md : nat) (samples : list SUCOMPLEX) (w : world)
  : option (world * list event) :=
  match samples with
  | [] => Some (w, [])
  | sample :: samples =>
      detect ← heap w !! md;
      step ← meteo_detect_feed detect sample;
      rest ← feed_loop md samples (store md (fst step) w);
      Some (fst rest, snd step ++ snd rest)
  end.

(** [main].  [argv] holds the [argc] arguments and [disk] gives, for a
    path, the complete samples that the reads of the file deliver ([fread]
    stops at the first incomplete one); the name of the program is the
    empty string when [argv] holds nothing.  The result is the ending, the
    world, the lines that [main] itself writes on the error stream with
    [fprintf], and what the detector wrote.  What [SU_TRYCATCH] reports
    through [SU_ERROR] when the construction fails goes to the log of
    sigutils, which is not part of the result.  After [Undefined] the
    other components only tell what was done before the struct that is
    not allocated was used. *)
Definition main (argv : list string) (disk : string -> list SUCOMPLEX)
  (w : world) : ending * world * list complaint * list event :=
  match argv with
  | [prog; file] =>
      match fopen file w with
      | (None, w) => (Exited EXIT_FAILURE, w, [CannotOpen prog file], [])
      | (Some fp, w) =>
          match meteo_detect_new (F.of_Z 8000) (F.of_Z 1000) "detect.raw" w with
          | (None, w) => (Exited EXIT_FAILURE, w, [], [])
          | (Some md, w) =>
              match feed_loop md (disk file) w with
              | None => (Undefined, w, [], [])
              | Some (w, evs) =>
                  match heap w !! md with
                  | None => (Undefined, w, [], evs)
                  | Some _ =>
                      (Returned 0, fclose fp (meteo_detect_destroy md w), [],
                       evs)
                  end
              end
          end
      end
  | _ => (Exited EXIT_FAILURE, w, [Usage (hd ""%string argv)], [])
  end.
End Program.

(** The chirps that end in a sequence of [in_chirp] flags: the number of
    steps from [true] to [false], [chirp] being the flag before the
    first. *)
Fixpoint chirp_ends (chirp : bool) (flags : list bool) : nat :=
  match flags with
  | [] => 0
  | flag :: flags =>
      (if chirp && negb flag then 1 else 0) + chirp_ends flag flags
  end.

Section Outcomes.
Context `{Sigutils}.

(** The world after a construction in which every acquisition succeeds:
    the struct at the first free address, then the two buffers and the
    file, and two filters with storage. *)
Definition built (rate fc : SUFLOAT) (ofile : string) (w : world) : world :=
  let new := next w in
  let len := Z.to_nat (window_len rate) in
  World (4 + new) (drop 6 (oracle w))
        (<[new := initial rate fc (Array (1 + new) (replicate len F.zero))
                    (Array (2 + new) (replicate len Czero)) (3 + new)%nat]>
           (heap w))
        ({[(2 + new)%nat]} ∪ ({[(1 + new)%nat]} ∪ blocks w))
        (<[(3 + new)%nat := ofile]> (files w))
        (2 + filters w).
End Outcomes.

(** ** Collaborators to run the detector with

    A filter with finitely many real taps (a pass-through is the tap list
    [1], a delay of one sample is [0; 1]), an oscillator at frequency 0,
    the first two terms of the exponential series, and the imaginary part
    for the argument of a sample. *)
Module Bench.
Record fir := Fir { taps : list SUFLOAT; past : list SUCOMPLEX }.

Definition scale (t : SUFLOAT) (z : SUCOMPLEX) : SUCOMPLEX :=
  Complex (F.mul t (re z)) (F.mul t (im z)).

Definition Cadd (z w : SUCOMPLEX) : SUCOMPLEX :=
  Complex (F.add (re z) (re w)) (F.add (im z) (im w)).

Definition fir_feed (f : fir) (x : SUCOMPLEX) : SUCOMPLEX * fir :=
  let recent := take (length (taps f)) (x :: past f) in
  (foldl Cadd Czero (zip_with scale (taps f) recent), Fir (taps f) recent).

(** A filter at rest: finite taps, and only silence in its memory. *)
Definition rest (f : fir) : Prop :=
  Forall (fun t => Ieee.is_finite t = true) (taps f)
  /\ Forall (fun z => Cis_zero z = true) (past f).

(** The filter of order 5 gets the taps [wide], the other one [narrow]. *)
Definition sigutils (wide narrow : list SUFLOAT) : Sigutils :=
  {| su_iir_filt_t := fir;
     su_ncqo_t := unit;
     su_iir_bwlpf_init order fnor := Fir (if order =? 5 then wide else narrow) [];
     su_iir_filt_feed := fir_feed;
     su_ncqo_init fnor := tt;
     su_ncqo_read osc := (Complex F.one F.zero, osc);
     SU_ABS2NORM_FREQ fs freq := F.div (F.mul (F.of_Z 2) (F.of_double freq)) fs;
     SU_EXP x := F.add F.one x;
     SU_C_ARG z := im z |}.

(** Both filters let every sample through. *)
Definition allpass : Sigutils := sigutils [F.one] [F.one].

(** The narrow filter gives the sample of the call before. *)
Definition delayed : Sigutils := sigutils [F.one] [F.zero; F.one].

(** Nothing allocated, no file open, no call fails. *)
Definition boot `{Sigutils} : world := World 0 [] ∅ ∅ ∅ 0.

(** The detector behind the pointer [meteo_detect_new] returns. *)
Definition detector `{Sigutils} (r : option nat * world) : meteo_detect :=
  default zeroed (fst r ≫= fun new => heap (snd r) !! new).

(** A real sample. *)
Definition sample (k : Z) : SUCOMPLEX := Complex (F.of_Z k) F.zero.

(** A detector for 30 samples per second: a window of 3 samples and a
    threshold of 1.0. *)
Definition fresh_detector `{Sigutils} : meteo_detect :=
  detector (meteo_detect_new (F.of_Z 30) F.zero "detect.raw" boot).

(** The state a run leaves. *)
Definition state_after `{Sigutils} (md : meteo_detect) (xs : list SUCOMPLEX)
  : meteo_detect :=
  final md (default [] (run md xs)).

(** The result of one call. *)
Definition call `{Sigutils} (md : meteo_detect) (x : SUCOMPLEX)
  : meteo_detect * list event :=
  default (md, []) (meteo_detect_feed md x).

(** The integral a call computes. *)
Definition integral `{Sigutils} (md : meteo_detect) (x : SUCOMPLEX) : SUFLOAT :=
  default F.nan (m_integral <$> measure md x).

(** With the delayed narrow filter, three samples of amplitude 1 start a
    chirp on the third call; the fourth call continues it. *)
Definition chirping : meteo_detect :=
  @state_after delayed (@fresh_detector delayed) (map sample [1; 1; 1; 10]).

(** Samples that grow tenfold each: the narrow filter lags, the ratio
    falls, and the chirp ends on the first of them. *)
Definition fading : list SUCOMPLEX := map sample [100; 1000; 10000].

(** The narrow filter gives the difference between the sample and the one
    before. *)
Definition differencing : Sigutils :=
  sigutils [F.one] [F.one; SpecFloat.SFopp F.one].

(** With the differencing filter a first sample of amplitude 1 starts a
    chirp on the first call, and a constant input ends it on the fourth:
    [early] is the state after three samples, in a chirp of length 5 at
    the sample counter 3. *)
Definition early : meteo_detect :=
  @state_after differencing (@fresh_detector differencing)
    (map sample [1; 1; 1]).

(** The state [md] with the sample counter at [count]. *)
Definition at_sample `{Sigutils} (count : SUSCOUNT) (md : meteo_detect)
  : meteo_detect :=
  {| fs := fs md; n := count; lpf1 := lpf1 md; lpf2 := lpf2 md; lo := lo md;
     alpha := alpha md; n0 := n0 md; s0 := s0 md;
     powerbuf_len := powerbuf_len md; p := p md; powerbuf := powerbuf md;
     delay_line := delay_line md; energy_thres := energy_thres md;
     in_chirp := in_chirp md; chirp_len := chirp_len md;
     chirp_remaining := chirp_remaining md; prev := prev md; ofp := ofp md |}.

(** The state of [early] much later in the stream: the chirp of length 5
    ends at the sample counter 16777264, above 2^24. *)
Definition late : meteo_detect := @at_sample differencing 16777264 early.

(** A pass-through detector in a chirp, with its power buffer set to
    zeros: the ratio 1.0 of the next sample makes the integral 1.0, the
    threshold. *)
Definition tied : meteo_detect :=
  @set_powerbuf allpass (Array 1 (replicate 3 F.zero))
    (@state_after allpass (@fresh_detector allpass) [sample 1]).

(** A sample that is not a number. *)
Definition garbage : SUCOMPLEX := Complex F.nan F.zero.

(** A pass-through detector that has read 1, not-a-number, 1: it is in a
    chirp, and the entry of the delay line that the next call reads is
    not a number. *)
Definition poisoned : meteo_detect :=
  @state_after allpass (@fresh_detector allpass) [sample 1; garbage; sample 1].
End Bench.

(** * Properties *)

(** ** Tactics for the calls of the C library *)

(** One acquisition of [meteo_detect_new]: the next outcome of the oracle
    is absent, a success, or a failure. *)
Ltac world_step :=
  unfold calloc_detect, calloc, fopen, bwlpf_init, draw, assign, fail;
  cbn [oracle next heap blocks files filters fst snd].

Ltac draw_case :=
  world_step;
  lazymatch goal with
  | |- context [match ?o with [] => _ | _ :: _ => _ end] =>
      let ok := fresh "ok" in
      destruct o as [|ok ?]; [|destruct ok]
  end;
  world_step.

(** The struct under construction is the only thing stored at its
    address. *)
Ltac heap_norm :=
  unfold window_of; cbn [heap];
  rewrite ?alter_insert_eq, ?lookup_insert_eq; cbn [from_option].

(** [meteo_detect_destroy] on the struct under construction. *)
Ltac destroy_step :=
  unfold meteo_detect_destroy; heap_norm;
  cbn [ofp powerbuf delay_line lpf1 lpf2 set_rate set_lpf1 set_lpf2
       set_window set_powerbuf set_delay_line set_ofp zeroed];
  unfold fclose, free, free_detect, su_iir_filt_finalize;
  cbn [oracle next heap blocks files filters base Nat.pred].

Section Properties.
Context `{Sigutils}.

#[local] Arguments power : simpl never.
#[local] Arguments smooth : simpl never.
#[local] Arguments Cmul : simpl never.
#[local] Arguments SU_C_CONJ : simpl never.
#[local] Arguments F.add : simpl never.
#[local] Arguments F.sub : simpl never.
#[local] Arguments F.mul : simpl never.
#[local] Arguments F.div : simpl never.
#[local] Arguments F.of_Z : simpl never.
#[local] Arguments aset : simpl never.
#[local] Arguments aget : simpl never.
#[local] Arguments integrate : simpl never.
#[local] Arguments encode : simpl never.
#[local] Arguments chirp_update : simpl never.
#[local] Arguments wrap : simpl never.

(** ** The shape of a call *)

(** Case analysis on the first step of a computation in the option
    monad that has to succeed. *)
Ltac open_bind x Hx :=
  lazymatch goal with
  | |- mbind _ ?o = _ -> _ =>
      destruct o as [x|] eqn:Hx; [simpl | simpl; discriminate]
  end.

(** What a successful call did, in terms of its two halves. *)
Lemma feed_inv md x md' evs :
  meteo_detect_feed md x = Some (md', evs) ->
  exists m fp out note,
    measure md x = Some m /\ ofp md = Some fp
    /\ chirp_update md (m_integral m)
       = (in_chirp md', chirp_len md', chirp_remaining md', note)
    /\ encode (negb (chirp_remaining md' =? 0)) (m_delay_line m) (m_p m)
       = Some out
    /\ evs = note ++ [Fwrite fp out]
    /\ md' = {| fs := fs md; n := wrap (n md + 1);
                lpf1 := Some (m_lpf1 m); lpf2 := Some (m_lpf2 m);
                lo := Some (m_lo m); alpha := alpha md;
                n0 := m_n0 m; s0 := m_s0 m;
                powerbuf_len := powerbuf_len md; p := m_p m;
                powerbuf := Some (m_powerbuf m);
                delay_line := Some (m_delay_line m);
                energy_thres := energy_thres md;
                in_chirp := in_chirp md'; chirp_len := chirp_len md';
                chirp_remaining := chirp_remaining md';
                prev := m_y m; ofp := Some fp |}.
Proof.
  unfold meteo_detect_feed. intros Hfeed.
  destruct (measure md x) as [m|]; [|discriminate].
  destruct (ofp md) as [fp|]; [|discriminate].
  simpl in Hfeed.
  destruct (chirp_update md (m_integral m))
    as [[[chirp len] remaining] note] eqn:Hupd.
  destruct (encode _ _ _) as [out|] eqn:Hout; [|discriminate].
  simpl in Hfeed. injection Hfeed as <- <-. simpl.
  exists m, fp, out, note. repeat split; try reflexivity; assumption.
Qed.

(** What the first half computed. *)
Lemma measure_inv md x m :
  measure md x = Some m ->
  exists osc f1 f2 buf line,
    lo md = Some osc /\ lpf1 md = Some f1 /\ lpf2 md = Some f2
    /\ powerbuf md = Some buf /\ delay_line md = Some line
    /\ let carrier := fst (su_ncqo_read osc) in
       let y1 := fst (su_iir_filt_feed f1 (Cmul x (SU_C_CONJ carrier))) in
       m_lo m = snd (su_ncqo_read osc)
       /\ m_lpf1 m = snd (su_iir_filt_feed f1 (Cmul x (SU_C_CONJ carrier)))
       /\ m_y m = fst (su_iir_filt_feed f2 y1)
       /\ m_lpf2 m = snd (su_iir_filt_feed f2 y1)
       /\ m_n0 m = smooth (alpha md) (n0 md) (power y1)
       /\ m_s0 m = smooth (alpha md) (s0 md) (power (m_y m))
       /\ m_ratio m = F.div (m_s0 m) (m_n0 m)
       /\ aset buf (p md) (m_ratio m) = Some (m_powerbuf m)
       /\ aset line (p md) (Cmul (m_y m) (SU_C_CONJ (prev md)))
          = Some (m_delay_line m)
       /\ m_p m = (if wrap (p md + 1) =? powerbuf_len md then 0
                   else wrap (p md + 1))
       /\ integrate (m_powerbuf m) (powerbuf_len md) = Some (m_integral m).
Proof.
  unfold measure.
  open_bind osc Hosc. open_bind f1 Hf1. open_bind f2 Hf2.
  open_bind buf Hbuf. open_bind line Hline.
  destruct (su_ncqo_read osc) as [carrier osc'] eqn:Hread.
  destruct (su_iir_filt_feed f1 _) as [y1 f1'] eqn:Hfeed1.
  destruct (su_iir_filt_feed f2 y1) as [y2 f2'] eqn:Hfeed2.
  simpl.
  open_bind buf' Hbuf'. open_bind line' Hline'. open_bind integral Hint.
  intros [= <-].
  exists osc, f1, f2, buf, line.
  rewrite Hread. simpl. rewrite Hfeed1. simpl. rewrite Hfeed2. simpl.
  repeat split; try reflexivity; assumption.
Qed.

Lemma aset_inv {A} (a a' : array A) i v :
  aset a i v = Some a' ->
  (Z.to_nat i < length (cells a))%nat
  /\ base a' = base a
  /\ cells a' = <[Z.to_nat i := v]> (cells a).
Proof.
  unfold aset. case_decide; [|discriminate].
  intros [= <-]. auto.
Qed.

Lemma aset_length {A} (a a' : array A) i v :
  aset a i v = Some a' -> length (cells a') = length (cells a).
Proof.
  intros (_ & _ & ->)%aset_inv. apply length_insert.
Qed.

Lemma aset_Some {A} (a : array A) i v :
  (Z.to_nat i < length (cells a))%nat -> is_Some (aset a i v).
Proof. unfold aset. intros Hi. rewrite decide_True by done. eauto. Qed.

Lemma aget_Some {A} (a : array A) i :
  (Z.to_nat i < length (cells a))%nat -> is_Some (aget a i).
Proof. apply lookup_lt_is_Some_2. Qed.

(** The loop of the integral reads the cells [0 .. len-1]: it goes
    through when the block has that many. *)
Lemma integrate_from buf (acc : SUFLOAT) (start count : nat) :
  (start + count <= length (cells buf))%nat ->
  is_Some (foldl (fun acc i => a ← acc; v ← aget buf (Z.of_nat i);
                               Some (F.add a v))
                 (Some acc) (seq start count)).
Proof.
  revert acc start. induction count as [|count IH]; intros acc start Hlen.
  - cbn. eauto.
  - cbn. unfold aget at 2. rewrite Nat2Z.id.
    destruct (lookup_lt_is_Some_2 (cells buf) start) as [v ->]; [lia|].
    cbn. apply IH. lia.
Qed.

Lemma integrate_Some buf len :
  len < 2 ^ UINT_bits ->
  (Z.to_nat len <= length (cells buf))%nat -> is_Some (integrate buf len).
Proof.
  intros Hfits Hlen. unfold integrate.
  destruct (Z.ltb_spec len (2 ^ UINT_bits)); [|lia].
  apply integrate_from. exact Hlen.
Qed.

Lemma wrap_small z : 0 <= z < 2 ^ SUSCOUNT_bits -> wrap z = z.
Proof. intros Hz. unfold wrap. apply Z.mod_small, Hz. Qed.

Lemma wrap_range z : 0 <= wrap z < 2 ^ SUSCOUNT_bits.
Proof. unfold wrap. apply Z.mod_pos_bound. reflexivity. Qed.

(** ** A complete detector accepts every sample *)

Lemma ready_iff md :
  ready md = true <->
  is_Some (lo md) /\ is_Some (lpf1 md) /\ is_Some (lpf2 md)
  /\ is_Some (ofp md)
  /\ (exists buf, powerbuf md = Some buf
                  /\ Z.of_nat (length (cells buf)) = powerbuf_len md)
  /\ (exists line, delay_line md = Some line
                   /\ Z.of_nat (length (cells line)) = powerbuf_len md)
  /\ 0 <= p md < powerbuf_len md
  /\ powerbuf_len md < 2 ^ UINT_bits.
Proof.
  unfold ready. rewrite !andb_true_iff, !bool_decide_eq_true.
  rewrite Z.leb_le, !Z.ltb_lt.
  destruct (powerbuf md) as [buf|], (delay_line md) as [line|]; simpl;
    rewrite ?Z.eqb_eq; split.
  all: try (intros ((((((((?&?)&?)&?)&?)&?)&?)&?)&?); try discriminate).
  all: try (intros (?&?&?&?&(?&?&?)&(?&?&?)&?&?); try discriminate).
  - repeat split; eauto; lia.
  - repeat split; try done; try lia; congruence.
Qed.

(** The index after a call: one further, back to 0 at the end of the
    buffers. *)
Lemma next_index (len i : SUSCOUNT) :
  0 <= i < len -> len < 2 ^ SUSCOUNT_bits ->
  (if wrap (i + 1) =? len then 0 else wrap (i + 1)) = (i + 1) mod len
  /\ 0 <= (i + 1) mod len < len.
Proof.
  intros Hi Hlen. rewrite wrap_small by lia.
  split; [|apply Z.mod_pos_bound; lia].
  destruct (Z.eqb_spec (i + 1) len) as [->|Hne].
  - rewrite Z.mod_same by lia. reflexivity.
  - rewrite Z.mod_small by lia. reflexivity.
Qed.

Lemma measure_ready md x :
  ready md = true ->
  exists m,
    measure md x = Some m
    /\ Z.of_nat (length (cells (m_powerbuf m))) = powerbuf_len md
    /\ Z.of_nat (length (cells (m_delay_line m))) = powerbuf_len md
    /\ m_p m = (p md + 1) mod powerbuf_len md
    /\ 0 <= m_p m < powerbuf_len md.
Proof.
  intros ([osc Hosc] & [f1 Hf1] & [f2 Hf2] & _ & (buf & Hbuf & Hblen)
          & (line & Hline & Hllen) & Hp & Hlen)%ready_iff.
  unfold measure. rewrite Hosc, Hf1, Hf2, Hbuf, Hline. simpl.
  destruct (su_ncqo_read osc) as [carrier osc'].
  destruct (su_iir_filt_feed f1 _) as [y1 f1'].
  destruct (su_iir_filt_feed f2 y1) as [y2 f2'].
  simpl.
  destruct (aset_Some buf (p md)
              (F.div (smooth (alpha md) (s0 md) (power y2))
                     (smooth (alpha md) (n0 md) (power y1))))
    as [buf' Hbuf']; [lia|].
  destruct (aset_Some line (p md) (Cmul y2 (SU_C_CONJ (prev md))))
    as [line' Hline']; [lia|].
  destruct (integrate_Some buf' (powerbuf_len md) Hlen) as [integral Hint].
  { rewrite (aset_length _ _ _ _ Hbuf'). lia. }
  assert (powerbuf_len md < 2 ^ SUSCOUNT_bits) as Hlen64
      by (unfold UINT_bits, SUSCOUNT_bits in *; lia).
  pose proof (next_index (powerbuf_len md) (p md) Hp Hlen64) as [Hnext Hrange].
  eexists. split.
  - rewrite Hbuf'. simpl. rewrite Hline'. simpl. rewrite Hint. reflexivity.
  - simpl. rewrite (aset_length _ _ _ _ Hbuf'), (aset_length _ _ _ _ Hline').
    rewrite Hnext. auto.
Qed.

Lemma encode_Some valid_data line i :
  (Z.to_nat i < length (cells line))%nat -> is_Some (encode valid_data line i).
Proof.
  intros Hi. unfold encode. destruct valid_data; [|eauto].
  destruct (aget_Some line i Hi) as [oldest ->]. simpl. eauto.
Qed.

(** [feed] has no failure of its own: on a complete detector every call
    returns, and leaves the detector complete. *)
Lemma feed_ready md x :
  ready md = true ->
  exists md' evs,
    meteo_detect_feed md x = Some (md', evs) /\ ready md' = true.
Proof.
  intros Hready.
  destruct (measure_ready md x Hready) as (m & Hm & Hblen & Hllen & Hp & Hrange).
  pose proof Hready as (_ & _ & _ & [fp Hfp] & _ & _ & _ & Hlen)%ready_iff.
  unfold meteo_detect_feed. rewrite Hm, Hfp. simpl.
  destruct (chirp_update md (m_integral m)) as [[[chirp len] remaining] note].
  destruct (encode_Some (negb (remaining =? 0)) (m_delay_line m) (m_p m))
    as [out Hout]; [lia|].
  rewrite Hout. simpl. do 2 eexists. split; [reflexivity|].
  apply ready_iff. simpl. repeat split; eauto; lia.
Qed.

(** A run over a complete detector returns, with one entry for each
    sample, and every state on the way is complete. *)
Lemma run_ready xs : forall md,
  ready md = true ->
  exists calls,
    run md xs = Some calls /\ length calls = length xs
    /\ Forall (fun call => ready (fst call) = true) calls.
Proof.
  induction xs as [|x xs IH]; intros md Hready.
  - exists []. simpl. auto.
  - destruct (feed_ready md x Hready) as (md' & evs & Hfeed & Hready').
    destruct (IH md' Hready') as (calls & Hrun & Hlen & Hall).
    exists ((md', evs) :: calls). simpl. rewrite Hfeed. simpl.
    rewrite Hrun. simpl. repeat split; [congruence|].
    constructor; assumption.
Qed.

(** ** The two comparisons with the threshold *)

Lemma SFcompare_Eq_sym x y :
  SpecFloat.SFcompare x y = Some Eq -> SpecFloat.SFcompare y x = Some Eq.
Proof.
  destruct x as [sx|sx| |sx mx ex], y as [sy|sy| |sy my ey]; simpl;
    try discriminate; try reflexivity;
    try (destruct sx; try discriminate; destruct sy; try discriminate;
         reflexivity);
    try (destruct sx; discriminate); try (destruct sy; discriminate).
  destruct sx, sy; try discriminate;
    destruct (Z.compare_spec ex ey) as [->| |]; try discriminate;
    rewrite Z.compare_refl;
    destruct (Pos.compare_cont Eq mx my) eqn:Hm; try discriminate;
    apply Pos.compare_eq in Hm; subst my;
    rewrite Pos.compare_cont_refl; reflexivity.
Qed.

(** Equal to the threshold is not below it, and is at or above it. *)
Lemma eqb_ltb_geb x y :
  Ieee.eqb x y = true -> Ieee.ltb x y = false /\ Ieee.geb x y = true.
Proof.
  unfold Ieee.eqb, Ieee.ltb, Ieee.geb, SpecFloat.SFeqb, SpecFloat.SFltb,
    SpecFloat.SFleb.
  destruct (SpecFloat.SFcompare x y) as [[]|] eqn:Hxy; try discriminate.
  intros _. rewrite (SFcompare_Eq_sym x y Hxy). auto.
Qed.

(** A NaN is neither below the threshold nor at or above it. *)
Lemma nan_ltb_geb y : Ieee.ltb F.nan y = false /\ Ieee.geb F.nan y = false.
Proof. destruct y; auto. Qed.

(** ** The chirp state machine *)

Lemma chirp_update_cases md integral :
  chirp_update md integral =
  let drained :=
    if 0 <? chirp_remaining md then chirp_remaining md - 1
    else chirp_remaining md in
  if in_chirp md then
    if Ieee.ltb integral (energy_thres md)
    then (false, chirp_len md, drained, [notice md])
    else (true, wrap (chirp_len md + 1), chirp_remaining md, [])
  else
    if Ieee.geb integral (energy_thres md)
    then (true, powerbuf_len md, powerbuf_len md, [])
    else (false, chirp_len md, drained, []).
Proof.
  unfold chirp_update.
  destruct (in_chirp md);
    [destruct (Ieee.ltb integral (energy_thres md))
    |destruct (Ieee.geb integral (energy_thres md))]; reflexivity.
Qed.

(** What a successful call did to the chirp state, given the integral it
    computed. *)
Lemma feed_chirp md x md' evs integral :
  meteo_detect_feed md x = Some (md', evs) ->
  m_integral <$> measure md x = Some integral ->
  exists fp out,
    chirp_update md integral
    = (in_chirp md', chirp_len md', chirp_remaining md', removelast evs)
    /\ evs = removelast evs ++ [Fwrite fp out]
    /\ powerbuf_len md' = powerbuf_len md
    /\ energy_thres md' = energy_thres md.
Proof.
  intros (m & fp & out & note & Hm & _ & Hupd & _ & -> & ->)%feed_inv.
  rewrite Hm. intros [= <-]. simpl.
  rewrite removelast_last. exists fp, out. auto.
Qed.

(** C3.  Every call compares the integral with the threshold by [>=] to
    enter a chirp and by [<] to leave it: the detector is in a chirp after
    the call when it was idle and the integral is at or above the
    threshold, or when it was in a chirp and the integral is not below the
    threshold.  An integral equal to the threshold therefore starts a chirp
    from idle and continues one that is going on. *)
Theorem threshold_tie_favours_chirp md x integral :
  ready md = true ->
  m_integral <$> measure md x = Some integral ->
  exists md' evs,
    meteo_detect_feed md x = Some (md', evs)
    /\ in_chirp md'
       = (if in_chirp md then negb (Ieee.ltb integral (energy_thres md))
          else Ieee.geb integral (energy_thres md))
    /\ (Ieee.eqb integral (energy_thres md) = true -> in_chirp md' = true).
Proof.
  intros Hready Hint.
  destruct (feed_ready md x Hready) as (md' & evs & Hfeed & _).
  destruct (feed_chirp _ _ _ _ _ Hfeed Hint) as (fp & out & Hupd & _).
  rewrite chirp_update_cases in Hupd. simpl in Hupd.
  exists md', evs. split; [exact Hfeed|].
  assert (in_chirp md'
          = (if in_chirp md then negb (Ieee.ltb integral (energy_thres md))
             else Ieee.geb integral (energy_thres md))) as Hnext.
  { destruct (in_chirp md);
      [destruct (Ieee.ltb integral (energy_thres md))
      |destruct (Ieee.geb integral (energy_thres md))];
      injection Hupd as <- _ _ _; reflexivity. }
  split; [exact Hnext|].
  intros Heq. destruct (eqb_ltb_geb _ _ Heq) as [Hlt Hge].
  rewrite Hnext, Hlt, Hge. destruct (in_chirp md); reflexivity.
Qed.

(** C4.  A call that finds the detector idle starts a chirp exactly when
    the integral is at or above the threshold, and then sets both
    [chirp_len] and [chirp_remaining] to [powerbuf_len]. *)
Theorem idle_to_chirp_sets_window md x md' evs integral :
  meteo_detect_feed md x = Some (md', evs) ->
  m_integral <$> measure md x = Some integral ->
  in_chirp md = false ->
  (in_chirp md' = true <-> Ieee.geb integral (energy_thres md) = true)
  /\ (in_chirp md' = true ->
      chirp_len md' = powerbuf_len md
      /\ chirp_remaining md' = powerbuf_len md).
Proof.
  intros Hfeed Hint Hidle.
  destruct (feed_chirp _ _ _ _ _ Hfeed Hint) as (fp & out & Hupd & _).
  rewrite chirp_update_cases, Hidle in Hupd. simpl in Hupd.
  destruct (Ieee.geb integral (energy_thres md));
    injection Hupd as <- <- <- _.
  - tauto.
  - split; [split|]; discriminate.
Qed.

(** C5, as the code has it.  A call that finds the detector in a chirp
    ends the chirp exactly when the integral is below the threshold.  It
    then prints one line, which gives [chirp_len], and leaves [chirp_len]
    as it was.  When [chirp_len] is not above the sample counter [n], the
    time of the line is the hours, minutes and seconds of
    [floor ((n - chirp_len) / fs)] in single precision: the difference is
    converted to [SUFLOAT], and the quotient is a [SUFLOAT]. *)
Theorem chirp_end_notice md x md' evs integral :
  meteo_detect_feed md x = Some (md', evs) ->
  m_integral <$> measure md x = Some integral ->
  in_chirp md = true ->
  (in_chirp md' = false <-> Ieee.ltb integral (energy_thres md) = true)
  /\ (in_chirp md' = false ->
      chirp_len md' = chirp_len md
      /\ exists hours minutes seconds,
          printed evs = [(chirp_len md, hours, minutes, seconds)]
          /\ (0 <= chirp_len md <= n md -> n md < 2 ^ SUSCOUNT_bits ->
              let time :=
                SUSCOUNT_of_float
                  (F.floor (F.div (F.of_Z (n md - chirp_len md)) (fs md))) in
              (hours, minutes, seconds)
              = (time / 3600, (time / 60) mod 60, time mod 60)))
  /\ (in_chirp md' = true ->
      printed evs = [] /\ chirp_len md' = wrap (chirp_len md + 1)).
Proof.
  intros Hfeed Hint Hchirp.
  destruct (feed_chirp _ _ _ _ _ Hfeed Hint) as (fp & out & Hupd & Hevs & _).
  rewrite chirp_update_cases, Hchirp in Hupd. simpl in Hupd.
  rewrite Hevs. unfold printed. rewrite omap_app. simpl. rewrite app_nil_r.
  destruct (Ieee.ltb integral (energy_thres md));
    injection Hupd as <- <- _ <-; simpl.
  - split; [tauto|]. split; [|discriminate]. intros _.
    split; [reflexivity|]. do 3 eexists. split; [reflexivity|].
    intros Hlen Hn. unfold seconds_of.
    rewrite wrap_small by lia. reflexivity.
  - split; [split; discriminate|]. split; [discriminate|auto].
Qed.
(** The time of a chirp of 600 samples that ends at sample 29804000 of a
    stream of 8000 samples per second: 01:02:05. *)
Example notice_time_after_an_hour :
  let seconds :=
    SUSCOUNT_of_float
      (F.floor (F.div (F.of_Z (wrap (29804000 - 600))) (F.of_Z 8000))) in
  (seconds / 3600, (seconds / 60) mod 60, seconds mod 60) = (1, 2, 5).
Proof. vm_compute. reflexivity. Qed.

(** A chirp that starts within the first window has [chirp_len] above [n]:
    the difference wraps in [SUSCOUNT], and so does the time printed. *)
Example notice_time_in_first_window :
  wrap (500 - 560) = 2 ^ 64 - 60
  /\ SUSCOUNT_of_float
       (F.floor (F.div (F.of_Z (wrap (500 - 560))) (F.of_Z 8000)))
     = 2305843118735360.
Proof. vm_compute. split; reflexivity. Qed.

(** ** The output sample *)

Lemma chirp_update_written md integral chirp len remaining note :
  chirp_update md integral = (chirp, len, remaining, note) ->
  written note = [].
Proof.
  rewrite chirp_update_cases. simpl.
  destruct (in_chirp md);
    [destruct (Ieee.ltb integral (energy_thres md))
    |destruct (Ieee.geb integral (energy_thres md))];
    intros [= _ _ _ <-]; reflexivity.
Qed.

(** The flag that goes with a phase: [1 + 0 * phase], which is 1.0 when
    the phase is a number. *)
Lemma flag_finite r :
  Ieee.is_finite r = true -> F.add F.one (F.mul F.zero r) = F.one.
Proof. destruct r as [s|s| |s m e]; try discriminate; intros _; reflexivity. Qed.

Lemma flag_eqb r :
  Ieee.eqb (F.add F.one (F.mul F.zero r)) F.one = Ieee.is_finite r.
Proof. destruct r as [s|s| |s m e]; try destruct s; reflexivity. Qed.

Lemma encode_inv valid_data line i out :
  encode valid_data line i = Some out ->
  if valid_data
  then exists oldest,
         aget line i = Some oldest
         /\ re out = F.add F.one (F.mul F.zero (SU_C_ARG oldest))
         /\ im out = SU_C_ARG oldest
  else re out = F.zero /\ im out = F.zero.
Proof.
  unfold encode. destruct valid_data.
  - destruct (aget line i) as [oldest|]; [|discriminate].
    simpl. intros [= <-]. eauto.
  - intros [= <-]. split; reflexivity.
Qed.

(** The sample a call writes. *)
Lemma feed_output md x :
  ready md = true ->
  exists md' evs fp out oldest,
    meteo_detect_feed md x = Some (md', evs)
    /\ ofp md = Some fp
    /\ written evs = [(fp, out)]
    /\ p md' = (p md + 1) mod powerbuf_len md
    /\ (delay_line md' ≫= fun line => aget line (p md')) = Some oldest
    /\ re out = (if chirp_remaining md' =? 0 then F.zero
                 else F.add F.one (F.mul F.zero (SU_C_ARG oldest)))
    /\ im out = (if chirp_remaining md' =? 0 then F.zero
                 else SU_C_ARG oldest).
Proof.
  intros Hready.
  destruct (feed_ready md x Hready) as (md' & evs & Hfeed & _).
  destruct (measure_ready md x Hready) as (m & Hm & _ & Hllen & Hp & Hrange).
  destruct (feed_inv _ _ _ _ Hfeed)
    as (m' & fp & out & note & Hm' & Hfp & Hupd & Hout & Hevs & Hmd').
  assert (m' = m) as -> by congruence.
  destruct (aget_Some (m_delay_line m) (m_p m)) as [oldest Hold]; [lia|].
  exists md', evs, fp, out, oldest.
  apply chirp_update_written in Hupd.
  apply encode_inv in Hout.
  assert (p md' = m_p m) as Hp' by (rewrite Hmd'; reflexivity).
  assert (delay_line md' = Some (m_delay_line m)) as Hline'
      by (rewrite Hmd'; reflexivity).
  rewrite Hp', Hline'. simpl. rewrite Hold in Hout.
  repeat split; try assumption; try reflexivity.
  - rewrite Hevs. unfold written in *. rewrite omap_app, Hupd. reflexivity.
  - destruct (chirp_remaining md' =? 0); simpl in Hout; [apply Hout|].
    destruct Hout as (? & [= <-] & -> & _). reflexivity.
  - destruct (chirp_remaining md' =? 0); simpl in Hout; [apply Hout|].
    destruct Hout as (? & [= <-] & _ & ->). reflexivity.
Qed.
(** ** Construction and destruction *)

Lemma destroy_heap detect w :
  heap (meteo_detect_destroy detect w) = delete detect (heap w).
Proof.
  unfold meteo_detect_destroy.
  destruct (heap w !! detect) as [md|] eqn:Hmd.
  - destruct (ofp md), (powerbuf md), (delay_line md), (lpf1 md), (lpf2 md);
      reflexivity.
  - symmetry. apply delete_id, Hmd.
Qed.

(** After [meteo_detect_destroy] nothing is allocated at the address. *)
Lemma destroy_dangling detect w :
  heap (meteo_detect_destroy detect w) !! detect = None.
Proof. rewrite destroy_heap. apply lookup_delete_eq. Qed.

(** A constructed detector is [initial], with two buffers of [window_len]
    zeroed cells. *)
Lemma constructed_inv rate fc ofile w md :
  constructed rate fc ofile w md ->
  exists a1 a2 fp,
    md = initial rate fc
           (Array a1 (replicate (Z.to_nat (window_len rate)) F.zero))
           (Array a2 (replicate (Z.to_nat (window_len rate)) Czero)) fp.
Proof.
  destruct w as [nx orc hp bl fl ft].
  intros (new & w' & Hnew & Hmd). revert Hnew.
  unfold meteo_detect_new. repeat draw_case.
  all: intros [= <- <-].
  all: try (rewrite destroy_dangling in Hmd; discriminate).
  all: revert Hmd; heap_norm; intros [= <-]; do 3 eexists; reflexivity.
Qed.
(** C6, as the code has it.  Every call on a complete detector writes exactly
    one sample, to the output file.  The index has moved to the next cell
    (back to 0 at the end), where the oldest entry of the delay line is.
    When [chirp_remaining], as the call leaves it, is 0 the sample is
    0.0 + 0.0 i.  When it is not 0 the imaginary part is the argument of
    that oldest entry, the phase, and the real part is [1 + 0 * phase]:
    1.0 when the phase is a number, and a NaN when the phase is a NaN. *)
Theorem feed_writes_one_sample md x :
  ready md = true ->
  exists md' evs fp out oldest,
    meteo_detect_feed md x = Some (md', evs)
    /\ ofp md = Some fp
    /\ written evs = [(fp, out)]
    /\ p md' = (p md + 1) mod powerbuf_len md
    /\ (delay_line md' ≫= fun line => aget line (p md')) = Some oldest
    /\ re out = (if chirp_remaining md' =? 0 then F.zero
                 else F.add F.one (F.mul F.zero (SU_C_ARG oldest)))
    /\ (Ieee.is_finite (SU_C_ARG oldest) = true ->
        re out = (if chirp_remaining md' =? 0 then F.zero else F.one))
    /\ (SU_C_ARG oldest = F.nan ->
        re out = (if chirp_remaining md' =? 0 then F.zero else F.nan))
    /\ im out = (if chirp_remaining md' =? 0 then F.zero
                 else SU_C_ARG oldest).
Proof.
  intros Hready.
  destruct (feed_output md x Hready)
    as (md' & evs & fp & out & oldest & Hfeed & Hfp & Hout & Hp & Hold & Hre
        & Him).
  exists md', evs, fp, out, oldest.
  repeat (split; [assumption|]).
  split; [|split; [|exact Him]].
  - intros Hfin. rewrite Hre, (flag_finite _ Hfin). reflexivity.
  - intros Hnan. rewrite Hre, Hnan. reflexivity.
Qed.

(** ** What every call keeps *)

Lemma constructed_steady rate fc ofile w md :
  constructed rate fc ofile w md ->
  0 < powerbuf_len md < 2 ^ UINT_bits ->
  steady md.
Proof.
  intros (a1 & a2 & fp & ->)%constructed_inv. simpl. intros Hlen.
  unfold steady. simpl. split; [|split; [lia|discriminate]].
  apply ready_iff. simpl.
  repeat split; eauto; try lia.
  all: eexists; split; [reflexivity|]; simpl; rewrite length_replicate; lia.
Qed.

Lemma feed_steady md x md' evs :
  meteo_detect_feed md x = Some (md', evs) ->
  steady md ->
  steady md'
  /\ powerbuf_len md' = powerbuf_len md
  /\ energy_thres md' = energy_thres md
  /\ p md' = (p md + 1) mod powerbuf_len md.
Proof.
  intros Hfeed (Hready & Hrem & Hfull).
  destruct (feed_ready md x Hready) as (md2 & evs2 & Hfeed2 & Hready').
  assert (md2 = md') as -> by congruence.
  destruct (measure_ready md x Hready) as (m & Hm & _ & _ & Hp & _).
  destruct (feed_inv _ _ _ _ Hfeed)
    as (m' & fp & out & note & Hm' & _ & Hupd & _ & _ & Hmd').
  assert (m' = m) as -> by congruence.
  assert (powerbuf_len md' = powerbuf_len md) as Hlen
      by (rewrite Hmd'; reflexivity).
  assert (p md' = m_p m) as -> by (rewrite Hmd'; reflexivity).
  assert (energy_thres md' = energy_thres md) as ->
      by (rewrite Hmd'; reflexivity).
  rewrite Hlen.
  rewrite chirp_update_cases in Hupd. simpl in Hupd.
  destruct (in_chirp md);
    [destruct (Ieee.ltb (m_integral m) (energy_thres md))
    |destruct (Ieee.geb (m_integral m) (energy_thres md))];
    injection Hupd as Hchirp _ Hdrain _;
    try (specialize (Hfull eq_refl));
    destruct (Z.ltb_spec 0 (chirp_remaining md));
    repeat split; try assumption; try reflexivity;
    rewrite <- ?Hchirp, <- ?Hdrain; try discriminate; try lia.
Qed.

(** Call by call: the states of a run keep the invariant, the window and
    the threshold, and the index counts the calls modulo the window. *)
Lemma run_steady xs : forall md calls,
  run md xs = Some calls ->
  steady md ->
  forall k call, calls !! k = Some call ->
    steady (fst call)
    /\ powerbuf_len (fst call) = powerbuf_len md
    /\ energy_thres (fst call) = energy_thres md
    /\ p (fst call) = (p md + Z.of_nat (S k)) mod powerbuf_len md.
Proof.
  induction xs as [|x xs IH]; intros md calls Hrun Hsteady k call Hk.
  - injection Hrun as <-. discriminate.
  - simpl in Hrun.
    destruct (meteo_detect_feed md x) as [[md' evs]|] eqn:Hfeed;
      [|discriminate].
    simpl in Hrun.
    destruct (run md' xs) as [rest|] eqn:Hrest; [|discriminate].
    injection Hrun as <-.
    destruct (feed_steady _ _ _ _ Hfeed Hsteady) as (Hs' & Hlen & Hthres & Hp).
    destruct k as [|k].
    + injection Hk as <-. simpl. rewrite Hp. auto.
    + simpl in Hk.
      destruct (IH md' rest Hrest Hs' k call Hk) as (? & Hl & Ht & Hpk).
      rewrite Hl, Ht, Hpk, Hlen, Hthres, Hp.
      split; [assumption|]. split; [reflexivity|]. split; [reflexivity|].
      rewrite Zplus_mod_idemp_l. f_equal. lia.
Qed.
(** Each entry of a run is one call of [meteo_detect_feed], on the sample
    of that rank, from the state the call before left. *)
Lemma run_call xs : forall md calls k call,
  run md xs = Some calls ->
  calls !! k = Some call ->
  exists x, xs !! k = Some x
            /\ meteo_detect_feed (before md calls k) x = Some call.
Proof.
  induction xs as [|x xs IH]; intros md calls k call Hrun Hk.
  - injection Hrun as <-. discriminate.
  - simpl in Hrun.
    destruct (meteo_detect_feed md x) as [step|] eqn:Hfeed; [|discriminate].
    simpl in Hrun.
    destruct (run (fst step) xs) as [rest|] eqn:Hrest; [|discriminate].
    injection Hrun as <-.
    destruct k as [|k].
    + injection Hk as <-. exists x. auto.
    + simpl in Hk. destruct (IH _ _ _ _ Hrest Hk) as (x' & Hx' & Hcall).
      exists x'. split; [exact Hx'|].
      destruct k as [|k]; simpl in *; [exact Hcall|].
      destruct (rest !! k) eqn:Hearlier; [exact Hcall|].
      apply lookup_ge_None in Hearlier. apply lookup_lt_Some in Hk. lia.
Qed.

Lemma before_steady xs md calls k call :
  run md xs = Some calls -> steady md -> calls !! k = Some call ->
  steady (before md calls k)
  /\ powerbuf_len (before md calls k) = powerbuf_len md.
Proof.
  intros Hrun Hsteady Hk. destruct k as [|k]; [auto|]. simpl.
  destruct (calls !! k) as [earlier|] eqn:Hearlier.
  - destruct (run_steady _ _ _ Hrun Hsteady _ _ Hearlier) as (? & ? & _).
    auto.
  - apply lookup_ge_None in Hearlier. apply lookup_lt_Some in Hk. lia.
Qed.

(** C7.  On a constructed detector whose window is not empty (and small
    enough for the loop of the integral to count it), every run
    returns, and after each call the index is inside the buffers and the
    tail is at most the window: the index is the number of calls made so
    far modulo [powerbuf_len], and [powerbuf_len] never changes. *)
Theorem index_and_tail_within_window rate fc ofile w md xs :
  constructed rate fc ofile w md ->
  0 < powerbuf_len md < 2 ^ UINT_bits ->
  (0 <= p md < powerbuf_len md /\ chirp_remaining md <= powerbuf_len md)
  /\ exists calls,
      run md xs = Some calls /\ length calls = length xs
      /\ forall k call, calls !! k = Some call ->
           0 <= p (fst call) < powerbuf_len (fst call)
           /\ p (fst call) = Z.of_nat (S k) mod powerbuf_len md
           /\ 0 <= chirp_remaining (fst call) <= powerbuf_len (fst call)
           /\ powerbuf_len (fst call) = powerbuf_len md.
Proof.
  intros Hnew Hlen.
  pose proof (constructed_steady _ _ _ _ _ Hnew Hlen) as Hsteady.
  assert (p md = 0) as Hp0.
  { apply constructed_inv in Hnew as (? & ? & ? & ->). reflexivity. }
  destruct Hsteady as (Hready & Hrem & Hfull).
  split; [rewrite Hp0; lia|].
  destruct (run_ready xs md Hready) as (calls & Hrun & Hcalls & _).
  exists calls. split; [exact Hrun|]. split; [exact Hcalls|].
  intros k call Hk.
  destruct (run_steady _ _ _ Hrun (conj Hready (conj Hrem Hfull)) _ _ Hk)
    as ((Hready' & Hrem' & _) & Hl & _ & Hp).
  rewrite Hp0 in Hp. simpl in Hp.
  apply ready_iff in Hready' as (_ & _ & _ & _ & _ & _ & Hin & _).
  auto.
Qed.

(** No call changes the window or the threshold. *)
Lemma run_keeps_window xs : forall md calls k call,
  run md xs = Some calls ->
  calls !! k = Some call ->
  powerbuf_len (fst call) = powerbuf_len md
  /\ energy_thres (fst call) = energy_thres md.
Proof.
  induction xs as [|x xs IH]; intros md calls k call Hrun Hk.
  - injection Hrun as <-. discriminate.
  - simpl in Hrun.
    destruct (meteo_detect_feed md x) as [[md' evs]|] eqn:Hfeed;
      [|discriminate].
    simpl in Hrun.
    destruct (run md' xs) as [rest|] eqn:Hrest; [|discriminate].
    injection Hrun as <-.
    destruct (feed_inv _ _ _ _ Hfeed) as (m & fp & out & note & Hmd').
    do 5 destruct Hmd' as [_ Hmd'].
    assert (powerbuf_len md' = powerbuf_len md
            /\ energy_thres md' = energy_thres md) as [Hlen Hthres]
        by (rewrite Hmd'; split; reflexivity).
    destruct k as [|k].
    + injection Hk as <-. auto.
    + simpl in Hk. destruct (IH _ _ _ _ Hrest Hk) as [-> ->]. auto.
Qed.

(** C8.  A constructed detector has [powerbuf_len] equal to the ceiling
    of [fs * MIN_CHIRP_DURATION] and [energy_thres] equal to
    [POWER_THRESHOLD * powerbuf_len], where [POWER_THRESHOLD] is
    [2 * (LPF2_CUTOFF / LPF1_CUTOFF)]: the first product and the threshold
    ratio are computed in double precision, the ceiling is taken on the
    product rounded to [SUFLOAT], and the second product is rounded to
    [SUFLOAT].  Both values stay as they are in every run. *)
Theorem constructed_window_and_threshold rate fc ofile w md :
  constructed rate fc ofile w md ->
  (fs md = rate
   /\ powerbuf_len md
      = SUSCOUNT_of_float
          (F.ceil (F.of_double (D.mul (D.of_single rate) MIN_CHIRP_DURATION)))
   /\ energy_thres md
      = F.of_double (D.mul POWER_THRESHOLD (D.of_Z (powerbuf_len md)))
   /\ POWER_THRESHOLD = D.mul (D.of_Z 2) (D.div LPF2_CUTOFF LPF1_CUTOFF))
  /\ forall xs calls k call,
       run md xs = Some calls -> calls !! k = Some call ->
       powerbuf_len (fst call) = powerbuf_len md
       /\ energy_thres (fst call) = energy_thres md.
Proof.
  intros Hnew. split; [|intros xs; apply run_keeps_window].
  apply constructed_inv in Hnew as (a1 & a2 & fp & ->). repeat split.
Qed.

(** C10, as the code has it.  In every run of a constructed detector whose
    window is not empty (and small enough for the loop of the integral), a
    call that leaves the detector in a chirp leaves [chirp_remaining] equal
    to [powerbuf_len], so that the flag is on; the real part of the sample
    it writes is [1 + 0 * phase]: 1.0 when the phase is a number, and a
    NaN when the phase is a NaN. *)
Theorem tail_full_during_chirp rate fc ofile w md xs calls :
  constructed rate fc ofile w md ->
  0 < powerbuf_len md < 2 ^ UINT_bits ->
  run md xs = Some calls ->
  forall k call, calls !! k = Some call ->
    in_chirp (fst call) = true ->
    chirp_remaining (fst call) = powerbuf_len md
    /\ chirp_remaining (fst call) <> 0
    /\ exists fp out angle,
        written (snd call) = [(fp, out)]
        /\ phase (fst call) = Some angle
        /\ re out = F.add F.one (F.mul F.zero angle)
        /\ (Ieee.is_finite angle = true -> re out = F.one)
        /\ (angle = F.nan -> re out = F.nan).
Proof.
  intros Hnew Hlen Hrun k call Hk Hchirp.
  pose proof (constructed_steady _ _ _ _ _ Hnew Hlen) as Hsteady.
  destruct (run_steady _ _ _ Hrun Hsteady _ _ Hk)
    as ((_ & _ & Hfull) & Hl & _ & _).
  specialize (Hfull Hchirp). rewrite Hl in Hfull.
  split; [exact Hfull|]. split; [lia|].
  destruct (run_call _ _ _ _ _ Hrun Hk) as (x & _ & Hfeed).
  destruct (before_steady _ _ _ _ _ Hrun Hsteady Hk) as ((Hready & _) & _).
  destruct (feed_output _ x Hready)
    as (md' & evs & fp & out & oldest & Hfeed' & _ & Hout & _ & Hold & Hre & _).
  rewrite Hfeed in Hfeed'. injection Hfeed' as ->. simpl in *.
  exists fp, out, (SU_C_ARG oldest). split; [exact Hout|].
  unfold phase. rewrite Hold. split; [reflexivity|].
  rewrite Hfull in Hre. destruct (Z.eqb_spec (powerbuf_len md) 0); [lia|].
  split; [exact Hre|]. rewrite Hre. split.
  - apply flag_finite.
  - intros ->. reflexivity.
Qed.
(** ** A silent input *)

Lemma add_nan_r x : F.add x F.nan = F.nan.
Proof. destruct x; reflexivity. Qed.

Lemma sum_None (buf : array SUFLOAT) (idxs : list nat) :
  foldl (fun acc i => a ← acc; v ← aget buf (Z.of_nat i); Some (F.add a v))
        None idxs = None.
Proof. induction idxs as [|i idxs IH]; [reflexivity|exact IH]. Qed.

(** A NaN among the summands makes the sum a NaN. *)
Lemma sum_nan (buf : array SUFLOAT) (idxs : list nat) : forall acc v,
  foldl (fun acc i => a ← acc; v ← aget buf (Z.of_nat i); Some (F.add a v))
        (Some acc) idxs = Some v ->
  acc = F.nan \/ (exists i, i ∈ idxs /\ cells buf !! i = Some F.nan) ->
  v = F.nan.
Proof.
  induction idxs as [|i idxs IH]; intros acc v Hsum Hnan.
  - injection Hsum as <-. destruct Hnan as [->|(i & Hi & _)]; [reflexivity|].
    inversion Hi.
  - simpl in Hsum. unfold aget in Hsum at 2. rewrite Nat2Z.id in Hsum.
    destruct (cells buf !! i) as [vi|] eqn:Hvi; simpl in Hsum.
    + apply (IH _ _ Hsum).
      destruct Hnan as [->|(j & Hj & Hnan)]; [left; reflexivity|].
      apply elem_of_cons in Hj as [->|Hj]; [|right; eauto].
      left. rewrite Hvi in Hnan. injection Hnan as ->. apply add_nan_r.
    + rewrite sum_None in Hsum. discriminate.
Qed.

Lemma integrate_nan buf len i v :
  integrate buf len = Some v ->
  (i < Z.to_nat len)%nat -> cells buf !! i = Some F.nan ->
  v = F.nan.
Proof.
  unfold integrate. destruct (len <? 2 ^ UINT_bits); [|discriminate].
  intros Hsum Hi Hnan. apply (sum_nan _ _ _ _ Hsum). right.
  exists i. split; [|exact Hnan]. apply elem_of_seq. lia.
Qed.

(** Silence times the carrier is silence. *)
Lemma mix_zero x carrier :
  Cis_zero x = true -> Cis_finite carrier = true ->
  Cis_zero (Cmul x (SU_C_CONJ carrier)) = true.
Proof.
  destruct x as [[sa|sa| |sa ma ea] [sb|sb| |sb mb eb]]; try discriminate.
  destruct carrier as [[sc|sc| |sc mc ec] [sd|sd| |sd md ed]];
    try discriminate; intros _ _;
    destruct sa, sb, sc, sd; reflexivity.
Qed.

(** The power of silence is [+0]. *)
Lemma power_zero y : Cis_zero y = true -> power y = F.zero.
Proof.
  destruct y as [[sa|sa| |sa ma ea] [sb|sb| |sb mb eb]]; try discriminate.
  intros _. destruct sa, sb; reflexivity.
Qed.

(** A power estimate at [+0] that is fed the power [+0] stays at [+0]. *)
Lemma smooth_zero a :
  Ieee.is_finite a = true -> smooth a F.zero F.zero = F.zero.
Proof.
  destruct a as [s|s| |s m e]; try discriminate; intros _;
    destruct s; reflexivity.
Qed.
Section Silence.
(** What is asked of the collaborators.  [quiet] is a set of filter states
    that holds the two filters as [meteo_detect_new] initialises them, on
    which a filter fed silence gives silence, and which the filter then
    stays in.  [lively] is a set of oscillator states that holds the
    oscillator as [meteo_detect_new] initialises it, on which the
    oscillator gives a finite sample, and which it then stays in. *)
Variable quiet : su_iir_filt_t -> Prop.
Variable lively : su_ncqo_t -> Prop.
Hypothesis quiet_feed : forall f x,
  quiet f -> Cis_zero x = true ->
  Cis_zero (fst (su_iir_filt_feed f x)) = true
  /\ quiet (snd (su_iir_filt_feed f x)).
Hypothesis lively_read : forall osc,
  lively osc ->
  Cis_finite (fst (su_ncqo_read osc)) = true
  /\ lively (snd (su_ncqo_read osc)).

(** One silent sample: the ratio stored is the NaN of [0 / 0], the
    integral is a NaN, and the detector is as silent as before. *)
Lemma silent_step md :
  silent quiet lively md ->
  exists md' evs,
    meteo_detect_feed md Czero = Some (md', evs)
    /\ silent quiet lively md'
    /\ powerbuf_len md' = powerbuf_len md
    /\ m_ratio <$> measure md Czero = Some F.nan
    /\ m_integral <$> measure md Czero = Some F.nan.
Proof.
  intros (Hsteady & Hn0 & Hs0 & Hidle & Halpha
          & (f1 & f2 & Hf1 & Hf2 & Hq1 & Hq2) & osc0 & Hosc0 & Hlive).
  pose proof Hsteady as (Hready & _).
  destruct (feed_ready md Czero Hready) as (md' & evs & Hfeed & _).
  destruct (feed_steady _ _ _ _ Hfeed Hsteady) as (Hsteady' & Hlen & _ & _).
  destruct (feed_inv _ _ _ _ Hfeed)
    as (m & fp & out & note & Hm & _ & Hupd & _ & _ & Hmd').
  destruct (measure_inv _ _ _ Hm)
    as (osc & g1 & g2 & buf & line & Hosc & Hg1 & Hg2 & Hbuf & _ & Hlo & Hl1
        & Hy & Hl2 & Hmn0 & Hms0 & Hratio & Hset & _ & _ & Hint).
  assert (g1 = f1) as -> by congruence.
  assert (g2 = f2) as -> by congruence.
  assert (osc = osc0) as -> by congruence.
  cbv zeta in *.
  destruct (lively_read osc0 Hlive) as [Hcarrier Hlive'].
  pose proof (mix_zero Czero _ eq_refl Hcarrier) as Hmix.
  destruct (quiet_feed f1 _ Hq1 Hmix) as [Hy1 Hq1'].
  destruct (quiet_feed f2 _ Hq2 Hy1) as [Hy2 Hq2'].
  rewrite <- Hy in Hy2.
  rewrite (power_zero _ Hy1), Hn0, (smooth_zero _ Halpha) in Hmn0.
  rewrite (power_zero _ Hy2), Hs0, (smooth_zero _ Halpha) in Hms0.
  rewrite Hmn0, Hms0 in Hratio. change (F.div F.zero F.zero) with F.nan in Hratio.
  assert (m_integral m = F.nan) as Hnan.
  { apply ready_iff in Hready as (_ & _ & _ & _ & _ & _ & Hp & _).
    apply aset_inv in Hset as (Hin & _ & Hcells).
    apply (integrate_nan _ _ (Z.to_nat (p md)) _ Hint); [lia|].
    rewrite Hcells, Hratio. apply list_lookup_insert_eq, Hin. }
  rewrite Hnan, chirp_update_cases, Hidle in Hupd. simpl in Hupd.
  destruct (nan_ltb_geb (energy_thres md)) as [_ Hge]. rewrite Hge in Hupd.
  injection Hupd as Hchirp _ _ _.
  exists md', evs. rewrite Hm. simpl. rewrite Hratio, Hnan.
  split; [exact Hfeed|]. split; [|auto].
  split; [exact Hsteady'|].
  rewrite Hmd'. simpl.
  split; [exact Hmn0|]. split; [exact Hms0|]. split; [auto|].
  split; [exact Halpha|]. split.
  - exists (m_lpf1 m), (m_lpf2 m). rewrite Hl1, Hl2. auto.
  - exists (m_lo m). rewrite Hlo. auto.
Qed.

Lemma silent_run k : forall md,
  silent quiet lively md ->
  exists calls,
    run md (replicate k Czero) = Some calls /\ length calls = k
    /\ forall j call, calls !! j = Some call ->
         n0 (fst call) = F.zero /\ s0 (fst call) = F.zero
         /\ in_chirp (fst call) = false
         /\ m_ratio <$> measure (before md calls j) Czero = Some F.nan.
Proof.
  induction k as [|k IH]; intros md Hsilent.
  - exists []. repeat split; intros; discriminate.
  - destruct (silent_step md Hsilent)
      as (md' & evs & Hfeed & Hsilent' & _ & Hratio & _).
    destruct (IH md' Hsilent') as (calls & Hrun & Hlen & Hcalls).
    exists ((md', evs) :: calls). simpl. rewrite Hfeed. simpl.
    rewrite Hrun. simpl. split; [reflexivity|]. split; [congruence|].
    intros j call Hj. destruct j as [|j]; simpl in Hj.
    + injection Hj as <-. simpl.
      destruct Hsilent' as (_ & ? & ? & ? & _). auto.
    + destruct (Hcalls _ _ Hj) as (? & ? & ? & Hr).
      repeat split; try assumption.
      destruct j as [|j]; simpl in *; [exact Hr|].
      destruct (calls !! j) eqn:Hearlier; [exact Hr|].
      apply lookup_ge_None in Hearlier. apply lookup_lt_Some in Hj. lia.
Qed.

(** A constructed detector is silent, when its two filters start at rest
    and its oscillator in a state of [lively]. *)
Lemma constructed_silent rate fc ofile w md :
  quiet (su_iir_bwlpf_init 5 (SU_ABS2NORM_FREQ rate LPF1_CUTOFF)) ->
  quiet (su_iir_bwlpf_init 4 (SU_ABS2NORM_FREQ rate LPF2_CUTOFF)) ->
  lively (su_ncqo_init (SU_ABS2NORM_FREQ rate fc)) ->
  constructed rate fc ofile w md ->
  0 < powerbuf_len md < 2 ^ UINT_bits ->
  Ieee.is_finite (alpha md) = true ->
  silent quiet lively md.
Proof.
  intros Hq1 Hq2 Hlive Hnew Hlen Halpha.
  split; [exact (constructed_steady _ _ _ _ _ Hnew Hlen)|].
  apply constructed_inv in Hnew as (a1 & a2 & fp & ->). simpl in *.
  repeat (split; [reflexivity || assumption|]).
  split; [do 2 eexists|eexists]; repeat split; assumption.
Qed.

(** C9.  A constructed detector (window not empty and small enough for
    the loop of the integral, [alpha] finite) that is fed zero samples
    only.  Its two filters, as [meteo_detect_new] initialises them (order
    5 at [LPF1_CUTOFF], order 4 at [LPF2_CUTOFF]), answer silence by
    silence, and its oscillator, from the state [meteo_detect_new] gives
    it, produces finite samples.  Then every run returns, and after every
    call both power estimates are [+0] and the detector is idle.  The
    ratio the call stored is the quotient [0 / 0] of the two estimates, a
    NaN, which is not at or above the threshold. *)
Theorem silent_input_never_chirps rate fc ofile w md k :
  quiet (su_iir_bwlpf_init 5 (SU_ABS2NORM_FREQ rate LPF1_CUTOFF)) ->
  quiet (su_iir_bwlpf_init 4 (SU_ABS2NORM_FREQ rate LPF2_CUTOFF)) ->
  lively (su_ncqo_init (SU_ABS2NORM_FREQ rate fc)) ->
  constructed rate fc ofile w md ->
  0 < powerbuf_len md < 2 ^ UINT_bits ->
  Ieee.is_finite (alpha md) = true ->
  exists calls,
    run md (replicate k Czero) = Some calls /\ length calls = k
    /\ forall j call, calls !! j = Some call ->
         n0 (fst call) = F.zero /\ s0 (fst call) = F.zero
         /\ in_chirp (fst call) = false
         /\ m_ratio <$> measure (before md calls j) Czero
            = Some (F.div (s0 (fst call)) (n0 (fst call)))
         /\ F.div (s0 (fst call)) (n0 (fst call)) = F.nan
         /\ Ieee.geb F.nan (energy_thres md) = false.
Proof.
  intros Hq1 Hq2 Hlive Hnew Hlen Halpha.
  pose proof (constructed_silent _ _ _ _ _ Hq1 Hq2 Hlive Hnew Hlen Halpha)
    as Hsilent.
  destruct (silent_run k md Hsilent) as (calls & Hrun & Hcalls & Hall).
  exists calls. split; [exact Hrun|]. split; [exact Hcalls|].
  intros j call Hj. destruct (Hall j call Hj) as (-> & -> & Hidle & Hratio).
  repeat split; try assumption.
  destruct (energy_thres md); reflexivity.
Qed.
End Silence.
(** ** A construction that fails *)

(** A block that is allocated and then freed leaves the live blocks as
    they were. *)
Lemma alloc_free (a : nat) (live : gset nat) :
  a ∉ live -> ({[a]} ∪ live) ∖ {[a]} = live.
Proof.
  intros Ha. apply set_eq. intros x.
  rewrite elem_of_difference, elem_of_union, elem_of_singleton.
  split.
  - intros [[Hx|Hx] Hne]; [contradiction|exact Hx].
  - intros Hx. split; [right; exact Hx|]. intros ->. contradiction.
Qed.

Lemma alloc_free_two (a b : nat) (live : gset nat) :
  a ∉ live -> b ∉ live ->
  ({[b]} ∪ ({[a]} ∪ live)) ∖ {[a]} ∖ {[b]} = live.
Proof.
  intros Ha Hb. apply set_eq. intros x.
  rewrite !elem_of_difference, !elem_of_union, !elem_of_singleton.
  split.
  - intros [[[Hx|[Hx|Hx]] Hna] Hnb]; [contradiction|contradiction|exact Hx].
  - intros Hx. repeat split; [right; right; exact Hx|..]; intros ->;
      contradiction.
Qed.

(** C1.  When one of the six acquisitions fails, everything acquired
    before it is released; but the caller gets NULL only when it is the
    struct itself that could not be allocated.  In the five other cases
    [meteo_detect_new] returns the address of the struct it has just
    freed. *)
Theorem new_failure_returns_freed_pointer rate fc ofile w r w' :
  fresh w ->
  acquisition_fails w ->
  meteo_detect_new rate fc ofile w = (r, w') ->
  (r = None <-> oracle w !! 0%nat = Some false)
  /\ (forall new, r = Some new -> new = next w /\ heap w' !! new = None)
  /\ heap w' = heap w /\ blocks w' = blocks w
  /\ files w' = files w /\ filters w' = filters w.
Proof.
  destruct w as [nx orc hp bl fl ft].
  intros Hfresh (k & Hk & Hfail). revert Hfail.
  unfold fresh in Hfresh. cbn [next heap blocks files oracle] in *.
  destruct (Hfresh nx) as (Hheap & _ & _); [lia|].
  destruct (Hfresh (S nx)) as (_ & Hb1 & _); [lia|].
  destruct (Hfresh (S (S nx))) as (_ & Hb2 & _); [lia|].
  clear Hfresh.
  unfold meteo_detect_new. repeat draw_case.
  all: try (intros Hfail; exfalso;
            do 6 (destruct k as [|k]; [discriminate Hfail|]); lia).
  all: intros _ [= <- <-].
  all: try destroy_step.
  all: rewrite ?delete_insert_eq, ?(delete_id _ _ Hheap).
  all: rewrite ?(alloc_free_two _ _ _ Hb1 Hb2), ?(alloc_free _ _ Hb1).
  all: split; [split; intros Heq; first [discriminate Heq | reflexivity]|].
  all: split; [|repeat split; reflexivity].
  all: intros new Heq; first [discriminate Heq | injection Heq as <-].
  all: split; [reflexivity | exact Hheap].
Qed.

(** ** The tail after a chirp *)

(** A call that leaves the detector idle takes one off the tail, unless
    the tail is 0 already. *)
Lemma feed_drain md x md' evs :
  meteo_detect_feed md x = Some (md', evs) ->
  steady md ->
  in_chirp md' = false ->
  chirp_remaining md' = Z.max 0 (chirp_remaining md - 1).
Proof.
  intros Hfeed (_ & Hrem & _) Hidle.
  destruct (feed_inv _ _ _ _ Hfeed)
    as (m & fp & out & note & _ & _ & Hupd & _).
  rewrite chirp_update_cases in Hupd. simpl in Hupd.
  destruct (in_chirp md);
    [destruct (Ieee.ltb (m_integral m) (energy_thres md))
    |destruct (Ieee.geb (m_integral m) (energy_thres md))];
    injection Hupd as Hchirp _ Hdrain _; try congruence;
    rewrite <- Hdrain; destruct (Z.ltb_spec 0 (chirp_remaining md)); lia.
Qed.

Lemma run_drain xs : forall md calls,
  run md xs = Some calls ->
  steady md ->
  forallb (fun call => negb (in_chirp (fst call))) calls = true ->
  forall j call, calls !! j = Some call ->
    chirp_remaining (fst call)
    = Z.max 0 (chirp_remaining md - Z.of_nat (S j)).
Proof.
  induction xs as [|x xs IH]; intros md calls Hrun Hsteady Hidle j call Hj.
  - injection Hrun as <-. discriminate.
  - simpl in Hrun.
    destruct (meteo_detect_feed md x) as [[md' evs]|] eqn:Hfeed;
      [|discriminate].
    simpl in Hrun.
    destruct (run md' xs) as [rest|] eqn:Hrest; [|discriminate].
    injection Hrun as <-. simpl in Hidle.
    apply andb_true_iff in Hidle as [Hidle' Hidle].
    apply negb_true_iff in Hidle'.
    pose proof (feed_drain _ _ _ _ Hfeed Hsteady Hidle') as Hdrain.
    destruct (feed_steady _ _ _ _ Hfeed Hsteady) as (Hsteady' & _).
    destruct j as [|j].
    + injection Hj as <-. simpl. rewrite Hdrain. reflexivity.
    + simpl in Hj. rewrite (IH _ _ Hrest Hsteady' Hidle _ _ Hj), Hdrain. lia.
Qed.

(** The flag of a call is 1.0 when the tail it leaves is not 0 and the
    phase is a number. *)
Lemma valid_data_tail md x call :
  ready md = true ->
  meteo_detect_feed md x = Some call ->
  valid_data call
  = negb (chirp_remaining (fst call) =? 0) && phase_finite call.
Proof.
  intros Hready Hfeed.
  destruct (feed_output _ x Hready)
    as (md' & evs & fp & out & oldest & Hfeed' & _ & Hout & _ & Hold & Hre & _).
  rewrite Hfeed in Hfeed'. injection Hfeed' as ->.
  unfold valid_data, phase_finite, phase. simpl. rewrite Hout, Hre, Hold.
  destruct (chirp_remaining md' =? 0); [reflexivity|].
  simpl. apply flag_eqb.
Qed.

(** C2, as the code has it.  From the call that ends a chirp on, and as
    long as no chirp starts again, [chirp_remaining] is [powerbuf_len]
    less the number of calls made, down to 0: it reaches 0 on call number
    [powerbuf_len], the call that ends the chirp counted as number 1.  The
    flag (1.0 on a call whose phase is a number) is on for the calls
    before that one, [powerbuf_len - 1] of them, and off from that call
    on. *)
Theorem tail_drains_after_chirp md xs calls :
  steady md ->
  in_chirp md = true ->
  run md xs = Some calls ->
  forallb (fun call => negb (in_chirp (fst call))) calls = true ->
  forall j call, calls !! j = Some call ->
    chirp_remaining (fst call) = Z.max 0 (powerbuf_len md - Z.of_nat (S j))
    /\ (phase_finite call = true ->
        valid_data call = (Z.of_nat (S j) <? powerbuf_len md)).
Proof.
  intros Hsteady Hchirp Hrun Hidle j call Hj.
  pose proof (run_drain _ _ _ Hrun Hsteady Hidle _ _ Hj) as Hdrain.
  pose proof Hsteady as (_ & _ & Hfull). rewrite (Hfull Hchirp) in Hdrain.
  split; [exact Hdrain|].
  destruct (run_call _ _ _ _ _ Hrun Hj) as (x & _ & Hfeed).
  destruct (before_steady _ _ _ _ _ Hrun Hsteady Hj) as ((Hready & _) & _).
  intros Hphase.
  rewrite (valid_data_tail _ _ _ Hready Hfeed), Hdrain, Hphase, andb_true_r.
  destruct (Z.ltb_spec (Z.of_nat (S j)) (powerbuf_len md));
    destruct (Z.eqb_spec (Z.max 0 (powerbuf_len md - Z.of_nat (S j))) 0);
    simpl; try reflexivity; lia.
Qed.
End Properties.

(** * Further properties *)

Section Further.
Context `{Sigutils}.

#[local] Arguments power : simpl never.
#[local] Arguments smooth : simpl never.
#[local] Arguments Cmul : simpl never.
#[local] Arguments SU_C_CONJ : simpl never.
#[local] Arguments F.add : simpl never.
#[local] Arguments F.sub : simpl never.
#[local] Arguments F.mul : simpl never.
#[local] Arguments F.div : simpl never.
#[local] Arguments F.of_Z : simpl never.
#[local] Arguments aset : simpl never.
#[local] Arguments aget : simpl never.
#[local] Arguments integrate : simpl never.
#[local] Arguments encode : simpl never.
#[local] Arguments chirp_update : simpl never.
#[local] Arguments wrap : simpl never.

(** ** What a call leaves alone *)

(** The fields a call writes, and those it does not. *)
Lemma feed_fields md x md' evs :
  meteo_detect_feed md x = Some (md', evs) ->
  exists m buf line,
    measure md x = Some m
    /\ powerbuf md = Some buf /\ delay_line md = Some line
    /\ powerbuf md' = Some (m_powerbuf m)
    /\ delay_line md' = Some (m_delay_line m)
    /\ aset buf (p md) (m_ratio m) = Some (m_powerbuf m)
    /\ aset line (p md) (Cmul (m_y m) (SU_C_CONJ (prev md)))
       = Some (m_delay_line m)
    /\ p md' = m_p m /\ prev md' = m_y m
    /\ n md' = wrap (n md + 1)
    /\ fs md' = fs md /\ alpha md' = alpha md
    /\ powerbuf_len md' = powerbuf_len md
    /\ energy_thres md' = energy_thres md
    /\ ofp md' = ofp md
    /\ (is_Some (lpf1 md') <-> is_Some (lpf1 md))
    /\ (is_Some (lpf2 md') <-> is_Some (lpf2 md)).
Proof.
  intros Hfeed.
  destruct (feed_inv _ _ _ _ Hfeed)
    as (m & fp & out & note & Hm & Hfp & _ & _ & _ & Hmd').
  destruct (measure_inv _ _ _ Hm)
    as (osc & f1 & f2 & buf & line & _ & Hf1 & Hf2 & Hbuf & Hline & Hrest).
  cbv zeta in Hrest.
  destruct Hrest as (_ & _ & _ & _ & _ & _ & _ & Hsetb & Hsetl & _).
  exists m, buf, line. rewrite Hmd'. simpl. rewrite Hf1, Hf2, Hfp.
  repeat split; try assumption; try reflexivity; eauto.
Qed.

(** A call keeps the sample rate, the smoothing factor, the window, the
    threshold, and what the struct owns: the file, the two blocks and their
    sizes, the storage of the filters. *)
Lemma feed_keeps md x md' evs :
  meteo_detect_feed md x = Some (md', evs) ->
  fs md' = fs md /\ alpha md' = alpha md
  /\ powerbuf_len md' = powerbuf_len md
  /\ energy_thres md' = energy_thres md
  /\ footprint md' = footprint md
  /\ (fun a => length (cells a)) <$> powerbuf md'
     = (fun a => length (cells a)) <$> powerbuf md
  /\ (fun a => length (cells a)) <$> delay_line md'
     = (fun a => length (cells a)) <$> delay_line md.
Proof.
  intros (m & buf & line & _ & Hbuf & Hline & Hbuf' & Hline' & Hsetb & Hsetl
          & _ & _ & _ & Hfs & Halpha & Hlen & Hthres & Hofp & Hl1 & Hl2)%feed_fields.
  destruct (aset_inv _ _ _ _ Hsetb) as (_ & Hbase & _).
  destruct (aset_inv _ _ _ _ Hsetl) as (_ & Hbasel & _).
  repeat split; try assumption.
  - unfold footprint. rewrite Hofp, Hbuf, Hline, Hbuf', Hline'. simpl.
    rewrite Hbase, Hbasel.
    rewrite (bool_decide_ext _ _ Hl1), (bool_decide_ext _ _ Hl2). reflexivity.
  - rewrite Hbuf, Hbuf'. simpl. f_equal. exact (aset_length _ _ _ _ Hsetb).
  - rewrite Hline, Hline'. simpl. f_equal. exact (aset_length _ _ _ _ Hsetl).
Qed.

(** The same, call by call in a run. *)
Lemma run_keeps xs : forall md calls k call,
  run md xs = Some calls ->
  calls !! k = Some call ->
  fs (fst call) = fs md /\ alpha (fst call) = alpha md
  /\ powerbuf_len (fst call) = powerbuf_len md
  /\ energy_thres (fst call) = energy_thres md
  /\ footprint (fst call) = footprint md
  /\ (fun a => length (cells a)) <$> powerbuf (fst call)
     = (fun a => length (cells a)) <$> powerbuf md
  /\ (fun a => length (cells a)) <$> delay_line (fst call)
     = (fun a => length (cells a)) <$> delay_line md.
Proof.
  induction xs as [|x xs IH]; intros md calls k call Hrun Hk.
  - injection Hrun as <-. discriminate.
  - simpl in Hrun.
    destruct (meteo_detect_feed md x) as [[md' evs]|] eqn:Hfeed;
      [|discriminate].
    simpl in Hrun.
    destruct (run md' xs) as [rest|] eqn:Hrest; [|discriminate].
    injection Hrun as <-.
    pose proof (feed_keeps _ _ _ _ Hfeed) as Hkeep.
    destruct k as [|k].
    + injection Hk as <-. exact Hkeep.
    + simpl in Hk. pose proof (IH _ _ _ _ Hrest Hk) as Hlater.
      destruct Hkeep as (<- & <- & <- & <- & <- & <- & <-). exact Hlater.
Qed.

(** X1.  No call of a run changes the sample rate, the smoothing factor,
    the window or the threshold, nor what the struct owns: the output file,
    the addresses and the sizes of the two buffers, the storage of the two
    filters.  Nothing is reallocated, closed or reopened while samples are
    fed. *)
Theorem run_keeps_configuration xs : forall md calls k call,
  run md xs = Some calls ->
  calls !! k = Some call ->
  fs (fst call) = fs md /\ alpha (fst call) = alpha md
  /\ powerbuf_len (fst call) = powerbuf_len md
  /\ energy_thres (fst call) = energy_thres md
  /\ footprint (fst call) = footprint md
  /\ (fun a => length (cells a)) <$> powerbuf (fst call)
     = (fun a => length (cells a)) <$> powerbuf md
  /\ (fun a => length (cells a)) <$> delay_line (fst call)
     = (fun a => length (cells a)) <$> delay_line md.
Proof. exact (run_keeps xs). Qed.

(** ** Counting the calls *)

(** What a call writes: the line of a chirp that ended, if any, and then
    one sample, on the output file. *)
Lemma feed_events md x md' evs :
  meteo_detect_feed md x = Some (md', evs) ->
  exists fp out,
    ofp md = Some fp
    /\ written evs = [(fp, out)]
    /\ printed evs
       = (if in_chirp md && negb (in_chirp md')
          then [(chirp_len md, seconds_of md / 3600,
                 (seconds_of md / 60) mod 60, seconds_of md mod 60)]
          else []).
Proof.
  intros Hfeed.
  destruct (feed_inv _ _ _ _ Hfeed)
    as (m & fp & out & note & _ & Hfp & Hupd & _ & -> & _).
  exists fp, out. split; [exact Hfp|].
  unfold written, printed. rewrite !omap_app. simpl. rewrite app_nil_r.
  rewrite chirp_update_cases in Hupd. simpl in Hupd.
  destruct (in_chirp md);
    [destruct (Ieee.ltb (m_integral m) (energy_thres md))
    |destruct (Ieee.geb (m_integral m) (energy_thres md))];
    injection Hupd as <- _ _ <-; split; reflexivity.
Qed.

Lemma written_app evs evs' : written (evs ++ evs') = written evs ++ written evs'.
Proof. apply omap_app. Qed.

Lemma printed_app evs evs' : printed (evs ++ evs') = printed evs ++ printed evs'.
Proof. apply omap_app. Qed.

(** The samples of a run on the output file, and its sample counter. *)
Lemma run_counts xs : forall md calls fp,
  run md xs = Some calls ->
  ofp md = Some fp ->
  length calls = length xs
  /\ map fst (written (concat (map snd calls))) = replicate (length xs) fp
  /\ forall k call, calls !! k = Some call ->
       n (fst call) = wrap (n md + Z.of_nat (S k)).
Proof.
  induction xs as [|x xs IH]; intros md calls fp Hrun Hfp.
  - injection Hrun as <-. repeat split. intros k call Hk. discriminate.
  - simpl in Hrun.
    destruct (meteo_detect_feed md x) as [[md' evs]|] eqn:Hfeed;
      [|discriminate].
    simpl in Hrun.
    destruct (run md' xs) as [rest|] eqn:Hrest; [|discriminate].
    injection Hrun as <-.
    destruct (feed_events _ _ _ _ Hfeed) as (fp' & out & Hfp' & Hout & _).
    assert (fp' = fp) as -> by congruence.
    destruct (feed_fields _ _ _ _ Hfeed)
      as (m & buf & line & _ & _ & _ & _ & _ & _ & _ & _ & _ & Hn & _ & _ & _
          & _ & Hofp & _).
    rewrite Hfp in Hofp.
    destruct (IH _ _ _ Hrest Hofp) as (Hlen & Hall & Hcount).
    simpl. rewrite written_app, map_app, Hout, Hall, Hlen.
    repeat split.
    intros k call Hk. destruct k as [|k].
    + injection Hk as <-. exact Hn.
    + simpl in Hk. rewrite (Hcount _ _ Hk), Hn. unfold wrap.
      rewrite Zplus_mod_idemp_l. f_equal. lia.
Qed.

(** X2.  A run writes exactly one sample for each sample it is fed, all of
    them on the output file of the detector, and after the call of rank
    [k] the sample counter [n] has advanced by [k], modulo 2^64. *)
Theorem run_writes_one_sample_per_call xs md calls fp :
  run md xs = Some calls ->
  ofp md = Some fp ->
  length calls = length xs
  /\ map fst (written (concat (map snd calls))) = replicate (length xs) fp
  /\ forall k call, calls !! k = Some call ->
       n (fst call) = wrap (n md + Z.of_nat (S k)).
Proof. exact (run_counts xs md calls fp). Qed.

(** ** The chirps of a run *)

Lemma run_cons md x xs calls :
  run md (x :: xs) = Some calls ->
  exists md' evs rest,
    meteo_detect_feed md x = Some (md', evs)
    /\ run md' xs = Some rest /\ calls = (md', evs) :: rest.
Proof.
  simpl. intros Hrun.
  destruct (meteo_detect_feed md x) as [[md' evs]|] eqn:Hfeed; [|discriminate].
  simpl in Hrun.
  destruct (run md' xs) as [rest|] eqn:Hrest; [|discriminate].
  injection Hrun as <-. eauto 6.
Qed.

(** The length of the chirp after a call. *)
Lemma feed_chirp_len md x md' evs :
  meteo_detect_feed md x = Some (md', evs) ->
  chirp_len md'
  = (if in_chirp md'
     then if in_chirp md then wrap (chirp_len md + 1) else powerbuf_len md
     else chirp_len md).
Proof.
  intros Hfeed.
  destruct (feed_inv _ _ _ _ Hfeed)
    as (m & fp & out & note & _ & _ & Hupd & _).
  rewrite chirp_update_cases in Hupd. simpl in Hupd.
  destruct (in_chirp md);
    [destruct (Ieee.ltb (m_integral m) (energy_thres md))
    |destruct (Ieee.geb (m_integral m) (energy_thres md))];
    injection Hupd as <- <- _ _; reflexivity.
Qed.

(** The lines of a run, against the flags of its calls. *)
Lemma run_lines xs : forall md calls,
  run md xs = Some calls ->
  length (printed (concat (map snd calls)))
  = chirp_ends (in_chirp md) (map (fun call => in_chirp (fst call)) calls).
Proof.
  induction xs as [|x xs IH]; intros md calls Hrun.
  - injection Hrun as <-. reflexivity.
  - destruct (run_cons _ _ _ _ Hrun) as (md' & evs & rest & Hfeed & Hrest & ->).
    destruct (feed_events _ _ _ _ Hfeed) as (fp & out & _ & _ & Hline).
    simpl. rewrite printed_app, length_app, Hline, (IH _ _ Hrest).
    destruct (in_chirp md && negb (in_chirp md')); reflexivity.
Qed.

(** X3.  A run prints one line for each chirp that ends in it, that is
    for each call that finds the detector in a chirp and leaves it idle,
    and nothing else: a chirp that is still going on when the input ends
    is not reported. *)
Theorem run_prints_one_line_per_chirp_end xs md calls :
  run md xs = Some calls ->
  length (printed (concat (map snd calls)))
  = chirp_ends (in_chirp md) (map (fun call => in_chirp (fst call)) calls).
Proof. apply run_lines. Qed.

(** A chirp that goes on for [c] calls and ends on the next one: the line
    printed. *)
Lemma run_chirp_line : forall c xs md calls,
  run md xs = Some calls ->
  in_chirp md = true ->
  0 <= chirp_len md < 2 ^ SUSCOUNT_bits ->
  map (fun call => in_chirp (fst call)) calls = replicate c true ++ [false] ->
  let seconds :=
    SUSCOUNT_of_float
      (F.floor (F.div (F.of_Z (wrap (n md - chirp_len md))) (fs md))) in
  printed (concat (map snd calls))
  = [(wrap (chirp_len md + Z.of_nat c),
      seconds / 3600, (seconds / 60) mod 60, seconds mod 60)].
Proof.
  induction c as [|c IH]; intros xs md calls Hrun Hchirp Hrange Hflags.
  - destruct xs as [|x xs]; [injection Hrun as <-; discriminate|].
    destruct (run_cons _ _ _ _ Hrun) as (md' & evs & rest & Hfeed & Hrest & ->).
    simpl in Hflags. injection Hflags as Hidle Hnil.
    apply map_eq_nil in Hnil as ->. simpl. rewrite app_nil_r.
    destruct (feed_events _ _ _ _ Hfeed) as (fp & out & _ & _ & Hline).
    rewrite Hchirp, Hidle in Hline. simpl in Hline. rewrite Hline.
    rewrite Z.add_0_r, (wrap_small _ Hrange). reflexivity.
  - destruct xs as [|x xs]; [injection Hrun as <-; discriminate|].
    destruct (run_cons _ _ _ _ Hrun) as (md' & evs & rest & Hfeed & Hrest & ->).
    simpl in Hflags. injection Hflags as Hchirp' Hflags.
    destruct (feed_events _ _ _ _ Hfeed) as (fp & out & _ & _ & Hline).
    rewrite Hchirp, Hchirp' in Hline. simpl in Hline.
    pose proof (feed_chirp_len _ _ _ _ Hfeed) as Hlen.
    rewrite Hchirp, Hchirp' in Hlen.
    destruct (feed_fields _ _ _ _ Hfeed)
      as (m & buf & line & _ & _ & _ & _ & _ & _ & _ & _ & _ & Hn & Hfs & _).
    simpl. rewrite printed_app, Hline. simpl.
    assert (0 <= chirp_len md' < 2 ^ SUSCOUNT_bits) as Hrange'
        by (rewrite Hlen; apply wrap_range).
    rewrite (IH _ _ _ Hrest Hchirp' Hrange' Hflags).
    rewrite Hlen, Hn, Hfs.
    assert (wrap (wrap (chirp_len md + 1) + Z.of_nat c)
            = wrap (chirp_len md + Z.of_nat (S c))) as ->.
    { unfold wrap. rewrite Zplus_mod_idemp_l. f_equal. lia. }
    assert (wrap (wrap (n md + 1) - wrap (chirp_len md + 1))
            = wrap (n md - chirp_len md)) as ->.
    { unfold wrap. rewrite Zminus_mod_idemp_l, Zminus_mod_idemp_r.
      f_equal. lia. }
    reflexivity.
Qed.

(** X4.  A chirp that starts on a call, from an idle detector, goes on
    for [c] more calls and ends on the call after them is reported by one
    line: the length printed is [powerbuf_len + c], modulo 2^64, and the
    time printed is that of the sample counter at the start less
    [powerbuf_len - 1] samples, whatever the length of the chirp. *)
Theorem chirp_report c xs md calls :
  run md xs = Some calls ->
  in_chirp md = false ->
  0 <= powerbuf_len md < 2 ^ SUSCOUNT_bits ->
  map (fun call => in_chirp (fst call)) calls
  = replicate (S c) true ++ [false] ->
  let seconds :=
    SUSCOUNT_of_float
      (F.floor (F.div (F.of_Z (wrap (n md - (powerbuf_len md - 1)))) (fs md))) in
  printed (concat (map snd calls))
  = [(wrap (powerbuf_len md + Z.of_nat c),
      seconds / 3600, (seconds / 60) mod 60, seconds mod 60)].
Proof.
  intros Hrun Hidle Hrange Hflags.
  destruct xs as [|x xs]; [injection Hrun as <-; discriminate|].
  destruct (run_cons _ _ _ _ Hrun) as (md' & evs & rest & Hfeed & Hrest & ->).
  simpl in Hflags. injection Hflags as Hchirp' Hflags.
  destruct (feed_events _ _ _ _ Hfeed) as (fp & out & _ & _ & Hline).
  rewrite Hidle in Hline. simpl in Hline.
  pose proof (feed_chirp_len _ _ _ _ Hfeed) as Hlen.
  rewrite Hidle, Hchirp' in Hlen.
  destruct (feed_fields _ _ _ _ Hfeed)
    as (m & buf & line & _ & _ & _ & _ & _ & _ & _ & _ & _ & Hn & Hfs & _ & Hw & _).
  assert (0 <= chirp_len md' < 2 ^ SUSCOUNT_bits) as Hrange'
      by (rewrite Hlen; exact Hrange).
  simpl. rewrite printed_app, Hline. simpl.
  rewrite (run_chirp_line _ _ _ _ Hrest Hchirp' Hrange' Hflags).
  rewrite Hlen, Hn, Hfs.
  assert (wrap (wrap (n md + 1) - powerbuf_len md)
          = wrap (n md - (powerbuf_len md - 1))) as ->.
  { unfold wrap. rewrite Zminus_mod_idemp_l. f_equal. lia. }
  reflexivity.
Qed.

(** ** The two circular buffers *)

(** The rest of a run, from the state a call left. *)
Lemma run_drop xs : forall md calls k call,
  run md xs = Some calls ->
  calls !! k = Some call ->
  run (fst call) (drop (S k) xs) = Some (drop (S k) calls).
Proof.
  induction xs as [|x xs IH]; intros md calls k call Hrun Hk.
  - injection Hrun as <-. discriminate.
  - destruct (run_cons _ _ _ _ Hrun) as (md' & evs & rest & Hfeed & Hrest & ->).
    destruct k as [|k].
    + injection Hk as <-. simpl. rewrite drop_0. exact Hrest.
    + simpl in Hk. exact (IH _ _ _ _ Hrest Hk).
Qed.

(** The entry of a buffer at an index. *)
Lemma aset_get {A} (a a' : array A) i j v :
  aset a i v = Some a' -> 0 <= i -> 0 <= j ->
  aget a' j = (if i =? j then Some v else aget a j).
Proof.
  intros (Hin & _ & Hcells)%aset_inv Hi Hj. unfold aget. rewrite Hcells.
  destruct (Z.eqb_spec i j) as [->|Hne].
  - apply list_lookup_insert_eq, Hin.
  - apply list_lookup_insert_ne. lia.
Qed.

(** What a call stores at the index, in both buffers; the other cells
    stay. *)
Lemma feed_cells md x md' evs :
  meteo_detect_feed md x = Some (md', evs) ->
  0 <= p md ->
  forall c, 0 <= c ->
    (powerbuf md' ≫= fun buf => aget buf c)
    = (if p md =? c then m_ratio <$> measure md x
       else powerbuf md ≫= fun buf => aget buf c)
    /\ (delay_line md' ≫= fun line => aget line c)
       = (if p md =? c then Some (Cmul (prev md') (SU_C_CONJ (prev md)))
          else delay_line md ≫= fun line => aget line c).
Proof.
  intros (m & buf & line & Hm & Hbuf & Hline & Hbuf' & Hline' & Hsetb & Hsetl
          & _ & Hprev & _)%feed_fields Hp c Hc.
  rewrite Hm, Hbuf, Hline, Hbuf', Hline', Hprev. simpl.
  rewrite (aset_get _ _ _ _ _ Hsetb Hp Hc), (aset_get _ _ _ _ _ Hsetl Hp Hc).
  destruct (p md =? c); split; reflexivity.
Qed.

Lemma mod_pred (a len : Z) :
  0 < len -> 0 < a mod len -> (a - 1) mod len = a mod len - 1.
Proof.
  intros Hlen Ha.
  pose proof (Z.mod_pos_bound a len Hlen) as Hr.
  symmetry. apply (Z.mod_unique_pos _ _ (a / len)); [lia|].
  pose proof (Z.div_mod a len). lia.
Qed.

(** A cell is not written before the index comes round to it. *)
Lemma run_cells xs : forall md calls j call c,
  run md xs = Some calls ->
  steady md ->
  calls !! j = Some call ->
  0 <= c ->
  Z.of_nat j < (c - p md) mod powerbuf_len md ->
  (powerbuf (fst call) ≫= fun buf => aget buf c)
  = (powerbuf md ≫= fun buf => aget buf c)
  /\ (delay_line (fst call) ≫= fun line => aget line c)
     = (delay_line md ≫= fun line => aget line c).
Proof.
  induction xs as [|x xs IH]; intros md calls j call c Hrun Hsteady Hj Hc Hfar.
  - injection Hrun as <-. discriminate.
  - destruct (run_cons _ _ _ _ Hrun) as (md' & evs & rest & Hfeed & Hrest & ->).
    pose proof Hsteady as (Hready & _).
    apply ready_iff in Hready as (_ & _ & _ & _ & _ & _ & Hp & _).
    destruct (feed_steady _ _ _ _ Hfeed Hsteady) as (Hsteady' & Hlen & _ & Hp').
    assert (p md <> c) as Hne.
    { intros <-. rewrite Z.sub_diag, Z.mod_0_l in Hfar by lia. lia. }
    destruct (feed_cells _ _ _ _ Hfeed (proj1 Hp) c Hc) as [Hb Hl].
    apply Z.eqb_neq in Hne. rewrite Hne in Hb, Hl.
    destruct j as [|j].
    + injection Hj as <-. simpl. auto.
    + simpl in Hj.
      destruct (IH _ _ _ _ c Hrest Hsteady' Hj Hc) as [Hb' Hl'].
      * rewrite Hlen, Hp', Zminus_mod_idemp_r.
        replace (c - (p md + 1)) with (c - p md - 1) by lia.
        rewrite mod_pred; lia.
      * simpl. rewrite Hb', Hl'. auto.
Qed.

(** What the call of rank [k] stored is still there [d] calls later, for
    [d] less than the window. *)
Lemma run_history xs md calls k call d later x :
  run md xs = Some calls ->
  steady md ->
  calls !! k = Some call ->
  xs !! k = Some x ->
  calls !! (k + d)%nat = Some later ->
  Z.of_nat d < powerbuf_len md ->
  let i := p (before md calls k) in
  (powerbuf (fst later) ≫= fun buf => aget buf i)
  = m_ratio <$> measure (before md calls k) x
  /\ (delay_line (fst later) ≫= fun line => aget line i)
     = Some (Cmul (prev (fst call)) (SU_C_CONJ (prev (before md calls k)))).
Proof.
  intros Hrun Hsteady Hk Hx Hlater Hd i.
  destruct (run_call _ _ _ _ _ Hrun Hk) as (x' & Hx' & Hfeed).
  assert (x' = x) as -> by congruence.
  destruct (before_steady _ _ _ _ _ Hrun Hsteady Hk) as (Hsb & Hlen).
  pose proof Hsb as (Hready & _).
  apply ready_iff in Hready as (_ & _ & _ & _ & _ & _ & Hp & _).
  fold i in Hp.
  destruct call as [md' evs].
  destruct (feed_cells _ _ _ _ Hfeed (proj1 Hp) i (proj1 Hp)) as [Hb Hl].
  fold i in Hb, Hl. rewrite Z.eqb_refl in Hb, Hl.
  destruct d as [|d].
  - rewrite Nat.add_0_r in Hlater. assert (later = (md', evs)) as -> by congruence.
    auto.
  - destruct (feed_steady _ _ _ _ Hfeed Hsb) as (Hs' & Hlen' & _ & Hp').
    pose proof (run_drop _ _ _ _ _ Hrun Hk) as Hrest.
    assert (drop (S k) calls !! d = Some later) as Hd'.
    { rewrite lookup_drop. rewrite <- Hlater. f_equal. lia. }
    destruct (run_cells _ _ _ _ _ i Hrest Hs' Hd' (proj1 Hp)) as [Hb' Hl'].
    + simpl. rewrite Hlen', Hp', Zminus_mod_idemp_r. fold i.
      replace (i - (i + 1)) with (0 - 1) by lia.
      rewrite Hlen in *.
      rewrite <- (Z.mod_unique_pos (0 - 1) (powerbuf_len md) (-1)
                    (powerbuf_len md - 1)); lia.
    + simpl in Hb', Hl'. rewrite Hb', Hl'. auto.
Qed.

(** X5.  The two buffers are circular and hold the last [powerbuf_len]
    entries: what the call of rank [k] stored at the index, the ratio in
    [powerbuf] and the product of the filtered sample with the conjugate
    of the one before in [delay_line], is still in that cell after each of
    the [powerbuf_len - 1] calls that follow. *)
Theorem buffers_keep_last_window xs md calls k call d later x :
  run md xs = Some calls ->
  steady md ->
  calls !! k = Some call ->
  xs !! k = Some x ->
  calls !! (k + d)%nat = Some later ->
  Z.of_nat d < powerbuf_len md ->
  let i := p (before md calls k) in
  (powerbuf (fst later) ≫= fun buf => aget buf i)
  = m_ratio <$> measure (before md calls k) x
  /\ (delay_line (fst later) ≫= fun line => aget line i)
     = Some (Cmul (prev (fst call)) (SU_C_CONJ (prev (before md calls k)))).
Proof. apply run_history. Qed.

(** The index a call starts from, in a run. *)
Lemma before_index xs md calls k call :
  run md xs = Some calls -> steady md -> calls !! k = Some call ->
  p (before md calls k) = (p md + Z.of_nat k) mod powerbuf_len md.
Proof.
  intros Hrun Hsteady Hk. destruct k as [|k].
  - simpl. destruct Hsteady as (Hready & _).
    apply ready_iff in Hready as (_ & _ & _ & _ & _ & _ & Hp & _).
    rewrite Z.add_0_r, Z.mod_small; [reflexivity|exact Hp].
  - simpl. destruct (calls !! k) as [earlier|] eqn:Hearlier.
    + destruct (run_steady _ _ _ Hrun Hsteady _ _ Hearlier) as (_ & _ & _ & Hp).
      exact Hp.
    + apply lookup_ge_None in Hearlier. apply lookup_lt_Some in Hk. lia.
Qed.

(** X6.  The phase that a call writes is [powerbuf_len - 1] calls old:
    when the flag is on ([chirp_remaining] is not 0 after the call), the
    imaginary part of the sample written is the argument of the product
    that the call [powerbuf_len - 1] ranks earlier put in the delay
    line. *)
Theorem output_delayed_by_window xs md calls k call later :
  run md xs = Some calls ->
  steady md ->
  calls !! k = Some call ->
  calls !! (k + Z.to_nat (powerbuf_len md - 1))%nat = Some later ->
  chirp_remaining (fst later) <> 0 ->
  exists fp out,
    written (snd later) = [(fp, out)]
    /\ im out
       = SU_C_ARG (Cmul (prev (fst call)) (SU_C_CONJ (prev (before md calls k)))).
Proof.
  intros Hrun Hsteady Hk Hlater Htail.
  pose proof Hsteady as (Hready & _).
  apply ready_iff in Hready as (_ & _ & _ & _ & _ & _ & Hp & _).
  destruct (run_call _ _ _ _ _ Hrun Hk) as (x & Hx & _).
  destruct (run_history _ _ _ _ _ _ _ _ Hrun Hsteady Hk Hx Hlater) as [_ Hold];
    [lia|].
  cbv zeta in Hold.
  destruct (run_call _ _ _ _ _ Hrun Hlater) as (x' & _ & Hfeed).
  destruct (before_steady _ _ _ _ _ Hrun Hsteady Hlater) as ((Hready' & _) & _).
  destruct (feed_output _ x' Hready')
    as (md' & evs & fp & out & oldest & Hfeed' & _ & Hout & _ & Hget & _ & Him).
  rewrite Hfeed in Hfeed'. injection Hfeed' as ->. simpl in *.
  assert (p md' = p (before md calls k)) as Hsame.
  { destruct (run_steady _ _ _ Hrun Hsteady _ _ Hlater) as (_ & _ & _ & Hpl).
    simpl in Hpl. rewrite Hpl.
    rewrite (before_index _ _ _ _ _ Hrun Hsteady Hk).
    replace (p md + Z.of_nat (S (k + Z.to_nat (powerbuf_len md - 1))))
      with (p md + Z.of_nat k + 1 * powerbuf_len md) by lia.
    apply Z.mod_add. lia. }
  rewrite Hsame, Hold in Hget. injection Hget as <-.
  apply Z.eqb_neq in Htail. rewrite Htail in Him.
  exists fp, out. auto.
Qed.

(** X7.  A ratio that is not a number freezes the detector for a window:
    on the call that stores it and on the [powerbuf_len - 1] calls that
    follow, the integral is not a number, so the detector neither starts
    nor ends a chirp, and prints nothing. *)
Theorem nan_ratio_freezes_detector xs md calls k call d later x :
  run md xs = Some calls ->
  steady md ->
  calls !! k = Some call ->
  xs !! k = Some x ->
  m_ratio <$> measure (before md calls k) x = Some F.nan ->
  calls !! (k + d)%nat = Some later ->
  Z.of_nat d < powerbuf_len md ->
  in_chirp (fst later) = in_chirp (before md calls (k + d))
  /\ printed (snd later) = [].
Proof.
  intros Hrun Hsteady Hk Hx Hnan Hlater Hd.
  destruct (run_history _ _ _ _ _ _ _ _ Hrun Hsteady Hk Hx Hlater Hd)
    as [Hcell _].
  cbv zeta in Hcell. rewrite Hnan in Hcell.
  destruct (before_steady _ _ _ _ _ Hrun Hsteady Hk) as ((Hready & _) & Hlen).
  apply ready_iff in Hready as (_ & _ & _ & _ & _ & _ & Hp & _).
  destruct (run_call _ _ _ _ _ Hrun Hlater) as (x' & _ & Hfeed).
  destruct (before_steady _ _ _ _ _ Hrun Hsteady Hlater) as (_ & Hlen').
  destruct later as [md' evs].
  destruct (feed_inv _ _ _ _ Hfeed)
    as (m & fp & out & note & Hm & _ & Hupd & _ & Hevs & Hmd').
  destruct (measure_inv _ _ _ Hm)
    as (osc & f1 & f2 & buf & line & _ & _ & _ & _ & _ & Hrest).
  cbv zeta in Hrest.
  destruct Hrest as (_ & _ & _ & _ & _ & _ & _ & _ & _ & _ & Hint).
  assert (powerbuf md' = Some (m_powerbuf m)) as Hbuf'
      by (rewrite Hmd'; reflexivity).
  simpl in Hcell. rewrite Hbuf' in Hcell. simpl in Hcell.
  assert (m_integral m = F.nan) as Hintnan.
  { apply (integrate_nan _ _ (Z.to_nat (p (before md calls k))) _ Hint);
      [lia|exact Hcell]. }
  rewrite Hintnan, chirp_update_cases in Hupd. cbv zeta in Hupd.
  destruct (nan_ltb_geb (energy_thres (before md calls (k + d)))) as [Hlt Hge].
  rewrite Hlt, Hge in Hupd.
  cbn [fst snd]. rewrite Hevs, printed_app.
  destruct (in_chirp (before md calls (k + d)));
    injection Hupd as <- _ _ <-; split; reflexivity.
Qed.

(** ** The samples flagged for a chirp *)

(** The flag of a call of a run is 1.0 when the tail it leaves is not 0
    and the phase is a number. *)
Lemma run_valid xs md calls j call :
  run md xs = Some calls -> steady md -> calls !! j = Some call ->
  valid_data call
  = negb (chirp_remaining (fst call) =? 0) && phase_finite call.
Proof.
  intros Hrun Hsteady Hj.
  destruct (run_call _ _ _ _ _ Hrun Hj) as (x & _ & Hfeed).
  destruct (before_steady _ _ _ _ _ Hrun Hsteady Hj) as ((Hready & _) & _).
  exact (valid_data_tail _ _ _ Hready Hfeed).
Qed.

Lemma idle_flags {A} (f : A -> bool) (l : list A) t :
  map f l = replicate t false -> forallb (fun a => negb (f a)) l = true.
Proof.
  revert t. induction l as [|a l IH]; intros t Hflags; [reflexivity|].
  destruct t as [|t]; [discriminate|]. injection Hflags as Ha Hl.
  simpl. rewrite Ha. exact (IH _ Hl).
Qed.

Lemma chirp_flag {A} (f : A -> bool) (l : list A) c t j a :
  map f l = replicate (S c) true ++ replicate t false ->
  l !! j = Some a -> (j <= c)%nat -> f a = true.
Proof.
  intros Hflags Hj Hle.
  change (map f l) with (f <$> l) in Hflags.
  assert ((f <$> l) !! j = Some (f a)) as Hfa
      by (rewrite list_lookup_fmap, Hj; reflexivity).
  rewrite Hflags in Hfa.
  rewrite lookup_app_l in Hfa by (rewrite length_replicate; lia).
  rewrite lookup_replicate_2 in Hfa by lia. congruence.
Qed.

Lemma idle_after {A} (f : A -> bool) (l : list A) c t :
  map f l = replicate (S c) true ++ replicate t false ->
  forallb (fun a => negb (f a)) (drop (S c) l) = true.
Proof.
  intros Hflags. apply (idle_flags _ _ t).
  change (map f (drop (S c) l)) with (f <$> drop (S c) l).
  rewrite fmap_drop. change (f <$> l) with (map f l). rewrite Hflags.
  rewrite drop_app_length'; [reflexivity|symmetry; apply length_replicate].
Qed.

(** X8.  Calls that leave the detector in a chirp, [S c] of them,
    followed by calls that leave it idle: the tail [chirp_remaining] is
    not 0, so that the flag is on, after each of the first
    [powerbuf_len + c] of these calls, and it is 0 after the calls that
    follow them.  The flag written is 1.0 on the first and 0.0 on the
    second, on every call whose phase is a number.  When the chirp starts
    on the first of these calls, [powerbuf_len + c] is the length that is
    printed for it. *)
Theorem chirp_flags_window_and_chirp c t xs md calls :
  run md xs = Some calls ->
  steady md ->
  map (fun call => in_chirp (fst call)) calls
  = replicate (S c) true ++ replicate t false ->
  forall j call, calls !! j = Some call ->
    negb (chirp_remaining (fst call) =? 0)
    = bool_decide (Z.of_nat j < powerbuf_len md + Z.of_nat c)
    /\ (phase_finite call = true ->
        valid_data call
        = bool_decide (Z.of_nat j < powerbuf_len md + Z.of_nat c)).
Proof.
  intros Hrun Hsteady Hflags j call Hj.
  rewrite (run_valid _ _ _ _ _ Hrun Hsteady Hj).
  assert (negb (chirp_remaining (fst call) =? 0)
          = bool_decide (Z.of_nat j < powerbuf_len md + Z.of_nat c)) as Htail;
    [|split; [exact Htail|intros ->; rewrite Htail; apply andb_true_r]].
  pose proof Hsteady as (Hready & _).
  apply ready_iff in Hready as (_ & _ & _ & _ & _ & _ & Hp & _).
  assert (length calls = (S c + t)%nat) as Hcalls.
  { rewrite <- (length_map (fun call => in_chirp (fst call))), Hflags.
    rewrite length_app, !length_replicate. reflexivity. }
  destruct (Nat.le_gt_cases j c) as [Hin|Hout].
  - pose proof (chirp_flag _ _ _ _ _ _ Hflags Hj Hin) as Hchirp.
    destruct (run_steady _ _ _ Hrun Hsteady _ _ Hj) as ((_ & _ & Hfull) & Hl & _).
    rewrite (Hfull Hchirp), Hl.
    rewrite bool_decide_eq_true_2 by lia.
    destruct (Z.eqb_spec (powerbuf_len md) 0); [lia|reflexivity].
  - destruct (lookup_lt_is_Some_2 calls c) as [last Hlast]; [lia|].
    pose proof (chirp_flag _ _ _ _ _ _ Hflags Hlast (Nat.le_refl c)) as Hchirp.
    destruct (run_steady _ _ _ Hrun Hsteady _ _ Hlast)
      as (Hsteady' & Hl & _).
    pose proof (run_drop _ _ _ _ _ Hrun Hlast) as Hrest.
    pose proof (idle_after _ _ _ _ Hflags) as Hidle.
    assert (drop (S c) calls !! (j - S c)%nat = Some call) as Hj'.
    { rewrite lookup_drop, <- Hj. f_equal. lia. }
    rewrite (run_drain _ _ _ Hrest Hsteady' Hidle _ _ Hj').
    destruct Hsteady' as (_ & _ & Hfull). rewrite (Hfull Hchirp), Hl.
    destruct (Z.eqb_spec (Z.max 0 (powerbuf_len md - Z.of_nat (S (j - S c)))) 0);
      simpl; [rewrite bool_decide_eq_false_2 by lia
             |rewrite bool_decide_eq_true_2 by lia]; reflexivity.
Qed.

(** ** Construction, and what the caller gets *)

(** The three outcomes of [meteo_detect_new]: NULL when the struct cannot
    be allocated, the address of a struct already freed when a later
    acquisition fails, a complete struct otherwise. *)
Lemma new_cases rate fc ofile w :
  let r := meteo_detect_new rate fc ofile w in
  (oracle w !! 0%nat = Some false /\ fst r = None)
  \/ (oracle w !! 0%nat <> Some false
      /\ (exists k, (1 <= k < 6)%nat /\ oracle w !! k = Some false)
      /\ fst r = Some (next w) /\ heap (snd r) !! next w = None)
  \/ ((forall k, (k < 6)%nat -> oracle w !! k <> Some false)
      /\ r = (Some (next w), built rate fc ofile w)).
Proof.
  destruct w as [nx orc hp bl fl ft]. cbv zeta.
  unfold meteo_detect_new, built. repeat draw_case.
  all: cbn [oracle next heap blocks files filters fst snd].
  all: try (left; split; reflexivity).
  all: try (right; left; split; [discriminate|];
            split; [|split; [reflexivity|apply destroy_dangling]];
            first [exists 1%nat; split; [lia|reflexivity]
                  |exists 2%nat; split; [lia|reflexivity]
                  |exists 3%nat; split; [lia|reflexivity]
                  |exists 4%nat; split; [lia|reflexivity]
                  |exists 5%nat; split; [lia|reflexivity]]).
  all: right; right; split;
    [intros k Hk; do 6 (destruct k as [|k]; [discriminate|]); lia|].
  all: world_step; heap_norm; reflexivity.
Qed.

(** A construction in which nothing fails, and the struct it leaves. *)
Lemma new_built rate fc ofile w :
  (forall k, (k < 6)%nat -> oracle w !! k <> Some false) ->
  exists md,
    meteo_detect_new rate fc ofile w = (Some (next w), built rate fc ofile w)
    /\ heap (built rate fc ofile w) !! next w = Some md
    /\ fs md = rate /\ powerbuf_len md = window_len rate
    /\ n md = 0 /\ p md = 0
    /\ in_chirp md = false /\ chirp_remaining md = 0
    /\ n0 md = F.zero /\ s0 md = F.zero /\ prev md = Czero
    /\ powerbuf md
       = Some (Array (1 + next w) (replicate (Z.to_nat (window_len rate)) F.zero))
    /\ delay_line md
       = Some (Array (2 + next w) (replicate (Z.to_nat (window_len rate)) Czero))
    /\ ofp md = Some (3 + next w)%nat
    /\ files (built rate fc ofile w) !! (3 + next w)%nat = Some ofile
    /\ is_Some (lpf1 md) /\ is_Some (lpf2 md) /\ is_Some (lo md).
Proof.
  intros Hok.
  destruct (new_cases rate fc ofile w) as [[Hfail _]|[(_ & (k & Hk & Hfail) & _)|[_ Hnew]]].
  - destruct (Hok 0%nat); [lia|exact Hfail].
  - destruct (Hok k); [lia|exact Hfail].
  - eexists. split; [exact Hnew|].
    unfold built. cbn [heap files]. rewrite !lookup_insert_eq.
    split; [reflexivity|]. simpl. repeat split; eauto.
Qed.

(** X9.  When none of the six acquisitions fails, [meteo_detect_new]
    returns the address of a new struct that owns two new buffers of
    [window_len] zeroed cells, the output file opened on the path given
    and two filters with storage; the detector is idle, with the index,
    the sample counter, the tail and both power estimates at zero. *)
Theorem new_succeeds rate fc ofile w :
  (forall k, (k < 6)%nat -> oracle w !! k <> Some false) ->
  exists md,
    meteo_detect_new rate fc ofile w = (Some (next w), built rate fc ofile w)
    /\ heap (built rate fc ofile w) !! next w = Some md
    /\ fs md = rate /\ powerbuf_len md = window_len rate
    /\ n md = 0 /\ p md = 0
    /\ in_chirp md = false /\ chirp_remaining md = 0
    /\ n0 md = F.zero /\ s0 md = F.zero /\ prev md = Czero
    /\ powerbuf md
       = Some (Array (1 + next w) (replicate (Z.to_nat (window_len rate)) F.zero))
    /\ delay_line md
       = Some (Array (2 + next w) (replicate (Z.to_nat (window_len rate)) Czero))
    /\ ofp md = Some (3 + next w)%nat
    /\ files (built rate fc ofile w) !! (3 + next w)%nat = Some ofile
    /\ is_Some (lpf1 md) /\ is_Some (lpf2 md) /\ is_Some (lo md).
Proof. apply new_built. Qed.

(** ** Destruction *)

(** [meteo_detect_destroy] looks at the footprint of the struct only. *)
Lemma destroy_store new d d' w :
  heap w !! new = Some d ->
  footprint d' = footprint d ->
  meteo_detect_destroy new (store new d' w) = meteo_detect_destroy new w.
Proof.
  intros Hd Hfoot. unfold meteo_detect_destroy, store. cbn [heap].
  rewrite lookup_insert_eq, Hd.
  unfold footprint in Hfoot. injection Hfoot as Hofp Hbuf Hline Hl1 Hl2.
  rewrite Hofp.
  assert (forall (o o' : option su_iir_filt_t) v,
            bool_decide (is_Some o') = bool_decide (is_Some o) ->
            su_iir_filt_finalize o' v = su_iir_filt_finalize o v) as Hfin.
  { intros o o' v Hb.
    assert (is_Some o' <-> is_Some o) as [Hto Hfrom].
    { rewrite <- (bool_decide_eq_true (is_Some o')),
        <- (bool_decide_eq_true (is_Some o)), Hb. reflexivity. }
    destruct o, o'; try reflexivity; exfalso;
      [destruct Hfrom as [? [=]]|destruct Hto as [? [=]]]; eauto. }
  rewrite (Hfin _ _ _ Hl1), (Hfin _ _ _ Hl2).
  destruct (ofp d) as [fp|], (powerbuf d') as [b'|], (powerbuf d) as [b|],
    (delay_line d') as [l'|], (delay_line d) as [l|];
    try discriminate; simpl in Hbuf, Hline;
    try (injection Hbuf as Hbuf); try (injection Hline as Hline);
    unfold fclose, free, free_detect; cbn [heap next oracle blocks files filters];
    rewrite ?Hbuf, ?Hline;
    destruct (lpf1 d), (lpf2 d); cbn [su_iir_filt_finalize heap next oracle blocks files filters];
    rewrite delete_insert_eq; reflexivity.
Qed.

Lemma final_cons md call calls :
  final md (call :: calls) = final (fst call) calls.
Proof.
  unfold final. cbn [map]. rewrite last_cons.
  destruct (last (map fst calls)); reflexivity.
Qed.

Lemma store_store new d d' w :
  store new d' (store new d w) = store new d' w.
Proof. unfold store. cbn. rewrite insert_insert_eq. reflexivity. Qed.

(** The loop of [main] is a run of the detector behind the pointer. *)
Lemma feed_loop_run xs : forall new d w calls,
  heap w !! new = Some d ->
  run d xs = Some calls ->
  feed_loop new xs w
  = Some (store new (final d calls) w, concat (map snd calls)).
Proof.
  induction xs as [|x xs IH]; intros new d w calls Hd Hrun.
  - injection Hrun as <-. simpl. unfold store, final. simpl.
    rewrite (insert_id _ _ _ Hd). destruct w; reflexivity.
  - destruct (run_cons _ _ _ _ Hrun) as (md' & evs & rest & Hfeed & Hrest & ->).
    simpl. rewrite Hd. simpl. rewrite Hfeed. simpl.
    rewrite (IH new md' (store new md' w) rest); [|apply lookup_insert_eq|exact Hrest].
    simpl. rewrite store_store, final_cons. reflexivity.
Qed.

(** The footprint of the state a run leaves. *)
Lemma final_footprint xs md calls :
  run md xs = Some calls -> footprint (final md calls) = footprint md.
Proof.
  intros Hrun. unfold final.
  change (map fst calls) with (fst <$> calls). rewrite fmap_last.
  destruct (last calls) as [call|] eqn:Hlast; [|reflexivity].
  rewrite last_lookup in Hlast. simpl.
  destruct (run_keeps _ _ _ _ _ Hrun Hlast) as (_ & _ & _ & _ & Hfoot & _).
  exact Hfoot.
Qed.

(** What [meteo_detect_destroy] releases of a complete struct. *)
Lemma destroy_owned new d w fp buf line :
  heap w !! new = Some d ->
  ofp d = Some fp -> powerbuf d = Some buf -> delay_line d = Some line ->
  is_Some (lpf1 d) -> is_Some (lpf2 d) ->
  meteo_detect_destroy new w
  = World (next w) (oracle w) (delete new (heap w))
          (blocks w ∖ {[base buf]} ∖ {[base line]}) (delete fp (files w))
          (Nat.pred (Nat.pred (filters w))).
Proof.
  intros Hd Hofp Hbuf Hline [f1 Hf1] [f2 Hf2].
  unfold meteo_detect_destroy. rewrite Hd, Hofp, Hbuf, Hline, Hf1, Hf2.
  reflexivity.
Qed.

(** What is left of a world that was [built] once the struct is destroyed. *)
Lemma destroy_built rate fc ofile w :
  fresh w ->
  let w' := meteo_detect_destroy (next w) (built rate fc ofile w) in
  heap w' = heap w /\ blocks w' = blocks w
  /\ files w' = files w /\ filters w' = filters w.
Proof.
  intros Hfresh.
  destruct (Hfresh (next w)) as (Hheap & _ & _); [lia|].
  destruct (Hfresh (1 + next w)%nat) as (_ & Hb1 & _); [lia|].
  destruct (Hfresh (2 + next w)%nat) as (_ & Hb2 & _); [lia|].
  destruct (Hfresh (3 + next w)%nat) as (_ & _ & Hfile); [lia|].
  cbv zeta.
  rewrite (destroy_owned (next w) _ (built rate fc ofile w) (3 + next w)%nat
             _ _ (lookup_insert_eq _ _ _) eq_refl eq_refl eq_refl
             (ex_intro _ _ eq_refl) (ex_intro _ _ eq_refl)).
  unfold built. cbn [next heap blocks files oracle filters base].
  rewrite !delete_insert_eq, (delete_id _ _ Hheap), (delete_id _ _ Hfile).
  rewrite (alloc_free_two _ _ _ Hb1 Hb2).
  repeat split.
Qed.

(** [meteo_detect_destroy] acquires nothing. *)
Lemma destroy_owned_world new w :
  next (meteo_detect_destroy new w) = next w
  /\ oracle (meteo_detect_destroy new w) = oracle w.
Proof.
  unfold meteo_detect_destroy.
  destruct (heap w !! new) as [d|]; [|auto].
  destruct (ofp d), (powerbuf d), (delay_line d), (lpf1 d), (lpf2 d);
    split; reflexivity.
Qed.

(** The detector that [meteo_detect_new] built is one the invariant holds
    in, when the window fits. *)
Lemma built_steady rate fc ofile w :
  (forall k, (k < 6)%nat -> oracle w !! k <> Some false) ->
  0 < window_len rate < 2 ^ UINT_bits ->
  exists md,
    heap (built rate fc ofile w) !! next w = Some md
    /\ steady md /\ ofp md = Some (3 + next w)%nat.
Proof.
  intros Hok Hlen.
  destruct (new_built rate fc ofile w Hok)
    as (md & Hnew & Hmd & _ & Hwin & _ & _ & _ & _ & _ & _ & _ & _ & _ & Hofp & _).
  exists md. split; [exact Hmd|]. split; [|exact Hofp].
  apply (constructed_steady rate fc ofile w).
  - exists (next w), (built rate fc ofile w). split; assumption.
  - rewrite Hwin. exact Hlen.
Qed.

(** Construction, a run and destruction, in this order. *)
Lemma built_run_destroy rate fc ofile w xs :
  fresh w ->
  (forall k, (k < 6)%nat -> oracle w !! k <> Some false) ->
  0 < window_len rate < 2 ^ UINT_bits ->
  exists md calls,
    heap (built rate fc ofile w) !! next w = Some md
    /\ run md xs = Some calls
    /\ length calls = length xs
    /\ map fst (written (concat (map snd calls)))
       = replicate (length xs) (3 + next w)%nat
    /\ feed_loop (next w) xs (built rate fc ofile w)
       = Some (store (next w) (final md calls) (built rate fc ofile w),
               concat (map snd calls))
    /\ let w' := meteo_detect_destroy (next w)
                   (store (next w) (final md calls) (built rate fc ofile w)) in
       heap w' = heap w /\ blocks w' = blocks w
       /\ files w' = files w /\ filters w' = filters w
       /\ next w' = (4 + next w)%nat /\ oracle w' = drop 6 (oracle w).
Proof.
  intros Hfresh Hok Hlen.
  destruct (built_steady rate fc ofile w Hok Hlen) as (md & Hmd & Hsteady & Hofp).
  pose proof Hsteady as (Hready & _).
  destruct (run_ready xs md Hready) as (calls & Hrun & _).
  destruct (run_counts _ _ _ _ Hrun Hofp) as (Hcalls & Hout & _).
  exists md, calls.
  split; [exact Hmd|]. split; [exact Hrun|]. split; [exact Hcalls|].
  split; [exact Hout|].
  split; [exact (feed_loop_run _ _ _ _ _ Hmd Hrun)|].
  cbv zeta.
  rewrite (destroy_store _ _ _ _ Hmd (final_footprint _ _ _ Hrun)).
  destruct (destroy_built rate fc ofile w Hfresh) as (? & ? & ? & ?).
  repeat split; try assumption.
  - destruct (destroy_owned_world (next w) (built rate fc ofile w)) as [-> _].
    reflexivity.
  - destruct (destroy_owned_world (next w) (built rate fc ofile w)) as [_ ->].
    reflexivity.
Qed.

(** X10.  Construction without a failure, then any run, then
    [meteo_detect_destroy]: every call of the run returns and writes its
    sample on the file that was opened, and after the destruction the
    struct, both buffers, the file and both filters are released: the
    heap, the live blocks, the open files and the filters with storage
    are those of before the construction. *)
Theorem new_run_destroy_releases rate fc ofile w xs :
  fresh w ->
  (forall k, (k < 6)%nat -> oracle w !! k <> Some false) ->
  0 < window_len rate < 2 ^ UINT_bits ->
  exists new w1 md calls,
    meteo_detect_new rate fc ofile w = (Some new, w1)
    /\ heap w1 !! new = Some md
    /\ run md xs = Some calls
    /\ length calls = length xs
    /\ (exists fp, files w1 !! fp = Some ofile
                   /\ map fst (written (concat (map snd calls)))
                      = replicate (length xs) fp)
    /\ let w2 := meteo_detect_destroy new (store new (final md calls) w1) in
       heap w2 = heap w /\ blocks w2 = blocks w
       /\ files w2 = files w /\ filters w2 = filters w.
Proof.
  intros Hfresh Hok Hlen.
  destruct (new_built rate fc ofile w Hok) as (md0 & Hnew & Hmd0 & Hrest).
  do 12 destruct Hrest as [_ Hrest]. destruct Hrest as (Hfile & _).
  destruct (built_run_destroy rate fc ofile w xs Hfresh Hok Hlen)
    as (md & calls & Hmd & Hrun & Hcalls & Hout & _ & Hfree).
  exists (next w), (built rate fc ofile w), md, calls.
  split; [exact Hnew|]. split; [exact Hmd|]. split; [exact Hrun|].
  split; [exact Hcalls|]. split; [eauto|].
  cbv zeta in *. destruct Hfree as (? & ? & ? & ? & _). auto.
Qed.

(** ** [main] *)

Lemma fresh_fopen path w fp w' :
  fresh w -> fopen path w = (Some fp, w') ->
  fp = next w /\ fresh w' /\ oracle w' = drop 1 (oracle w)
  /\ heap w' = heap w /\ blocks w' = blocks w /\ filters w' = filters w
  /\ files w' = <[fp := path]> (files w) /\ files w !! fp = None
  /\ oracle w !! 0%nat <> Some false.
Proof.
  destruct w as [nx orc hp bl fl ft]. intros Hfresh.
  unfold fresh in Hfresh. cbn [next heap blocks files] in Hfresh.
  unfold fopen, draw. cbn [oracle next heap blocks files filters].
  assert (forall rest,
            fresh (World (S nx) rest hp bl (<[nx := path]> fl) ft)) as Hfresh'.
  { intros rest a Ha. cbn [next heap blocks files] in *.
    destruct (Hfresh a) as (? & ? & ?); [lia|].
    rewrite lookup_insert_ne by lia. auto. }
  destruct (Hfresh nx) as (_ & _ & Hnone); [lia|].
  destruct orc as [|[] rest]; intros [= <- <-];
    cbn [oracle next heap blocks files filters];
    repeat split; try apply Hfresh'; try assumption; discriminate.
Qed.

(** A run of [main] in which nothing fails. *)
Lemma main_run prog file disk w :
  fresh w ->
  (forall k, (k < 7)%nat -> oracle w !! k <> Some false) ->
  exists w' evs,
    main [prog; file] disk w = (Returned 0, w', [], evs)
    /\ map fst (written evs) = replicate (length (disk file)) (4 + next w)%nat
    /\ heap w' = heap w /\ blocks w' = blocks w
    /\ files w' = files w /\ filters w' = filters w.
Proof.
  intros Hfresh Hok. unfold main.
  destruct (fopen file w) as [[fp|] w0] eqn:Hopen.
  - destruct (fresh_fopen _ _ _ _ Hfresh Hopen)
      as (-> & Hfresh0 & Horc & Hheap & Hblocks & Hfilters & Hfiles & Hnone & _).
    assert (next w0 = S (next w)) as Hnext.
    { revert Hopen. unfold fopen, draw. destruct w as [nx orc hp bl fl ft].
      cbn [oracle next heap blocks files filters].
      destruct orc as [|[] rest]; intros [= <-]; try reflexivity. }
    assert (forall k, (k < 6)%nat -> oracle w0 !! k <> Some false) as Hok0.
    { intros k Hk. rewrite Horc, lookup_drop. apply Hok. lia. }
    assert (0 < window_len (F.of_Z 8000) < 2 ^ UINT_bits) as Hlen
        by (vm_compute; split; reflexivity).
    destruct (new_built (F.of_Z 8000) (F.of_Z 1000) "detect.raw" w0 Hok0)
      as (md0 & -> & _).
    destruct (built_run_destroy (F.of_Z 8000) (F.of_Z 1000) "detect.raw" w0
                (disk file) Hfresh0 Hok0 Hlen)
      as (md & calls & Hmd & Hrun & Hcalls & Hout & -> & Hfree).
    cbv zeta in Hfree.
    destruct Hfree as (Hh & Hb & Hf & Hft & _).
    assert (heap (store (next w0) (final md calls)
                    (built (F.of_Z 8000) (F.of_Z 1000) "detect.raw" w0))
            !! next w0 = Some (final md calls)) as ->
        by apply lookup_insert_eq.
    do 2 eexists. split; [reflexivity|].
    unfold fclose. cbn [heap blocks files filters].
    rewrite Hh, Hb, Hf, Hft, Hfiles, delete_insert_eq, (delete_id _ _ Hnone).
    rewrite Hout, Hnext. repeat split; try assumption.
  - exfalso. apply (Hok 0%nat); [lia|].
    revert Hopen. unfold fopen, draw. destruct (oracle w) as [|[] rest];
      [discriminate|discriminate|reflexivity].
Qed.

(** X11.  With its two arguments and no failure among the seven
    acquisitions (the input file, then the six of the detector), [main]
    returns 0 whatever the input holds: the detector at 8000 samples per
    second writes one sample for each sample read, all on the file opened
    as detect.raw, and when [main] returns the struct, both buffers, both
    files and both filters are released. *)
Theorem main_returns_and_releases prog file disk w :
  fresh w ->
  (forall k, (k < 7)%nat -> oracle w !! k <> Some false) ->
  exists w' evs,
    main [prog; file] disk w = (Returned 0, w', [], evs)
    /\ map fst (written evs) = replicate (length (disk file)) (4 + next w)%nat
    /\ heap w' = heap w /\ blocks w' = blocks w
    /\ files w' = files w /\ filters w' = filters w.
Proof. apply main_run. Qed.

(** What [fopen] does, by the next outcome of the oracle. *)
Lemma fopen_cases path w :
  (oracle w !! 0%nat = Some false /\ fst (fopen path w) = None
   /\ heap (snd (fopen path w)) = heap w
   /\ blocks (snd (fopen path w)) = blocks w
   /\ files (snd (fopen path w)) = files w
   /\ filters (snd (fopen path w)) = filters w)
  \/ (oracle w !! 0%nat <> Some false /\ fst (fopen path w) = Some (next w)
      /\ oracle (snd (fopen path w)) = drop 1 (oracle w)
      /\ next (snd (fopen path w)) = S (next w)
      /\ heap (snd (fopen path w)) = heap w
      /\ blocks (snd (fopen path w)) = blocks w
      /\ filters (snd (fopen path w)) = filters w).
Proof.
  destruct w as [nx orc hp bl fl ft]. unfold fopen, draw.
  cbn [oracle next heap blocks files filters].
  destruct orc as [|[] rest]; cbn [fst snd oracle next heap blocks files filters].
  - right. repeat split. discriminate.
  - right. repeat split. discriminate.
  - left. repeat split.
Qed.

(** [meteo_detect_new] allocates no struct that stays, unless it
    succeeds. *)
Lemma new_null rate fc ofile w :
  fst (meteo_detect_new rate fc ofile w) = None ->
  oracle w !! 0%nat = Some false
  /\ heap (snd (meteo_detect_new rate fc ofile w)) = heap w
  /\ blocks (snd (meteo_detect_new rate fc ofile w)) = blocks w
  /\ files (snd (meteo_detect_new rate fc ofile w)) = files w
  /\ filters (snd (meteo_detect_new rate fc ofile w)) = filters w.
Proof.
  intros Hnull.
  destruct (new_cases rate fc ofile w)
    as [[Hfail _]|[(_ & _ & Hsome & _)|[_ Hnew]]];
    [|cbv zeta in *; congruence|cbv zeta in *; rewrite Hnew in Hnull; discriminate].
  split; [exact Hfail|].
  destruct w as [nx orc hp bl fl ft]. cbn [oracle] in Hfail.
  destruct orc as [|[] rest]; try discriminate.
  unfold meteo_detect_new. world_step. repeat split.
Qed.

Lemma feed_loop_dangling xs new w r :
  heap w !! new = None -> feed_loop new xs w = Some r -> r = (w, []).
Proof.
  intros Hnone. destruct xs as [|x xs]; simpl.
  - congruence.
  - rewrite Hnone. discriminate.
Qed.

(** The ending of [main], case by case. *)
Lemma main_cases argv disk w :
  let e := fst (fst (fst (main argv disk w))) in
  let w' := snd (fst (fst (main argv disk w))) in
  let errs := snd (fst (main argv disk w)) in
  let evs := snd (main argv disk w) in
  (length argv <> 2%nat /\ e = Exited EXIT_FAILURE
   /\ errs = [Usage (hd ""%string argv)] /\ evs = [] /\ w' = w)
  \/ (length argv = 2%nat /\ oracle w !! 0%nat = Some false
      /\ e = Exited EXIT_FAILURE
      /\ (exists prog file, argv = [prog; file]
                            /\ errs = [CannotOpen prog file])
      /\ evs = []
      /\ heap w' = heap w /\ blocks w' = blocks w
      /\ files w' = files w /\ filters w' = filters w)
  \/ (length argv = 2%nat /\ oracle w !! 0%nat <> Some false
      /\ oracle w !! 1%nat = Some false
      /\ e = Exited EXIT_FAILURE /\ errs = [] /\ evs = []
      /\ heap w' = heap w /\ blocks w' = blocks w /\ filters w' = filters w)
  \/ (length argv = 2%nat /\ oracle w !! 0%nat <> Some false
      /\ oracle w !! 1%nat <> Some false
      /\ (exists k, (2 <= k < 7)%nat /\ oracle w !! k = Some false)
      /\ e = Undefined /\ errs = [])
  \/ (length argv = 2%nat
      /\ (forall k, (k < 7)%nat -> oracle w !! k <> Some false)
      /\ e <> Exited EXIT_FAILURE /\ errs = []).
Proof.
  cbv zeta.
  destruct argv as [|prog [|file [|more argv]]];
    try (left; repeat split; discriminate).
  right. unfold main.
  destruct (fopen_cases file w)
    as [(Hfail & Hnull & Hh & Hb & Hf & Hft)
       |(Hok & Hfp & Horc & Hnext & Hheap & Hblocks & Hfilters)];
    destruct (fopen file w) as [[fp|] w0]; cbn [fst snd] in *;
    try discriminate.
  { left. repeat split; eauto. }
  right.
  pose proof (new_cases (F.of_Z 8000) (F.of_Z 1000) "detect.raw" w0) as Hnew.
  pose proof (new_null (F.of_Z 8000) (F.of_Z 1000) "detect.raw" w0) as Hnull.
  cbv zeta in Hnew.
  destruct (meteo_detect_new (F.of_Z 8000) (F.of_Z 1000) "detect.raw" w0)
    as [[new|] w1]; cbn [fst snd] in *.
  - right.
    destruct Hnew as [[_ Habs]|[(Hok1 & (k & Hk & Hfail) & [= ->] & Hgone)
                               |[Hok6 [= -> ->]]]];
      [discriminate| |].
    + left. rewrite Horc, lookup_drop in Hok1.
      rewrite Horc, lookup_drop in Hfail.
      split; [reflexivity|]. split; [exact Hok|]. split; [exact Hok1|].
      split; [exists (1 + k)%nat; split; [lia|exact Hfail]|].
      destruct (feed_loop (next w0) (disk file) w1) as [r|] eqn:Hloop.
      * rewrite (feed_loop_dangling _ _ _ _ Hgone Hloop), Hgone.
        split; reflexivity.
      * split; reflexivity.
    + right. split; [reflexivity|].
      split.
      { intros k Hk. destruct k as [|k]; [exact Hok|].
        specialize (Hok6 k). rewrite Horc, lookup_drop in Hok6.
        apply Hok6. lia. }
      destruct (feed_loop _ _ _) as [[w2 evs]|];
        [destruct (heap w2 !! next w0)|]; split; (discriminate || reflexivity).
  - left. destruct (Hnull eq_refl) as (Hfail & Hh & Hb & _ & Hft).
    rewrite Horc, lookup_drop in Hfail.
    repeat split; try assumption; congruence.
Qed.

(** X12.  [main] calls [exit] with [EXIT_FAILURE] in three cases and no
    other: the arguments are not two, the input file cannot be opened, the
    struct of the detector cannot be allocated.  It has then written no
    sample and holds no struct, buffer or filter.  In the first case it
    writes the usage line. *)
Theorem main_exits_on_failure argv disk w :
  let '(e, w', errs, evs) := main argv disk w in
  (e = Exited EXIT_FAILURE
   <-> length argv <> 2%nat \/ oracle w !! 0%nat = Some false
       \/ oracle w !! 1%nat = Some false)
  /\ (e = Exited EXIT_FAILURE ->
      evs = [] /\ heap w' = heap w /\ blocks w' = blocks w
      /\ filters w' = filters w)
  /\ (length argv <> 2%nat -> errs = [Usage (hd ""%string argv)]).
Proof.
  pose proof (main_cases argv disk w) as Hcases. cbv zeta in Hcases.
  destruct (main argv disk w) as [[[e w'] errs] evs]. cbn [fst snd] in Hcases.
  destruct Hcases
    as [(Hargs & -> & -> & -> & ->)
       |[(Hargs & Hfail & -> & _ & -> & Hh & Hb & _ & Hft)
        |[(Hargs & Hok & Hfail & -> & -> & -> & Hh & Hb & Hft)
         |[(Hargs & Hok & Hok1 & (k & Hk & Hfail) & -> & ->)
          |(Hargs & Hok & Hne & ->)]]]].
  - repeat split; auto; intros; contradiction.
  - repeat split; auto; intros; contradiction.
  - repeat split; auto; intros; contradiction.
  - repeat split; try discriminate; try contradiction; auto.
    intros [?|[?|?]]; contradiction.
  - repeat split; try contradiction; auto.
    intros [?|[?|?]]; try contradiction.
    + destruct (Hok 0%nat); [lia|assumption].
    + destruct (Hok 1%nat); [lia|assumption].
Qed.

(** X13.  When the detector cannot be completed (one of the five
    acquisitions that follow the struct fails), [main] does not stop: the
    pointer it gets is not NULL, and it goes on with the struct that has
    been freed, in the first call of [meteo_detect_feed] or, with an empty
    input, in [meteo_detect_destroy]. *)
Theorem main_goes_on_with_freed_struct prog file disk w :
  oracle w !! 0%nat <> Some false ->
  oracle w !! 1%nat <> Some false ->
  (exists k, (2 <= k < 7)%nat /\ oracle w !! k = Some false) ->
  fst (fst (fst (main [prog; file] disk w))) = Undefined.
Proof.
  intros Hok Hok1 (k & Hk & Hfail).
  pose proof (main_cases [prog; file] disk w) as Hcases. cbv zeta in Hcases.
  destruct Hcases
    as [(Hargs & _)
       |[(_ & Habs & _)
        |[(_ & _ & Habs & _)
         |[(_ & _ & _ & _ & He & _)
          |(_ & Hall & _)]]]].
  - contradiction Hargs. reflexivity.
  - contradiction.
  - contradiction.
  - exact He.
  - destruct (Hall k); [lia|exact Hfail].
Qed.

(** ** A window that the buffers or the loop cannot hold *)

(** X14.  A detector constructed with an empty window (a sample rate so
    low that [fs * MIN_CHIRP_DURATION] has ceiling 0), or with a window of
    2^32 samples or more, cannot be fed: the first call writes the ratio
    outside the buffer of 0 cells, or the [unsigned int] counter of the
    loop of the integral never reaches [powerbuf_len]. *)
Theorem window_out_of_range_breaks_feed rate fc ofile w md x :
  constructed rate fc ofile w md ->
  ~ 0 < powerbuf_len md < 2 ^ UINT_bits ->
  meteo_detect_feed md x = None.
Proof.
  intros Hnew Hout.
  destruct (meteo_detect_feed md x) as [[md' evs]|] eqn:Hfeed; [|reflexivity].
  exfalso. apply Hout.
  destruct (feed_inv _ _ _ _ Hfeed) as (m & _ & _ & _ & Hm & _).
  destruct (measure_inv _ _ _ Hm)
    as (osc & f1 & f2 & buf & line & _ & _ & _ & Hbuf & _ & Hrest).
  cbv zeta in Hrest.
  destruct Hrest as (_ & _ & _ & _ & _ & _ & _ & Hset & _ & _ & Hint).
  apply constructed_inv in Hnew as (a1 & a2 & fp & ->).
  injection Hbuf as <-. apply aset_inv in Hset as (Hin & _).
  unfold integrate in Hint.
  cbn [cells p powerbuf_len fs initial set_ofp set_delay_line set_powerbuf
       set_window set_lpf2 set_lpf1 set_rate zeroed] in *.
  rewrite length_replicate in Hin.
  split; [lia|].
  destruct (Z.ltb_spec (window_len rate) (2 ^ UINT_bits)); [assumption|].
  discriminate.
Qed.

(** ** The output on a silent input *)

(** X15.  On a silent input a constructed detector prints nothing, and
    every sample it writes is 0.0 + 0.0 i with the flag off.  The two
    filters, as [meteo_detect_new] initialises them, are asked to answer
    silence by silence, and the oscillator, from the state
    [meteo_detect_new] gives it, to produce finite samples. *)
Theorem silence_writes_zeros (quiet : su_iir_filt_t -> Prop)
    (lively : su_ncqo_t -> Prop) rate fc ofile w md k :
  (forall f x, quiet f -> Cis_zero x = true ->
     Cis_zero (fst (su_iir_filt_feed f x)) = true
     /\ quiet (snd (su_iir_filt_feed f x))) ->
  (forall osc, lively osc ->
     Cis_finite (fst (su_ncqo_read osc)) = true
     /\ lively (snd (su_ncqo_read osc))) ->
  quiet (su_iir_bwlpf_init 5 (SU_ABS2NORM_FREQ rate LPF1_CUTOFF)) ->
  quiet (su_iir_bwlpf_init 4 (SU_ABS2NORM_FREQ rate LPF2_CUTOFF)) ->
  lively (su_ncqo_init (SU_ABS2NORM_FREQ rate fc)) ->
  constructed rate fc ofile w md ->
  0 < powerbuf_len md < 2 ^ UINT_bits ->
  Ieee.is_finite (alpha md) = true ->
  exists calls,
    run md (replicate k Czero) = Some calls /\ length calls = k
    /\ forall j call, calls !! j = Some call ->
         printed (snd call) = []
         /\ valid_data call = false
         /\ exists fp out,
              written (snd call) = [(fp, out)]
              /\ re out = F.zero /\ im out = F.zero.
Proof.
  intros Hquiet Hread Hq1 Hq2 Hlive Hnew Hlen Halpha.
  pose proof (constructed_steady _ _ _ _ _ Hnew Hlen) as Hsteady.
  assert (in_chirp md = false /\ chirp_remaining md = 0) as [Hidle0 Htail0].
  { apply constructed_inv in Hnew as (a1 & a2 & fp & ->). split; reflexivity. }
  pose proof (constructed_silent quiet lively _ _ _ _ _ Hq1 Hq2 Hlive Hnew Hlen
                Halpha) as Hsilent.
  destruct (silent_run quiet lively Hquiet Hread k md Hsilent)
    as (calls & Hrun & Hcalls & Hall).
  exists calls. split; [exact Hrun|]. split; [exact Hcalls|].
  intros j call Hj.
  assert (forallb (fun call => negb (in_chirp (fst call))) calls = true)
    as Hidle.
  { apply forallb_forall. intros c Hc. apply list_elem_of_In in Hc.
    apply list_elem_of_lookup in Hc as [i Hi].
    destruct (Hall _ _ Hi) as (_ & _ & -> & _). reflexivity. }
  pose proof (run_drain _ _ _ Hrun Hsteady Hidle _ _ Hj) as Hdrain.
  rewrite Htail0 in Hdrain.
  assert (chirp_remaining (fst call) = 0) as Htail by lia.
  destruct (run_call _ _ _ _ _ Hrun Hj) as (x & _ & Hfeed).
  destruct (before_steady _ _ _ _ _ Hrun Hsteady Hj) as ((Hready & _) & _).
  assert (in_chirp (before md calls j) = false) as Hbefore.
  { destruct j as [|j]; [exact Hidle0|]. simpl.
    destruct (calls !! j) as [earlier|] eqn:Hearlier; simpl.
    - destruct (Hall _ _ Hearlier) as (_ & _ & Hearly & _). exact Hearly.
    - exact Hidle0. }
  destruct call as [md' evs].
  destruct (feed_events _ _ _ _ Hfeed) as (fp' & out' & _ & _ & Hline).
  rewrite Hbefore in Hline.
  split; [exact Hline|].
  rewrite (valid_data_tail _ _ _ Hready Hfeed), Htail.
  split; [reflexivity|].
  destruct (feed_output _ x Hready)
    as (md2 & evs2 & fp & out & oldest & Hfeed' & _ & Hout & _ & _ & Hre & Him).
  rewrite Hfeed in Hfeed'. injection Hfeed' as <- <-.
  simpl in Htail. rewrite Htail in Hre, Him.
  exists fp, out. auto.
Qed.
End Further.

(** * The theorems on runs of the detector

    Each theorem above that has hypotheses is applied here to a run of the
    detector with the collaborators of [Bench]. *)

Section BenchRuns.
Context `{Sigutils}.

(** [Bench.call], [Bench.integral] and the entries of a run are what the
    detector computes, on a complete detector. *)
Lemma call_spec md x :
  ready md = true ->
  meteo_detect_feed md x
  = Some (fst (Bench.call md x), snd (Bench.call md x)).
Proof.
  intros (md' & evs & Hfeed & _)%(feed_ready md x).
  unfold Bench.call. rewrite Hfeed. reflexivity.
Qed.

Lemma integral_spec md x :
  ready md = true ->
  m_integral <$> measure md x = Some (Bench.integral md x).
Proof.
  intros (m & Hm & _)%(measure_ready md x).
  unfold Bench.integral. rewrite Hm. reflexivity.
Qed.

Lemma run_spec md xs :
  ready md = true -> run md xs = Some (default [] (run md xs)).
Proof.
  intros (calls & Hrun & _)%(run_ready xs md). rewrite Hrun. reflexivity.
Qed.

Lemma run_entry md xs k :
  ready md = true -> (k < length xs)%nat ->
  default [] (run md xs) !! k
  = Some (default (md, []) (default [] (run md xs) !! k)).
Proof.
  intros (calls & Hrun & Hlen & _)%(run_ready xs md) Hk. rewrite Hrun. simpl.
  destruct (lookup_lt_is_Some_2 calls k) as [call ->]; [lia|reflexivity].
Qed.

(** With no failure in sight, [meteo_detect_new] constructs a detector at
    the address 0. *)
Lemma boot_constructed rate fc ofile :
  constructed rate fc ofile Bench.boot
    (Bench.detector (meteo_detect_new rate fc ofile Bench.boot)).
Proof.
  exists 0%nat, (snd (meteo_detect_new rate fc ofile Bench.boot)).
  unfold Bench.detector, Bench.boot, meteo_detect_new.
  world_step. heap_norm. split; reflexivity.
Qed.
End BenchRuns.

(** A pass-through detector that is fed a first sample of amplitude 1: the
    two power estimates are equal, the ratio is 1.0, and the integral 1.0
    is the threshold exactly; the chirp starts.  In [Bench.tied] the same
    sample makes the integral 1.0 during a chirp; the chirp goes on. *)
Lemma threshold_tie_on_first_sample :
  let md := @Bench.fresh_detector Bench.allpass in
  let x := Bench.sample 1 in
  (ready md = true /\ in_chirp md = false
   /\ m_integral <$> measure md x = Some F.one
   /\ Ieee.eqb F.one (energy_thres md) = true
   /\ @ready Bench.allpass Bench.tied = true /\ in_chirp Bench.tied = true
   /\ m_integral <$> @measure Bench.allpass Bench.tied x = Some F.one
   /\ Ieee.eqb F.one (energy_thres Bench.tied) = true)
  /\ (exists md' evs,
        meteo_detect_feed md x = Some (md', evs)
        /\ in_chirp md'
           = (if in_chirp md then negb (Ieee.ltb F.one (energy_thres md))
              else Ieee.geb F.one (energy_thres md))
        /\ (Ieee.eqb F.one (energy_thres md) = true -> in_chirp md' = true))
  /\ (exists md' evs,
        @meteo_detect_feed Bench.allpass Bench.tied x = Some (md', evs)
        /\ in_chirp md'
           = (if in_chirp Bench.tied
              then negb (Ieee.ltb F.one (energy_thres Bench.tied))
              else Ieee.geb F.one (energy_thres Bench.tied))
        /\ (Ieee.eqb F.one (energy_thres Bench.tied) = true ->
            in_chirp md' = true)).
Proof.
  intros md x.
  assert (ready md = true) as Hready by (vm_compute; reflexivity).
  assert (in_chirp md = false) as Hidle by (vm_compute; reflexivity).
  assert (m_integral <$> measure md x = Some F.one) as Hint
      by (vm_compute; reflexivity).
  assert (Ieee.eqb F.one (energy_thres md) = true) as Htie
      by (vm_compute; reflexivity).
  assert (@ready Bench.allpass Bench.tied = true) as Hready'
      by (vm_compute; reflexivity).
  assert (in_chirp Bench.tied = true) as Hchirp by (vm_compute; reflexivity).
  assert (m_integral <$> @measure Bench.allpass Bench.tied x = Some F.one)
    as Hint' by (vm_compute; reflexivity).
  assert (Ieee.eqb F.one (energy_thres Bench.tied) = true) as Htie'
      by (vm_compute; reflexivity).
  split; [auto 9|].
  split.
  - exact (threshold_tie_favours_chirp md x F.one Hready Hint).
  - exact (@threshold_tie_favours_chirp Bench.allpass Bench.tied x F.one
             Hready' Hint').
Defined.

(** The same call, seen as the start of a chirp. *)
Lemma idle_to_chirp_on_first_sample :
  let md := @Bench.fresh_detector Bench.allpass in
  let x := Bench.sample 1 in
  let md' := fst (Bench.call md x) in
  (in_chirp md = false /\ in_chirp md' = true)
  /\ (in_chirp md' = true <-> Ieee.geb F.one (energy_thres md) = true)
  /\ (in_chirp md' = true ->
      chirp_len md' = powerbuf_len md /\ chirp_remaining md' = powerbuf_len md).
Proof.
  intros md x md'.
  assert (ready md = true) as Hready by (vm_compute; reflexivity).
  assert (m_integral <$> measure md x = Some F.one) as Hint
      by (vm_compute; reflexivity).
  assert (in_chirp md = false) as Hidle by (vm_compute; reflexivity).
  assert (in_chirp md' = true) as Hchirp by (vm_compute; reflexivity).
  split; [split; assumption|].
  exact (idle_to_chirp_sets_window md x md' _ F.one (call_spec md x Hready)
           Hint Hidle).
Defined.

(** The call that ends the chirp of [Bench.late]: one line is printed, with
    the length 5 and the time of 16777259 samples at 30 samples per second
    in single precision, 155:20:42. *)
Lemma chirp_end_on_late_sample :
  let md := Bench.late in
  let x := Bench.sample 1 in
  let md' := fst (@Bench.call Bench.differencing md x) in
  let evs := snd (@Bench.call Bench.differencing md x) in
  let integral := @Bench.integral Bench.differencing md x in
  (in_chirp md = true /\ in_chirp md' = false
   /\ n md - chirp_len md = 16777259
   /\ printed evs = [(5, 155, 20, 42)])
  /\ (in_chirp md' = false <-> Ieee.ltb integral (energy_thres md) = true)
  /\ (in_chirp md' = false ->
      chirp_len md' = chirp_len md
      /\ exists hours minutes seconds,
          printed evs = [(chirp_len md, hours, minutes, seconds)]
          /\ (0 <= chirp_len md <= n md -> n md < 2 ^ SUSCOUNT_bits ->
              let time :=
                SUSCOUNT_of_float
                  (F.floor (F.div (F.of_Z (n md - chirp_len md)) (fs md))) in
              (hours, minutes, seconds)
              = (time / 3600, (time / 60) mod 60, time mod 60)))
  /\ (in_chirp md' = true ->
      printed evs = [] /\ chirp_len md' = wrap (chirp_len md + 1)).
Proof.
  intros md x md' evs integral.
  assert (ready md = true) as Hready by (vm_compute; reflexivity).
  assert (in_chirp md = true) as Hchirp by (vm_compute; reflexivity).
  assert (in_chirp md' = false) as Hidle by (vm_compute; reflexivity).
  assert (n md - chirp_len md = 16777259) as Hcount
      by (vm_compute; reflexivity).
  assert (printed evs = [(5, 155, 20, 42)]) as Hline
      by (vm_compute; reflexivity).
  split; [auto 6|].
  exact (chirp_end_notice md x md' evs integral (call_spec md x Hready)
           (integral_spec md x Hready) Hchirp).
Defined.

(** C5, as the specification states it, against the code.  The chirp of
    [Bench.early] started on the first call of the run: at its end the
    sample counter is 3 and [chirp_len] is 5, the unsigned difference
    wraps, and the line gives 170803194775761:21:04.  The chirp of
    [Bench.late] ends 16777259 samples after its start, a count that
    single precision rounds to 16777260: the line gives 155:20:42, and
    the floor of 16777259 / 30 is 559241 seconds, 155:20:41. *)
Lemma timestamp_not_as_specified :
  (printed (snd (@Bench.call Bench.differencing Bench.early (Bench.sample 1)))
   = [(5, 170803194775761, 21, 4)]
   /\ @seconds_as_specified Bench.differencing Bench.early = -1
   /\ printed (snd (@Bench.call Bench.differencing Bench.late (Bench.sample 1)))
      = [(5, 155, 20, 42)]
   /\ @seconds_as_specified Bench.differencing Bench.late = 559241)
  /\ ~ @chirp_end_as_specified Bench.differencing Bench.early (Bench.sample 1)
  /\ ~ @chirp_end_as_specified Bench.differencing Bench.late (Bench.sample 1).
Proof.
  split; [repeat split; vm_compute; reflexivity|].
  split; intros Hspec.
  - assert (@ready Bench.differencing Bench.early = true) as Hready
        by (vm_compute; reflexivity).
    specialize (Hspec _ _ (call_spec Bench.early (Bench.sample 1) Hready)).
    assert (printed (snd (@Bench.call Bench.differencing Bench.early
                            (Bench.sample 1)))
            = [(5, 170803194775761, 21, 4)]) as Hline
        by (vm_compute; reflexivity).
    assert (@seconds_as_specified Bench.differencing Bench.early = -1) as Hsec
        by (vm_compute; reflexivity).
    cbv zeta in Hspec. rewrite Hline, Hsec in Hspec.
    assert ([(5, 170803194775761, 21, 4)]
            = [(chirp_len Bench.early, -1 / 3600, (-1 / 60) mod 60,
                -1 mod 60)] -> False) as Hne
        by (vm_compute; discriminate).
    apply Hne, Hspec; vm_compute; reflexivity.
  - assert (@ready Bench.differencing Bench.late = true) as Hready
        by (vm_compute; reflexivity).
    specialize (Hspec _ _ (call_spec Bench.late (Bench.sample 1) Hready)).
    assert (printed (snd (@Bench.call Bench.differencing Bench.late
                            (Bench.sample 1)))
            = [(5, 155, 20, 42)]) as Hline by (vm_compute; reflexivity).
    assert (@seconds_as_specified Bench.differencing Bench.late = 559241)
      as Hsec by (vm_compute; reflexivity).
    cbv zeta in Hspec. rewrite Hline, Hsec in Hspec.
    assert ([(5, 155, 20, 42)]
            = [(chirp_len Bench.late, 559241 / 3600, (559241 / 60) mod 60,
                559241 mod 60)] -> False) as Hne
        by (vm_compute; discriminate).
    apply Hne, Hspec; vm_compute; reflexivity.
Qed.

(** The call that follows 1, not-a-number, 1 on a pass-through detector:
    the detector is in a chirp and the tail is 3, the phase read from the
    delay line is a NaN, and the sample written is NaN + NaN i: the flag
    is neither 1.0 nor 0.0. *)
Lemma flag_on_a_garbage_phase :
  let md := Bench.poisoned in
  let x := Bench.sample 1 in
  (@ready Bench.allpass md = true
   /\ chirp_remaining (fst (@Bench.call Bench.allpass md x)) = 3
   /\ phase (fst (@Bench.call Bench.allpass md x)) = Some F.nan
   /\ map snd (written (snd (@Bench.call Bench.allpass md x)))
      = [Complex F.nan F.nan])
  /\ exists md' evs fp out oldest,
      @meteo_detect_feed Bench.allpass md x = Some (md', evs)
      /\ ofp md = Some fp
      /\ written evs = [(fp, out)]
      /\ p md' = (p md + 1) mod powerbuf_len md
      /\ (delay_line md' ≫= fun line => aget line (p md')) = Some oldest
      /\ re out = (if chirp_remaining md' =? 0 then F.zero
                   else F.add F.one
                          (F.mul F.zero (@SU_C_ARG Bench.allpass oldest)))
      /\ (Ieee.is_finite (@SU_C_ARG Bench.allpass oldest) = true ->
          re out = (if chirp_remaining md' =? 0 then F.zero else F.one))
      /\ (@SU_C_ARG Bench.allpass oldest = F.nan ->
          re out = (if chirp_remaining md' =? 0 then F.zero else F.nan))
      /\ im out = (if chirp_remaining md' =? 0 then F.zero
                   else @SU_C_ARG Bench.allpass oldest).
Proof.
  intros md x.
  assert (@ready Bench.allpass md = true) as Hready
      by (vm_compute; reflexivity).
  split; [split; [exact Hready|repeat split; vm_compute; reflexivity]|].
  exact (@feed_writes_one_sample Bench.allpass md x Hready).
Defined.

(** C6, as the specification states it, against the code.  On that call
    [chirp_remaining] is 3 after the call, and the real part of the sample
    written is a NaN, not 1.0. *)
Lemma flag_not_as_specified :
  (chirp_remaining (fst (@Bench.call Bench.allpass Bench.poisoned
                           (Bench.sample 1))) = 3
   /\ map snd (written (snd (@Bench.call Bench.allpass Bench.poisoned
                               (Bench.sample 1))))
      = [Complex F.nan F.nan])
  /\ ~ @output_as_specified Bench.allpass Bench.poisoned (Bench.sample 1).
Proof.
  split; [split; vm_compute; reflexivity|].
  intros Hspec.
  assert (@ready Bench.allpass Bench.poisoned = true) as Hready
      by (vm_compute; reflexivity).
  destruct (Hspec _ _ (call_spec Bench.poisoned (Bench.sample 1) Hready))
    as (fp & out & Hout & Hre & _).
  assert (written (snd (@Bench.call Bench.allpass Bench.poisoned
                          (Bench.sample 1)))
          = [(3%nat, Complex F.nan F.nan)]) as Hwritten
      by (vm_compute; reflexivity).
  assert (chirp_remaining (fst (@Bench.call Bench.allpass Bench.poisoned
                                  (Bench.sample 1))) = 3) as Htail
      by (vm_compute; reflexivity).
  rewrite Hwritten in Hout. injection Hout as _ <-.
  rewrite Htail in Hre. discriminate Hre.
Qed.

(** Construction at 30 samples per second, and a run of four samples. *)
Lemma index_and_tail_on_a_run :
  let md := @Bench.fresh_detector Bench.delayed in
  let xs := map Bench.sample [1; 1; 1; 10] in
  (@constructed Bench.delayed (F.of_Z 30) F.zero "detect.raw" Bench.boot md
   /\ 0 < powerbuf_len md < 2 ^ UINT_bits)
  /\ (0 <= p md < powerbuf_len md /\ chirp_remaining md <= powerbuf_len md)
  /\ exists calls,
      run md xs = Some calls /\ length calls = length xs
      /\ forall k call, calls !! k = Some call ->
           0 <= p (fst call) < powerbuf_len (fst call)
           /\ p (fst call) = Z.of_nat (S k) mod powerbuf_len md
           /\ 0 <= chirp_remaining (fst call) <= powerbuf_len (fst call)
           /\ powerbuf_len (fst call) = powerbuf_len md.
Proof.
  intros md xs.
  pose proof (@boot_constructed Bench.delayed (F.of_Z 30) F.zero "detect.raw")
    as Hnew.
  assert (0 < powerbuf_len md < 2 ^ UINT_bits) as Hlen
      by (vm_compute; split; reflexivity).
  split; [split; assumption|].
  exact (index_and_tail_within_window _ _ _ _ md xs Hnew Hlen).
Defined.

(** At 8000 samples per second the window is 560 samples, and the
    threshold is 560 / 3 rounded to single precision. *)
Lemma window_and_threshold_at_8000 :
  let md :=
    Bench.detector (@meteo_detect_new Bench.allpass (F.of_Z 8000) (F.of_Z 1000)
                      "detect.raw" Bench.boot) in
  @constructed Bench.allpass (F.of_Z 8000) (F.of_Z 1000) "detect.raw"
    Bench.boot md
  /\ (powerbuf_len md = 560
      /\ energy_thres md = SpecFloat.S754_finite false 12233387 (-16))
  /\ (fs md = F.of_Z 8000
      /\ powerbuf_len md
         = SUSCOUNT_of_float
             (F.ceil (F.of_double (D.mul (D.of_single (F.of_Z 8000))
                                         MIN_CHIRP_DURATION)))
      /\ energy_thres md
         = F.of_double (D.mul POWER_THRESHOLD (D.of_Z (powerbuf_len md)))
      /\ POWER_THRESHOLD = D.mul (D.of_Z 2) (D.div LPF2_CUTOFF LPF1_CUTOFF))
  /\ forall xs calls k call,
       run md xs = Some calls -> calls !! k = Some call ->
       powerbuf_len (fst call) = powerbuf_len md
       /\ energy_thres (fst call) = energy_thres md.
Proof.
  intros md.
  pose proof (@boot_constructed Bench.allpass (F.of_Z 8000) (F.of_Z 1000)
                "detect.raw") as Hnew.
  split; [exact Hnew|].
  split; [split; vm_compute; reflexivity|].
  exact (constructed_window_and_threshold _ _ _ _ md Hnew).
Defined.

(** The filters of [Bench] stay at rest on silence. *)
Lemma scale_zero t z :
  Ieee.is_finite t = true -> Cis_zero z = true ->
  Cis_zero (Bench.scale t z) = true.
Proof.
  destruct z as [[sa|sa| |sa ma ea] [sb|sb| |sb mb eb]]; try discriminate.
  destruct t as [s|s| |s m e]; try discriminate; reflexivity.
Qed.

Lemma Cadd_zero z w :
  Cis_zero z = true -> Cis_zero w = true -> Cis_zero (Bench.Cadd z w) = true.
Proof.
  destruct z as [[sa|sa| |sa ma ea] [sb|sb| |sb mb eb]]; try discriminate.
  destruct w as [[sc|sc| |sc mc ec] [sd|sd| |sd md ed]]; try discriminate.
  destruct sa, sb, sc, sd; reflexivity.
Qed.

Lemma fir_sum_zero taps : forall recent acc,
  Forall (fun t => Ieee.is_finite t = true) taps ->
  Forall (fun z => Cis_zero z = true) recent ->
  Cis_zero acc = true ->
  Cis_zero (foldl Bench.Cadd acc (zip_with Bench.scale taps recent)) = true.
Proof.
  induction taps as [|t taps IH]; intros recent acc Htaps Hrecent Hacc.
  - exact Hacc.
  - destruct recent as [|z recent]; [exact Hacc|].
    inversion Htaps; inversion Hrecent; subst. simpl.
    apply IH; try assumption.
    apply Cadd_zero; [exact Hacc|]. apply scale_zero; assumption.
Qed.

Lemma fir_rest_feed f x :
  Bench.rest f -> Cis_zero x = true ->
  Cis_zero (fst (Bench.fir_feed f x)) = true
  /\ Bench.rest (snd (Bench.fir_feed f x)).
Proof.
  intros [Htaps Hpast] Hx.
  assert (Forall (fun z => Cis_zero z = true)
            (take (length (Bench.taps f)) (x :: Bench.past f))) as Hrecent
      by (apply Forall_take; constructor; assumption).
  split.
  - apply fir_sum_zero; [assumption|assumption|reflexivity].
  - split; assumption.
Qed.

Lemma delayed_rest_init order fnor :
  Bench.rest (@su_iir_bwlpf_init Bench.delayed order fnor).
Proof. simpl. destruct (order =? 5); split; repeat constructor. Qed.

(** A detector that hears nothing, for five calls.  The filters of [Bench]
    are at rest when they are initialised, whatever the cutoff, and its
    oscillator has one state. *)
Lemma silence_on_a_run :
  let md := @Bench.fresh_detector Bench.delayed in
  let rate := F.of_Z 30 in
  ((forall f x, Bench.rest f -> Cis_zero x = true ->
      Cis_zero (fst (@su_iir_filt_feed Bench.delayed f x)) = true
      /\ Bench.rest (snd (@su_iir_filt_feed Bench.delayed f x)))
   /\ (forall osc : @su_ncqo_t Bench.delayed, True ->
       Cis_finite (fst (@su_ncqo_read Bench.delayed osc)) = true /\ True)
   /\ Bench.rest (@su_iir_bwlpf_init Bench.delayed 5
                    (@SU_ABS2NORM_FREQ Bench.delayed rate LPF1_CUTOFF))
   /\ Bench.rest (@su_iir_bwlpf_init Bench.delayed 4
                    (@SU_ABS2NORM_FREQ Bench.delayed rate LPF2_CUTOFF))
   /\ @constructed Bench.delayed rate F.zero "detect.raw" Bench.boot md
   /\ 0 < powerbuf_len md < 2 ^ UINT_bits
   /\ Ieee.is_finite (alpha md) = true)
  /\ exists calls,
      run md (replicate 5 Czero) = Some calls /\ length calls = 5%nat
      /\ forall j call, calls !! j = Some call ->
           n0 (fst call) = F.zero /\ s0 (fst call) = F.zero
           /\ in_chirp (fst call) = false
           /\ m_ratio <$> measure (before md calls j) Czero
              = Some (F.div (s0 (fst call)) (n0 (fst call)))
           /\ F.div (s0 (fst call)) (n0 (fst call)) = F.nan
           /\ Ieee.geb F.nan (energy_thres md) = false.
Proof.
  intros md rate.
  pose proof (@boot_constructed Bench.delayed rate F.zero "detect.raw")
    as Hnew.
  assert (0 < powerbuf_len md < 2 ^ UINT_bits) as Hlen
      by (vm_compute; split; reflexivity).
  assert (Ieee.is_finite (alpha md) = true) as Halpha
      by (vm_compute; reflexivity).
  pose proof (fun (osc : @su_ncqo_t Bench.delayed) (_ : True) =>
                conj (eq_refl true) I) as Hread.
  split.
  { split; [exact fir_rest_feed|]. split; [exact Hread|].
    split; [apply delayed_rest_init|]. split; [apply delayed_rest_init|].
    auto. }
  exact (@silent_input_never_chirps Bench.delayed Bench.rest (fun _ => True)
           fir_rest_feed Hread rate F.zero "detect.raw" Bench.boot md 5
           (delayed_rest_init _ _) (delayed_rest_init _ _) I Hnew Hlen Halpha).
Defined.

(** A pass-through detector that reads 1, not-a-number, 1, 1.  The chirp
    starts on the first call and goes on.  On the fourth call the tail is
    the window, the phase read from the delay line is a NaN, and so is the
    real part of the sample written. *)
Lemma flag_in_chirp_on_garbage :
  let md := @Bench.fresh_detector Bench.allpass in
  let xs := [Bench.sample 1; Bench.garbage; Bench.sample 1; Bench.sample 1] in
  let calls := default [] (run md xs) in
  let call := default (md, []) (calls !! 3%nat) in
  (@constructed Bench.allpass (F.of_Z 30) F.zero "detect.raw" Bench.boot md
   /\ 0 < powerbuf_len md < 2 ^ UINT_bits
   /\ run md xs = Some calls
   /\ calls !! 3%nat = Some call
   /\ in_chirp (fst call) = true
   /\ map snd (written (snd call)) = [Complex F.nan F.nan])
  /\ chirp_remaining (fst call) = powerbuf_len md
  /\ chirp_remaining (fst call) <> 0
  /\ exists fp out angle,
      written (snd call) = [(fp, out)]
      /\ phase (fst call) = Some angle
      /\ re out = F.add F.one (F.mul F.zero angle)
      /\ (Ieee.is_finite angle = true -> re out = F.one)
      /\ (angle = F.nan -> re out = F.nan).
Proof.
  intros md xs calls call.
  pose proof (@boot_constructed Bench.allpass (F.of_Z 30) F.zero "detect.raw")
    as Hnew.
  assert (ready md = true) as Hready by (vm_compute; reflexivity).
  assert (0 < powerbuf_len md < 2 ^ UINT_bits) as Hlen
      by (vm_compute; split; reflexivity).
  pose proof (run_spec md xs Hready) as Hrun.
  assert (calls !! 3%nat = Some call) as Hcall
      by (apply (run_entry md xs 3 Hready); vm_compute; lia).
  assert (in_chirp (fst call) = true) as Hchirp by (vm_compute; reflexivity).
  assert (map snd (written (snd call)) = [Complex F.nan F.nan]) as Hout
      by (vm_compute; reflexivity).
  split; [auto 7|].
  exact (tail_full_during_chirp _ _ _ _ md xs calls Hnew Hlen Hrun 3%nat call
           Hcall Hchirp).
Defined.

(** C10, as the specification states it, against the code.  The fourth
    call of that run leaves the detector in a chirp, and the real part of
    the sample it writes is a NaN, not 1.0. *)
Lemma flag_in_chirp_not_as_specified :
  let md := @Bench.fresh_detector Bench.allpass in
  let xs := [Bench.sample 1; Bench.garbage; Bench.sample 1; Bench.sample 1] in
  (map (fun call => in_chirp (fst call)) (default [] (run md xs))
   = [true; true; true; true]
   /\ map (fun call => map snd (written (snd call))) (default [] (run md xs))
      = [[Complex F.one F.zero]; [Complex F.one F.zero];
         [Complex F.one F.zero]; [Complex F.nan F.nan]])
  /\ ~ flag_as_specified md xs.
Proof.
  intros md xs.
  split; [split; vm_compute; reflexivity|].
  intros Hspec.
  assert (ready md = true) as Hready by (vm_compute; reflexivity).
  pose proof (run_spec md xs Hready) as Hrun.
  assert (default [] (run md xs) !! 3%nat
          = Some (default (md, []) (default [] (run md xs) !! 3%nat))) as Hcall
      by (apply (run_entry md xs 3 Hready); vm_compute; lia).
  assert (in_chirp (fst (default (md, []) (default [] (run md xs) !! 3%nat)))
          = true) as Hchirp by (vm_compute; reflexivity).
  destruct (Hspec _ _ _ Hrun Hcall Hchirp) as (_ & fp & out & Hout & Hre).
  assert (written (snd (default (md, []) (default [] (run md xs) !! 3%nat)))
          = [(3%nat, Complex F.nan F.nan)]) as Hwritten
      by (vm_compute; reflexivity).
  rewrite Hwritten in Hout. injection Hout as _ <-.
  discriminate Hre.
Qed.

(** The output file cannot be opened: the five acquisitions before it
    succeed.  Everything is released, and the address 0 of the freed
    struct is returned. *)
Lemma new_when_fopen_fails :
  let w := @World Bench.allpass 0 [true; true; true; true; true; false]
             ∅ ∅ ∅ 0 in
  let r := fst (meteo_detect_new (F.of_Z 8000) (F.of_Z 1000) "detect.raw" w) in
  let w' := snd (meteo_detect_new (F.of_Z 8000) (F.of_Z 1000) "detect.raw" w) in
  (fresh w /\ acquisition_fails w /\ r = Some 0%nat)
  /\ (r = None <-> oracle w !! 0%nat = Some false)
  /\ (forall new, r = Some new -> new = next w /\ heap w' !! new = None)
  /\ heap w' = heap w /\ blocks w' = blocks w
  /\ files w' = files w /\ filters w' = filters w.
Proof.
  intros w r w'.
  assert (fresh w) as Hfresh.
  { intros a _. simpl. rewrite !lookup_empty. split; [reflexivity|].
    split; [apply not_elem_of_empty|reflexivity]. }
  assert (acquisition_fails w) as Hfails.
  { exists 5%nat. split; [repeat constructor|reflexivity]. }
  assert (r = Some 0%nat) as Hr by (vm_compute; reflexivity).
  split; [auto|].
  exact (new_failure_returns_freed_pointer _ _ _ w r w' Hfresh Hfails
           (surjective_pairing _)).
Defined.

(** [Bench.chirping] is a state the invariant holds in. *)
Lemma chirping_steady : @steady Bench.delayed Bench.chirping.
Proof.
  split; [vm_compute; reflexivity|].
  assert (chirp_remaining Bench.chirping = 3) as -> by (vm_compute; reflexivity).
  assert (powerbuf_len Bench.chirping = 3) as -> by (vm_compute; reflexivity).
  split; [lia|reflexivity].
Qed.

(** The tail after the chirp of [Bench.chirping], which ends on the first
    sample of [Bench.fading]. *)
Lemma tail_drains_on_fading_input :
  let md := Bench.chirping in
  let calls := default [] (@run Bench.delayed md Bench.fading) in
  let call := default (md, []) (calls !! 0%nat) in
  (@steady Bench.delayed md /\ in_chirp md = true
   /\ @run Bench.delayed md Bench.fading = Some calls
   /\ forallb (fun call => negb (in_chirp (fst call))) calls = true
   /\ calls !! 0%nat = Some call
   /\ @phase_finite Bench.delayed call = true)
  /\ chirp_remaining (fst call) = Z.max 0 (powerbuf_len md - Z.of_nat 1)
  /\ (@phase_finite Bench.delayed call = true ->
      valid_data call = (Z.of_nat 1 <? powerbuf_len md)).
Proof.
  intros md calls call.
  pose proof chirping_steady as Hsteady.
  pose proof Hsteady as [Hready _].
  assert (in_chirp md = true) as Hchirp by (vm_compute; reflexivity).
  pose proof (run_spec md Bench.fading Hready) as Hrun.
  assert (forallb (fun call => negb (in_chirp (fst call))) calls = true)
    as Hidle by (vm_compute; reflexivity).
  assert (calls !! 0%nat = Some call) as Hcall
      by (apply (run_entry md Bench.fading 0 Hready); vm_compute; lia).
  assert (@phase_finite Bench.delayed call = true) as Hphase
      by (vm_compute; reflexivity).
  split; [auto 7|].
  exact (tail_drains_after_chirp md Bench.fading calls Hsteady Hchirp Hrun Hidle
           0%nat call Hcall).
Defined.

(** C2, as the specification states it, against the code.  The window of
    [Bench.chirping] is 3 samples.  On the three calls of [Bench.fading]
    the chirp ends and none starts; the tail goes 2, 1, 0 and the flag is
    1.0 on two calls only: the call that brings the tail to 0 writes the
    flag 0.0. *)
Lemma tail_flag_one_call_short :
  (powerbuf_len Bench.chirping = 3
   /\ (map (fun call => chirp_remaining (fst call))
           (default [] (@run Bench.delayed Bench.chirping Bench.fading))
       = [2; 1; 0])
   /\ map valid_data
          (default [] (@run Bench.delayed Bench.chirping Bench.fading))
      = [true; true; false])
  /\ ~ @tail_as_specified Bench.delayed Bench.chirping Bench.fading.
Proof.
  split; [repeat split; vm_compute; reflexivity|].
  intros Hspec.
  pose proof chirping_steady as Hsteady.
  pose proof Hsteady as [Hready _].
  destruct (Hspec Hsteady)
    with (calls := default [] (@run Bench.delayed Bench.chirping Bench.fading))
    as [_ Hcount];
    [vm_compute; reflexivity | vm_compute; reflexivity
    | exact (run_spec _ _ Hready) | vm_compute; reflexivity |].
  vm_compute in Hcount. discriminate Hcount.
Qed.

(** * The further properties, on runs of the detector and of [main] *)

(** The third call of a run of four, on a detector for 30 samples per
    second: the configuration and the footprint are those of the start. *)
Lemma configuration_on_a_run :
  let md := @Bench.fresh_detector Bench.delayed in
  let xs := map Bench.sample [1; 1; 1; 10] in
  let calls := default [] (run md xs) in
  let call := default (md, []) (calls !! 2%nat) in
  (run md xs = Some calls /\ calls !! 2%nat = Some call)
  /\ fs (fst call) = fs md /\ alpha (fst call) = alpha md
  /\ powerbuf_len (fst call) = powerbuf_len md
  /\ energy_thres (fst call) = energy_thres md
  /\ footprint (fst call) = footprint md
  /\ (fun a => length (cells a)) <$> powerbuf (fst call)
     = (fun a => length (cells a)) <$> powerbuf md
  /\ (fun a => length (cells a)) <$> delay_line (fst call)
     = (fun a => length (cells a)) <$> delay_line md.
Proof.
  intros md xs calls call.
  assert (ready md = true) as Hready by (vm_compute; reflexivity).
  pose proof (run_spec md xs Hready) as Hrun.
  assert (calls !! 2%nat = Some call) as Hcall
      by (apply (run_entry md xs 2 Hready); vm_compute; lia).
  split; [auto|].
  exact (run_keeps_configuration xs md calls 2%nat call Hrun Hcall).
Defined.


(** The same run: four samples written on the file 3, and the counter at
    3 after the third call. *)
Lemma one_sample_per_call_on_a_run :
  let md := @Bench.fresh_detector Bench.delayed in
  let xs := map Bench.sample [1; 1; 1; 10] in
  let calls := default [] (run md xs) in
  (run md xs = Some calls /\ ofp md = Some 3%nat)
  /\ length calls = length xs
  /\ map fst (written (concat (map snd calls))) = replicate (length xs) 3%nat
  /\ forall k call, calls !! k = Some call ->
       n (fst call) = wrap (n md + Z.of_nat (S k)).
Proof.
  intros md xs calls.
  assert (ready md = true) as Hready by (vm_compute; reflexivity).
  pose proof (run_spec md xs Hready) as Hrun.
  assert (ofp md = Some 3%nat) as Hofp by (vm_compute; reflexivity).
  split; [auto|].
  exact (run_writes_one_sample_per_call xs md calls 3%nat Hrun Hofp).
Defined.


(** A run of seven samples in which one chirp starts and ends: one line. *)
Lemma one_line_on_a_run :
  let md := @Bench.fresh_detector Bench.delayed in
  let xs := map Bench.sample [1; 1; 1; 10; 100; 1000; 10000] in
  let calls := default [] (run md xs) in
  (run md xs = Some calls
   /\ map (fun call => in_chirp (fst call)) calls
      = [false; false; true; true; false; false; false])
  /\ length (printed (concat (map snd calls)))
     = chirp_ends (in_chirp md) (map (fun call => in_chirp (fst call)) calls).
Proof.
  intros md xs calls.
  assert (ready md = true) as Hready by (vm_compute; reflexivity).
  pose proof (run_spec md xs Hready) as Hrun.
  split; [split; [exact Hrun|vm_compute; reflexivity]|].
  exact (run_prints_one_line_per_chirp_end xs md calls Hrun).
Defined.


(** The chirp of that run, from the state after its first two samples: it
    starts on the next call, goes on for one call more and ends; the line
    gives the length 4 and the time 00:00:00. *)
Lemma chirp_report_on_a_run :
  let md :=
    @Bench.state_after Bench.delayed (@Bench.fresh_detector Bench.delayed)
      (map Bench.sample [1; 1]) in
  let xs := map Bench.sample [1; 10; 100] in
  let calls := default [] (@run Bench.delayed md xs) in
  (@run Bench.delayed md xs = Some calls
   /\ in_chirp md = false
   /\ 0 <= powerbuf_len md < 2 ^ SUSCOUNT_bits
   /\ map (fun call => in_chirp (fst call)) calls
      = replicate 2 true ++ [false]
   /\ printed (concat (map snd calls)) = [(4, 0, 0, 0)])
  /\ let seconds :=
       SUSCOUNT_of_float
         (F.floor (F.div (F.of_Z (wrap (n md - (powerbuf_len md - 1)))) (fs md)))
     in
     printed (concat (map snd calls))
     = [(wrap (powerbuf_len md + Z.of_nat 1),
         seconds / 3600, (seconds / 60) mod 60, seconds mod 60)].
Proof.
  intros md xs calls.
  assert (ready md = true) as Hready by (vm_compute; reflexivity).
  pose proof (run_spec md xs Hready) as Hrun.
  assert (in_chirp md = false) as Hidle by (vm_compute; reflexivity).
  assert (0 <= powerbuf_len md < 2 ^ SUSCOUNT_bits) as Hrange
      by (vm_compute; split; [discriminate|reflexivity]).
  assert (map (fun call => in_chirp (fst call)) calls
          = replicate 2 true ++ [false]) as Hflags by (vm_compute; reflexivity).
  assert (printed (concat (map snd calls)) = [(4, 0, 0, 0)]) as Hline
      by (vm_compute; reflexivity).
  split; [auto 6|].
  exact (chirp_report 1 xs md calls Hrun Hidle Hrange Hflags).
Defined.


(** A fresh detector for 30 samples per second is a state the invariant
    holds in. *)
Lemma fresh_steady : @steady Bench.delayed (@Bench.fresh_detector Bench.delayed).
Proof.
  apply (constructed_steady (F.of_Z 30) F.zero "detect.raw" Bench.boot).
  - apply boot_constructed.
  - vm_compute. split; reflexivity.
Qed.

(** What the first call of a run stored at the index 0 is there after the
    third call, two calls later, in a window of 3. *)
Lemma buffers_on_a_run :
  let md := @Bench.fresh_detector Bench.delayed in
  let xs := map Bench.sample [1; 1; 1; 10] in
  let calls := default [] (run md xs) in
  let call := default (md, []) (calls !! 0%nat) in
  let later := default (md, []) (calls !! 2%nat) in
  (run md xs = Some calls /\ @steady Bench.delayed md
   /\ calls !! 0%nat = Some call /\ xs !! 0%nat = Some (Bench.sample 1)
   /\ calls !! (0 + 2)%nat = Some later /\ Z.of_nat 2 < powerbuf_len md)
  /\ let i := p (before md calls 0) in
     (powerbuf (fst later) ≫= fun buf => aget buf i)
     = m_ratio <$> measure (before md calls 0) (Bench.sample 1)
     /\ (delay_line (fst later) ≫= fun line => aget line i)
        = Some (Cmul (prev (fst call)) (SU_C_CONJ (prev (before md calls 0)))).
Proof.
  intros md xs calls call later.
  pose proof fresh_steady as Hsteady.
  pose proof Hsteady as [Hready _].
  pose proof (run_spec md xs Hready) as Hrun.
  assert (calls !! 0%nat = Some call) as Hcall
      by (apply (run_entry md xs 0 Hready); vm_compute; lia).
  assert (calls !! (0 + 2)%nat = Some later) as Hlater
      by (apply (run_entry md xs 2 Hready); vm_compute; lia).
  assert (xs !! 0%nat = Some (Bench.sample 1)) as Hx by reflexivity.
  assert (Z.of_nat 2 < powerbuf_len md) as Hd by (vm_compute; reflexivity).
  split; [auto 7|].
  exact (buffers_keep_last_window xs md calls 0%nat call 2%nat later
           (Bench.sample 1) Hrun Hsteady Hcall Hx Hlater Hd).
Defined.

(** The third call of that run starts the chirp: its sample carries the
    argument of the product that the first call stored. *)
Lemma delay_on_a_run :
  let md := @Bench.fresh_detector Bench.delayed in
  let xs := map Bench.sample [1; 1; 1; 10] in
  let calls := default [] (run md xs) in
  let call := default (md, []) (calls !! 0%nat) in
  let later := default (md, []) (calls !! 2%nat) in
  (run md xs = Some calls /\ @steady Bench.delayed md
   /\ calls !! 0%nat = Some call
   /\ calls !! (0 + Z.to_nat (powerbuf_len md - 1))%nat = Some later
   /\ chirp_remaining (fst later) <> 0)
  /\ exists fp out,
      written (snd later) = [(fp, out)]
      /\ im out
         = @SU_C_ARG Bench.delayed
             (Cmul (prev (fst call)) (SU_C_CONJ (prev (before md calls 0)))).
Proof.
  intros md xs calls call later.
  pose proof fresh_steady as Hsteady.
  pose proof Hsteady as [Hready _].
  pose proof (run_spec md xs Hready) as Hrun.
  assert (calls !! 0%nat = Some call) as Hcall
      by (apply (run_entry md xs 0 Hready); vm_compute; lia).
  assert (Z.to_nat (powerbuf_len md - 1) = 2%nat) as Hwin
      by (vm_compute; reflexivity).
  assert (calls !! (0 + Z.to_nat (powerbuf_len md - 1))%nat = Some later)
    as Hlater.
  { rewrite Hwin. apply (run_entry md xs 2 Hready). vm_compute. lia. }
  assert (chirp_remaining (fst later) = 3) as Htail by (vm_compute; reflexivity).
  assert (chirp_remaining (fst later) <> 0) as Hnz
      by (rewrite Htail; discriminate).
  split; [auto 6|].
  exact (output_delayed_by_window xs md calls 0%nat call later Hrun Hsteady
           Hcall Hlater Hnz).
Defined.

(** Silence: the first call stores the ratio 0 / 0, and the detector is
    still idle, with nothing printed, after the third call. *)
Lemma freeze_on_silence :
  let md := @Bench.fresh_detector Bench.delayed in
  let xs := replicate 3 Czero in
  let calls := default [] (run md xs) in
  let call := default (md, []) (calls !! 0%nat) in
  let later := default (md, []) (calls !! 2%nat) in
  (run md xs = Some calls /\ @steady Bench.delayed md
   /\ calls !! 0%nat = Some call /\ xs !! 0%nat = Some Czero
   /\ m_ratio <$> measure (before md calls 0) Czero = Some F.nan
   /\ calls !! (0 + 2)%nat = Some later /\ Z.of_nat 2 < powerbuf_len md)
  /\ in_chirp (fst later) = in_chirp (before md calls (0 + 2))
  /\ printed (snd later) = [].
Proof.
  intros md xs calls call later.
  pose proof fresh_steady as Hsteady.
  pose proof Hsteady as [Hready _].
  pose proof (run_spec md xs Hready) as Hrun.
  assert (calls !! 0%nat = Some call) as Hcall
      by (apply (run_entry md xs 0 Hready); vm_compute; lia).
  assert (calls !! (0 + 2)%nat = Some later) as Hlater
      by (apply (run_entry md xs 2 Hready); vm_compute; lia).
  assert (xs !! 0%nat = Some Czero) as Hx by reflexivity.
  assert (m_ratio <$> measure (before md calls 0) Czero = Some F.nan) as Hnan
      by (vm_compute; reflexivity).
  assert (Z.of_nat 2 < powerbuf_len md) as Hd by (vm_compute; reflexivity).
  split; [auto 8|].
  exact (nan_ratio_freezes_detector xs md calls 0%nat call 2%nat later Czero
           Hrun Hsteady Hcall Hx Hnan Hlater Hd).
Defined.

(** The state after the first two samples of the run is one the
    invariant holds in. *)
Lemma idle_steady :
  @steady Bench.delayed
    (@Bench.state_after Bench.delayed (@Bench.fresh_detector Bench.delayed)
       (map Bench.sample [1; 1])).
Proof.
  split; [vm_compute; reflexivity|].
  split; [vm_compute; split; discriminate|].
  vm_compute. discriminate.
Qed.

(** The chirp of two calls and the three idle calls after it, in a window
    of 3: the flag is 1.0 on four calls, and 0.0 on the fifth. *)
Lemma flags_on_a_chirp :
  let md :=
    @Bench.state_after Bench.delayed (@Bench.fresh_detector Bench.delayed)
      (map Bench.sample [1; 1]) in
  let xs := map Bench.sample [1; 10; 100; 1000; 10000] in
  let calls := default [] (@run Bench.delayed md xs) in
  let call := default (md, []) (calls !! 4%nat) in
  (@run Bench.delayed md xs = Some calls /\ @steady Bench.delayed md
   /\ map (fun call => in_chirp (fst call)) calls
      = replicate 2 true ++ replicate 3 false
   /\ calls !! 4%nat = Some call
   /\ map valid_data calls = [true; true; true; true; false]
   /\ @phase_finite Bench.delayed call = true)
  /\ negb (chirp_remaining (fst call) =? 0)
     = bool_decide (Z.of_nat 4 < powerbuf_len md + Z.of_nat 1)
  /\ (@phase_finite Bench.delayed call = true ->
      valid_data call
      = bool_decide (Z.of_nat 4 < powerbuf_len md + Z.of_nat 1)).
Proof.
  intros md xs calls call.
  pose proof idle_steady as Hsteady.
  pose proof Hsteady as [Hready _].
  pose proof (run_spec md xs Hready) as Hrun.
  assert (map (fun call => in_chirp (fst call)) calls
          = replicate 2 true ++ replicate 3 false) as Hflags
      by (vm_compute; reflexivity).
  assert (calls !! 4%nat = Some call) as Hcall
      by (apply (run_entry md xs 4 Hready); vm_compute; lia).
  assert (map valid_data calls = [true; true; true; true; false]) as Hvalid
      by (vm_compute; reflexivity).
  assert (@phase_finite Bench.delayed call = true) as Hphase
      by (vm_compute; reflexivity).
  split; [auto 7|].
  exact (chirp_flags_window_and_chirp 1 3 xs md calls Hrun Hsteady Hflags
           4%nat call Hcall).
Defined.

Lemma boot_fresh `{Sigutils} : fresh Bench.boot.
Proof.
  intros a _. simpl. rewrite !lookup_empty. split; [reflexivity|].
  split; [apply not_elem_of_empty|reflexivity].
Qed.

Lemma boot_no_failure `{Sigutils} (bound k : nat) :
  (k < bound)%nat -> oracle Bench.boot !! k <> Some false.
Proof. intros _. simpl. rewrite lookup_nil. discriminate. Qed.

(** Construction at 8000 samples per second, in a world where nothing is
    allocated and nothing fails. *)
Lemma new_at_8000 :
  let w := @Bench.boot Bench.allpass in
  (forall k, (k < 6)%nat -> oracle w !! k <> Some false)
  /\ window_len (F.of_Z 8000) = 560
  /\ exists md,
      meteo_detect_new (F.of_Z 8000) (F.of_Z 1000) "detect.raw" w
      = (Some (next w), built (F.of_Z 8000) (F.of_Z 1000) "detect.raw" w)
      /\ heap (built (F.of_Z 8000) (F.of_Z 1000) "detect.raw" w) !! next w
         = Some md
      /\ fs md = F.of_Z 8000 /\ powerbuf_len md = window_len (F.of_Z 8000)
      /\ n md = 0 /\ p md = 0
      /\ in_chirp md = false /\ chirp_remaining md = 0
      /\ n0 md = F.zero /\ s0 md = F.zero /\ prev md = Czero
      /\ powerbuf md
         = Some (Array (1 + next w)
                   (replicate (Z.to_nat (window_len (F.of_Z 8000))) F.zero))
      /\ delay_line md
         = Some (Array (2 + next w)
                   (replicate (Z.to_nat (window_len (F.of_Z 8000))) Czero))
      /\ ofp md = Some (3 + next w)%nat
      /\ files (built (F.of_Z 8000) (F.of_Z 1000) "detect.raw" w)
           !! (3 + next w)%nat = Some "detect.raw"%string
      /\ is_Some (lpf1 md) /\ is_Some (lpf2 md) /\ is_Some (lo md).
Proof.
  intros w.
  split; [exact (boot_no_failure 6)|].
  split; [vm_compute; reflexivity|].
  exact (new_succeeds (F.of_Z 8000) (F.of_Z 1000) "detect.raw" w
           (boot_no_failure 6)).
Defined.

(** Construction at 30 samples per second, four samples, destruction. *)
Lemma release_after_a_run :
  let w := @Bench.boot Bench.delayed in
  let xs := map Bench.sample [1; 1; 1; 10] in
  (fresh w /\ (forall k, (k < 6)%nat -> oracle w !! k <> Some false)
   /\ 0 < window_len (F.of_Z 30) < 2 ^ UINT_bits)
  /\ exists new w1 md calls,
      meteo_detect_new (F.of_Z 30) F.zero "detect.raw" w = (Some new, w1)
      /\ heap w1 !! new = Some md
      /\ run md xs = Some calls
      /\ length calls = length xs
      /\ (exists fp, files w1 !! fp = Some "detect.raw"%string
                     /\ map fst (written (concat (map snd calls)))
                        = replicate (length xs) fp)
      /\ let w2 := meteo_detect_destroy new (store new (final md calls) w1) in
         heap w2 = heap w /\ blocks w2 = blocks w
         /\ files w2 = files w /\ filters w2 = filters w.
Proof.
  intros w xs.
  assert (0 < window_len (F.of_Z 30) < 2 ^ UINT_bits) as Hlen
      by (vm_compute; split; reflexivity).
  split; [split; [exact boot_fresh|split; [exact (boot_no_failure 6)|exact Hlen]]|].
  exact (new_run_destroy_releases (F.of_Z 30) F.zero "detect.raw" w xs
           boot_fresh (boot_no_failure 6) Hlen).
Defined.

(** [main] on a file of two samples, when nothing fails. *)
Lemma main_on_two_samples :
  let w := @Bench.boot Bench.allpass in
  let disk := fun _ : string => map Bench.sample [1; 1] in
  (fresh w /\ forall k, (k < 7)%nat -> oracle w !! k <> Some false)
  /\ exists w' evs,
      main ["meteodetect"; "input.raw"]%string disk w
      = (Returned 0, w', [], evs)
      /\ map fst (written evs)
         = replicate (length (disk "input.raw"%string)) (4 + next w)%nat
      /\ heap w' = heap w /\ blocks w' = blocks w
      /\ files w' = files w /\ filters w' = filters w.
Proof.
  intros w disk.
  split; [split; [exact boot_fresh|exact (boot_no_failure 7)]|].
  exact (main_returns_and_releases "meteodetect" "input.raw" disk w boot_fresh
           (boot_no_failure 7)).
Defined.

(** [main] when the first buffer of the detector cannot be allocated: the
    input file, the struct and both filters are acquired, the fifth
    acquisition fails. *)
Lemma main_when_a_buffer_fails :
  let w := @World Bench.allpass 0 [true; true; true; true; false] ∅ ∅ ∅ 0 in
  let disk := fun _ : string => map Bench.sample [1; 1] in
  (oracle w !! 0%nat <> Some false /\ oracle w !! 1%nat <> Some false
   /\ exists k, (2 <= k < 7)%nat /\ oracle w !! k = Some false)
  /\ fst (fst (fst (main ["meteodetect"; "input.raw"]%string disk w)))
     = Undefined.
Proof.
  intros w disk.
  assert (oracle w !! 0%nat <> Some false) as Hok by discriminate.
  assert (oracle w !! 1%nat <> Some false) as Hok1 by discriminate.
  assert (exists k, (2 <= k < 7)%nat /\ oracle w !! k = Some false) as Hfail
      by (exists 4%nat; split; [lia|reflexivity]).
  split; [auto|].
  exact (main_goes_on_with_freed_struct "meteodetect" "input.raw" disk w
           Hok Hok1 Hfail).
Defined.

(** A detector for 0 samples per second: the window is empty, and the
    first call has no result. *)
Lemma feed_with_an_empty_window :
  let md :=
    Bench.detector (@meteo_detect_new Bench.allpass (F.of_Z 0) F.zero
                      "detect.raw" Bench.boot) in
  (@constructed Bench.allpass (F.of_Z 0) F.zero "detect.raw" Bench.boot md
   /\ powerbuf_len md = 0
   /\ ~ 0 < powerbuf_len md < 2 ^ UINT_bits)
  /\ meteo_detect_feed md (Bench.sample 1) = None.
Proof.
  intros md.
  pose proof (@boot_constructed Bench.allpass (F.of_Z 0) F.zero "detect.raw")
    as Hnew.
  assert (powerbuf_len md = 0) as Hwin by (vm_compute; reflexivity).
  assert (~ 0 < powerbuf_len md < 2 ^ UINT_bits) as Hout
      by (rewrite Hwin; lia).
  split; [auto|].
  exact (window_out_of_range_breaks_feed _ _ _ _ md (Bench.sample 1) Hnew Hout).
Defined.

(** Five silent samples through the detector with the filters of
    [Bench]. *)
Lemma zeros_on_silence :
  let md := @Bench.fresh_detector Bench.delayed in
  let rate := F.of_Z 30 in
  ((forall f x, Bench.rest f -> Cis_zero x = true ->
      Cis_zero (fst (@su_iir_filt_feed Bench.delayed f x)) = true
      /\ Bench.rest (snd (@su_iir_filt_feed Bench.delayed f x)))
   /\ (forall osc : @su_ncqo_t Bench.delayed, True ->
       Cis_finite (fst (@su_ncqo_read Bench.delayed osc)) = true /\ True)
   /\ Bench.rest (@su_iir_bwlpf_init Bench.delayed 5
                    (@SU_ABS2NORM_FREQ Bench.delayed rate LPF1_CUTOFF))
   /\ Bench.rest (@su_iir_bwlpf_init Bench.delayed 4
                    (@SU_ABS2NORM_FREQ Bench.delayed rate LPF2_CUTOFF))
   /\ @constructed Bench.delayed rate F.zero "detect.raw" Bench.boot md
   /\ 0 < powerbuf_len md < 2 ^ UINT_bits
   /\ Ieee.is_finite (alpha md) = true)
  /\ exists calls,
      run md (replicate 5 Czero) = Some calls /\ length calls = 5%nat
      /\ forall j call, calls !! j = Some call ->
           printed (snd call) = []
           /\ valid_data call = false
           /\ exists fp out,
                written (snd call) = [(fp, out)]
                /\ re out = F.zero /\ im out = F.zero.
Proof.
  intros md rate.
  pose proof (@boot_constructed Bench.delayed rate F.zero "detect.raw")
    as Hnew.
  assert (0 < powerbuf_len md < 2 ^ UINT_bits) as Hlen
      by (vm_compute; split; reflexivity).
  assert (Ieee.is_finite (alpha md) = true) as Halpha
      by (vm_compute; reflexivity).
  pose proof (fun (osc : @su_ncqo_t Bench.delayed) (_ : True) =>
                conj (eq_refl true) I) as Hread.
  split.
  { split; [exact fir_rest_feed|]. split; [exact Hread|].
    split; [apply delayed_rest_init|]. split; [apply delayed_rest_init|].
    auto. }
  exact (@silence_writes_zeros Bench.delayed Bench.rest (fun _ => True)
           rate F.zero "detect.raw" Bench.boot md 5 fir_rest_feed Hread
           (delayed_rest_init _ _) (delayed_rest_init _ _) I Hnew Hlen Halpha).
Defined.
